(** * Recurring transactions: a shallow embedding of [recurring_payments.ipynb]

    The final cell of the notebook (utility functions, main functions and the
    driver [get_recurring_transactions]) is embedded function by function.

    Modelling conventions.
    - A pandas [DataFrame] is a list of rows (in positional order) together
      with the list of its column labels.  Each row carries its index label;
      the labels of an input table are distinct ([read_csv] numbers the
      rows).  Reading a column whose label is absent raises [KeyError], as
      [df['c']] does.
    - [made_on] is a calendar date, held as a day number; a [Timedelta] is a
      number of days, and [NaT]/[NaN] is [None].
    - Descriptions are ASCII text, held as lists of characters.
    - [Series.str.replace(pat, repl)] reads [pat] as a regular expression,
      the default of the pandas the notebook ran on (Python 3.7).
    - A Python or numpy float is an IEEE 754 double: NaN, an infinity, or a
      finite value held as the rational it stands for (the sign of zero is
      not kept; no operation of the notebook tells it).  Every operation
      returns the exact result rounded to the nearest double, halves to the
      even mantissa, overflowing to an infinity.
    - A cell of ['daydelta_int'] is a whole number of days or NaN; a cell
      of ['amount_cents'] is an integer, converted to a double when a mean
      is taken.
    - [DataFrame.sort_values] is called with its default [kind] (quicksort),
      which pandas documents as not stable; it is taken as an interface
      ([SortValues]) that promises a sorted rearrangement of the rows and
      nothing about rows with equal keys. *)

From Stdlib Require Import List Bool Arith ZArith QArith Qabs Qpower Lia Lqa.
From Stdlib Require Import Ascii String.
From Stdlib Require Import Permutation Sorted.
Import ListNotations.

Open Scope list_scope.

(** ** Text *)

Definition str := list ascii.

(** [lit "abc"] is the Python literal ['abc']. *)
Definition lit (s : string) : str := list_ascii_of_string s.

Module Text.

Definition code (c : ascii) : nat := nat_of_ascii c.

Definition between (lo hi : nat) (c : ascii) : bool :=
  (lo <=? code c)%nat && (code c <=? hi)%nat.

(** [\d] *)
Definition is_digit (c : ascii) : bool := between 48 57 c.

Definition is_upper (c : ascii) : bool := between 65 90 c.

Definition is_lower (c : ascii) : bool := between 97 122 c.

(** [\w]: letters, digits and the underscore. *)
Definition is_word (c : ascii) : bool :=
  is_digit c || is_upper c || is_lower c || (code c =? 95)%nat.

(** The characters [str.split()] and [str.strip()] treat as whitespace:
    tab, newline, vertical tab, form feed, carriage return, the four
    separators 0x1c..0x1f, and the space. *)
Definition is_space (c : ascii) : bool :=
  between 9 13 c || between 28 32 c.

Definition eqb (a b : str) : bool :=
  if list_eq_dec ascii_dec a b then true else false.

(** [str.lower()] on one character. *)
Definition lower_char (c : ascii) : ascii :=
  if is_upper c then ascii_of_nat (code c + 32) else c.

Definition lower (s : str) : str := map lower_char s.

(** [prefix w s]: [s.startswith(w)]. *)
Fixpoint prefix (w s : str) : bool :=
  match w, s with
  | [], _ => true
  | _ :: _, [] => false
  | a :: w', b :: s' => Ascii.eqb a b && prefix w' s'
  end.

(** [contains w s]: the Python test [w in s] (substring). *)
Fixpoint contains (w s : str) : bool :=
  prefix w s ||
  match s with
  | [] => false
  | _ :: s' => contains w s'
  end.

(** [s.split()]: maximal runs of non-whitespace characters.  [cur] is the
    run being read. *)
Fixpoint split_ws_from (cur : str) (s : str) : list str :=
  match s with
  | [] => match cur with [] => [] | _ => [cur] end
  | c :: s' =>
      if is_space c
      then match cur with
           | [] => split_ws_from [] s'
           | _ => cur :: split_ws_from [] s'
           end
      else split_ws_from (cur ++ [c]) s'
  end.

Definition split_ws (s : str) : list str := split_ws_from [] s.

(** [s.split(' ', 1)[0]]: the text before the first space (all of [s] when
    it has no space; never an error). *)
Fixpoint first_field (s : str) : str :=
  match s with
  | [] => []
  | c :: s' => if Ascii.eqb c " " then [] else c :: first_field s'
  end.

Fixpoint lstrip (s : str) : str :=
  match s with
  | [] => []
  | c :: s' => if is_space c then lstrip s' else s
  end.

(** [s.strip()] *)
Definition strip (s : str) : str := rev (lstrip (rev (lstrip s))).

(** [' '.join(ws)] *)
Fixpoint join_space (ws : list str) : str :=
  match ws with
  | [] => []
  | [w] => w
  | w :: ws' => w ++ " "%char :: join_space ws'
  end.

End Text.

(** ** The noise pattern of [clean_description]

    [date_pattern] is
    [\b(\d{2}|JAN|FEB|...|DEC|ON|BCC|CLP|ATM|CH|FT|BGC|DDR|\')\b]. *)

Module Regex.

Inductive alt : Type :=
| Digits2            (* \d{2} *)
| Lit (w : str).     (* a literal *)

Definition date_pattern : list alt :=
  Digits2 ::
  map (fun w => Lit (lit w))
    ["JAN"; "FEB"; "MAR"; "APR"; "MAY"; "JUN"; "JUL"; "AUG"; "SEP"; "OCT";
     "NOV"; "DEC"; "ON"; "BCC"; "CLP"; "ATM"; "CH"; "FT"; "BGC"; "DDR";
     "'"]%string.

Definition word_at (c : option ascii) : bool :=
  match c with
  | Some x => Text.is_word x
  | None => false
  end.

(** [\b] between the character before ([None] at the start of the text)
    and the character after ([None] at its end). *)
Definition boundary (before after : option ascii) : bool :=
  xorb (word_at before) (word_at after).

(** Length of the text one alternative matches at the head of [s]. *)
Definition match_alt (a : alt) (s : str) : option nat :=
  match a with
  | Digits2 =>
      match s with
      | c1 :: c2 :: _ =>
          if Text.is_digit c1 && Text.is_digit c2 then Some 2%nat else None
      | _ => None
      end
  | Lit w => if Text.prefix w s then Some (List.length w) else None
  end.

(** The alternatives are tried in order; one that matches but is not
    followed by [\b] is given up for the next. *)
Fixpoint match_alts (alts : list alt) (s : str) : option nat :=
  match alts with
  | [] => None
  | a :: alts' =>
      match match_alt a s with
      | Some n =>
          if boundary (nth_error s (n - 1)) (nth_error s n)
          then Some n
          else match_alts alts' s
      | None => match_alts alts' s
      end
  end.

(** A match of the whole pattern at the head of [s], [prev] being the
    character before it. *)
Definition match_here (prev : option ascii) (s : str) : option nat :=
  if boundary prev (hd_error s) then match_alts date_pattern s else None.

(** [re.sub(date_pattern, '', s)]: scan from the left; where the pattern
    matches, drop the matched text and resume after it; elsewhere copy the
    character.  [skip] counts the characters of the current match still to
    drop. *)
Fixpoint sub_from (prev : option ascii) (skip : nat) (s : str) : str :=
  match s with
  | [] => []
  | c :: s' =>
      match skip with
      | S k => sub_from (Some c) k s'
      | O =>
          match match_here prev s with
          | Some n => sub_from (Some c) (n - 1) s'
          | None => c :: sub_from (Some c) 0 s'
          end
      end
  end.

Definition remove_noise (s : str) : str := sub_from None 0 s.

(** [re.sub(r'\*|\.|\,', ' ', s)] on one character. *)
Definition punct_char (c : ascii) : ascii :=
  if (Ascii.eqb c "*" || Ascii.eqb c "." || Ascii.eqb c ",")%bool
  then " "%char else c.

Definition replace_punct (s : str) : str := map punct_char s.

End Regex.

(** ** Noise removal, told by words

    The text is cut into words (maximal runs of word characters) and the
    characters between them.  A word is dropped when it is a two-digit
    number, a month abbreviation or one of the transaction codes; an
    apostrophe is dropped when it stands directly between two word
    characters; everything else is kept. *)

Definition noise_words : list string :=
  ["JAN"; "FEB"; "MAR"; "APR"; "MAY"; "JUN"; "JUL"; "AUG"; "SEP"; "OCT";
   "NOV"; "DEC"; "ON"; "BCC"; "CLP"; "ATM"; "CH"; "FT"; "BGC"; "DDR"]%string.

Definition two_digits (w : str) : bool :=
  match w with
  | [a; b] => Text.is_digit a && Text.is_digit b
  | _ => false
  end.

Definition is_noise_word (w : str) : bool :=
  two_digits w || existsb (fun v => Text.eqb (lit v) w) noise_words.

Definition keep_word (w : str) : str :=
  if is_noise_word w then [] else w.

Definition is_nil {A : Type} (l : list A) : bool :=
  match l with
  | [] => true
  | _ => false
  end.

(** [run] is the word read so far, ending just before [s]. *)
Fixpoint by_words_from (run : str) (s : str) : str :=
  match s with
  | [] => keep_word run
  | c :: s' =>
      if Text.is_word c then by_words_from (run ++ [c]) s'
      else
        keep_word run ++
        (if Ascii.eqb c "'" && negb (is_nil run) && Regex.word_at (hd_error s')
         then [] else [c]) ++
        by_words_from [] s'
  end.

Definition remove_noise_by_words (s : str) : str := by_words_from [] s.

(** ** Exceptions *)

Inductive exn : Type :=
| KeyError (label : string)   (* a column label that the frame does not have *)
| IndexError                  (* [strings[0]] or [.iloc[0]] on nothing *)
| TypeError                   (* [pd.to_timedelta] on a datetime64 column *)
| AttributeError.             (* [.round] on the Python float [nan] *)

Inductive result (A : Type) : Type :=
| Ok (a : A)
| Raise (e : exn).

Arguments Ok {A} a.
Arguments Raise {A} e.

Definition bind {A B : Type} (m : result A) (k : A -> result B) : result B :=
  match m with
  | Ok a => k a
  | Raise e => Raise e
  end.

Notation "x <- m ;; k" := (bind m (fun x => k))
  (at level 61, m at next level, right associativity).

(** A [for] loop whose body may raise and which updates the state [s]. *)
Fixpoint for_each {A S : Type} (l : list A) (s : S) (body : S -> A -> result S)
  : result S :=
  match l with
  | [] => Ok s
  | a :: l' => s' <- body s a ;; for_each l' s' body
  end.

(** Running [f] over a list, collecting the results, stopping at the first
    exception. *)
Fixpoint map_m {A B : Type} (f : A -> result B) (l : list A) : result (list B) :=
  match l with
  | [] => Ok []
  | a :: l' => b <- f a ;; bs <- map_m f l' ;; Ok (b :: bs)
  end.

(** ** Floats *)

(** An IEEE 754 double. *)
Inductive float : Type :=
| NaN
| Inf (negative : bool)
| Fin (q : Q).

(** The rational a finite double stands for. *)
Definition value (a : float) : Q :=
  match a with
  | Fin q => q
  | _ => 0
  end.

Definition is_finite (a : float) : bool :=
  match a with
  | Fin _ => true
  | _ => false
  end.

Definition pow2 (e : Z) : Q := 2 ^ e.

(** [floor (log2 q)] of a positive rational. *)
Definition ilog2 (q : Q) : Z :=
  let l := (Z.log2 (Qnum q) - Z.log2 (Zpos (Qden q)))%Z in
  if Qle_bool (pow2 l) q then l else (l - 1)%Z.

(** The exponent of the smallest positive double, [2^-1074]. *)
Definition emin : Z := (-1074)%Z.

(** The exponent of the unit in the last place of the doubles around [q]:
    53 bits of mantissa, and no exponent below [emin]. *)
Definition ulp_exponent (q : Q) : Z := Z.max (ilog2 q - 52) emin.

(** Rounding to the nearest integer, halves to the even neighbour, as
    [numpy.float64.round(0)] does. *)
Definition round_half_even (q : Q) : Z :=
  let n := Qnum q in
  let d := Zpos (Qden q) in
  let f := (n / d)%Z in
  let r2 := (2 * (n mod d))%Z in
  if (r2 <? d)%Z then f
  else if (d <? r2)%Z then (f + 1)%Z
  else if Z.even f then f else (f + 1)%Z.

(** Rounding a positive rational to the nearest multiple of its unit in the
    last place, halves to the even multiple. *)
Definition nearest (q : Q) : Q :=
  let e := ulp_exponent q in
  inject_Z (round_half_even (q / pow2 e)) * pow2 e.

(** A rounded value of [2^1024] or more overflows. *)
Definition round_pos (q : Q) : float :=
  let v := nearest q in
  if Qle_bool (pow2 1024) v then Inf false else Fin (Qred v).

Definition fneg (a : float) : float :=
  match a with
  | NaN => NaN
  | Inf s => Inf (negb s)
  | Fin q => Fin (- q)
  end.

(** The double nearest to a rational: what an operation returns for its
    exact result, and what a decimal literal such as [0.2] denotes. *)
Definition rnd (q : Q) : float :=
  match q ?= 0 with
  | Eq => Fin 0
  | Gt => round_pos q
  | Lt => fneg (round_pos (- q))
  end.

(** An integer converted to a double. *)
Definition of_Z (z : Z) : float := rnd (inject_Z z).

(** A cell of a column of whole numbers that may hold NaN. *)
Definition of_cell (x : option Z) : float :=
  match x with
  | Some z => of_Z z
  | None => NaN
  end.

Definition fadd (a b : float) : float :=
  match a, b with
  | Fin x, Fin y => rnd (x + y)
  | Inf s, Inf s' => if Bool.eqb s s' then Inf s else NaN
  | Inf s, Fin _ | Fin _, Inf s => Inf s
  | _, _ => NaN
  end.

Definition fsub (a b : float) : float := fadd a (fneg b).

Definition negative (q : Q) : bool := negb (Qle_bool 0 q).

Definition fmul (a b : float) : float :=
  match a, b with
  | Fin x, Fin y => rnd (x * y)
  | Inf s, Inf s' => Inf (xorb s s')
  | Inf s, Fin y | Fin y, Inf s =>
      if Qeq_bool y 0 then NaN else Inf (xorb s (negative y))
  | _, _ => NaN
  end.

(** A sum divided by the number of its terms. *)
Definition fdiv_count (a : float) (n : positive) : float :=
  match a with
  | Fin x => rnd (x / inject_Z (Zpos n))
  | other => other
  end.

(** [a <= b] on floats; false as soon as one side is NaN. *)
Definition fle (a b : float) : bool :=
  match a, b with
  | NaN, _ | _, NaN => false
  | Inf true, _ | _, Inf false => true
  | Fin x, Fin y => Qle_bool x y
  | _, _ => false
  end.

(** [x.round(0)] on a numpy float. *)
Definition fround (a : float) : float :=
  match a with
  | Fin q => Fin (inject_Z (round_half_even q))
  | other => other
  end.

(** The sum of a column of doubles, the terms added from the first to the
    last.  (numpy groups the additions in its own way; the result is the
    same whenever no partial sum is rounded, as is the case for numbers of
    days and for the amounts that the statements about means ask for.) *)
Definition fsum (l : list float) : float := fold_left fadd l (Fin 0).

(** The values of a column that are not NaN. *)
Definition dropna (col : list (option Z)) : list Z :=
  flat_map (fun o => match o with Some z => [z] | None => [] end) col.

Definition sum (l : list Z) : Z := fold_right Z.add 0%Z l.

(** The average of a non-empty list of integers, exactly. *)
Definition average (l : list Z) : Q := sum l # Pos.of_nat (List.length l).

(** [Series.mean()]: NaN cells are skipped, the others are added as doubles
    and the sum is divided by their number; NaN when nothing is left. *)
Definition mean (col : list (option Z)) : float :=
  match dropna col with
  | [] => NaN
  | d => fdiv_count (fsum (map of_Z d)) (Pos.of_nat (List.length d))
  end.

(** [s.mean().round(0)]: the mean of a Series without a number is the
    Python float [nan], which has no method [round]. *)
Definition mean_round (col : list (option Z)) : result float :=
  match dropna col with
  | [] => Raise AttributeError
  | _ => Ok (fround (mean col))
  end.

(** [s[-n:]]: the last [n] cells, all of them when there are fewer. *)
Definition last_n {A : Type} (n : nat) (l : list A) : list A :=
  skipn (List.length l - n) l.

(** ** Data frames *)

Record Row : Type := mkRow {
  index : nat;                    (* the index label *)
  made_on : Z;
  original_description : str;
  amount_cents : Z;
  income : bool;
  type_ : str;                    (* column 'type' *)
  clean_desc : str;
  keyword : str;
  daydelta : option Z;
  daydelta_int : option Z;
  recurring : option bool
}.

Record DataFrame : Type := mkDF {
  columns : list string;
  rows : list Row
}.

Definition has_column (df : DataFrame) (c : string) : bool :=
  existsb (String.eqb c) (columns df).

(** [df[c]]: the cells of column [c], read with the accessor [get]. *)
Definition column {A : Type} (df : DataFrame) (c : string) (get : Row -> A)
  : result (list A) :=
  if has_column df c then Ok (map get (rows df)) else Raise (KeyError c).

(** [df[c] = ...]: a new column goes last, an old one keeps its place. *)
Definition with_column (cols : list string) (c : string) : list string :=
  if existsb (String.eqb c) cols then cols else cols ++ [c].

Definition set_type (v : str) (r : Row) : Row :=
  mkRow (index r) (made_on r) (original_description r) (amount_cents r)
    (income r) v (clean_desc r) (keyword r) (daydelta r) (daydelta_int r)
    (recurring r).

Definition set_clean_desc (v : str) (r : Row) : Row :=
  mkRow (index r) (made_on r) (original_description r) (amount_cents r)
    (income r) (type_ r) v (keyword r) (daydelta r) (daydelta_int r)
    (recurring r).

Definition set_keyword (v : str) (r : Row) : Row :=
  mkRow (index r) (made_on r) (original_description r) (amount_cents r)
    (income r) (type_ r) (clean_desc r) v (daydelta r) (daydelta_int r)
    (recurring r).

Definition set_daydelta (v : option Z) (r : Row) : Row :=
  mkRow (index r) (made_on r) (original_description r) (amount_cents r)
    (income r) (type_ r) (clean_desc r) (keyword r) v (daydelta_int r)
    (recurring r).

Definition set_daydelta_int (v : option Z) (r : Row) : Row :=
  mkRow (index r) (made_on r) (original_description r) (amount_cents r)
    (income r) (type_ r) (clean_desc r) (keyword r) (daydelta r) v
    (recurring r).

Definition set_recurring (v : option bool) (r : Row) : Row :=
  mkRow (index r) (made_on r) (original_description r) (amount_cents r)
    (income r) (type_ r) (clean_desc r) (keyword r) (daydelta r)
    (daydelta_int r) v.

(** [Series.unique()]: the distinct values in order of first appearance. *)
Fixpoint unique (l : list str) : list str :=
  match l with
  | [] => []
  | x :: l' => x :: filter (fun y => negb (Text.eqb x y)) (unique l')
  end.

(** [df.loc[label, 'daydelta'] = v].  The first assignment creates the
    column, NaT in every other row. *)
Definition loc_set_daydelta (df : DataFrame) (label : nat) (v : option Z)
  : DataFrame :=
  let old := if has_column df "daydelta" then rows df
             else map (set_daydelta None) (rows df) in
  mkDF (with_column (columns df) "daydelta")
       (map (fun r => if (index r =? label)%nat then set_daydelta v r else r) old).

(** [df.loc[labels, 'recurring'] = True].  The first assignment creates the
    column, NaN in every other row. *)
Definition loc_set_recurring (df : DataFrame) (labels : list nat) : DataFrame :=
  let old := if has_column df "recurring" then rows df
             else map (set_recurring None) (rows df) in
  mkDF (with_column (columns df) "recurring")
       (map (fun r => if existsb (Nat.eqb (index r)) labels
                      then set_recurring (Some true) r else r) old).

(** [sort_values('made_on')] with the default [kind]: the rows come back
    rearranged in ascending date order. *)
Class SortValues : Type := {
  sort_values : list Row -> list Row;
  sort_values_perm : forall l, Permutation l (sort_values l);
  sort_values_sorted :
    forall l, Sorted (fun a b => (made_on a <= made_on b)%Z) (sort_values l)
}.

(** [s - s.shift()]: each date minus the one before it, NaT for the first. *)
Fixpoint shift_diff (prev : option Z) (dates : list Z) : list (option Z) :=
  match dates with
  | [] => []
  | d :: dates' =>
      match prev with
      | Some p => Some (d - p)%Z
      | None => None
      end :: shift_diff (Some d) dates'
  end.

(** The summary of one recurring series ([info_dict]). *)
Record Summary : Type := mkSummary {
  entity_name : str;
  income_ : bool;
  period_days : float;
  typical_amount_cents : float
}.

(** [find_entity_name(data)] *)
Definition find_entity_name (data : list str) : result str :=
  match data with
  | [] => Raise IndexError
  | first :: _ =>
      let common_words :=
        fold_left
          (fun acc word =>
             if forallb (fun desc => Text.contains word desc) data
             then acc ++ word ++ [" "%char]
             else acc)
          (Text.split_ws first) [] in
      Ok (Text.strip common_words)
  end.

(** The literal [0.2]: the double nearest to one fifth. *)
Definition default_tolerance : float := rnd (1 # 5).

(** [is_recurring] on the ['daydelta_int'] cells of a group. *)
Definition within_tolerance (cells : list (option Z)) (tolerance : float)
  : bool :=
  let recent_trans := last_n 3 cells in
  let avg_amount := mean recent_trans in
  let lower_bound := fmul avg_amount (fsub (of_Z 1) tolerance) in
  let upper_bound := fmul avg_amount (fadd (of_Z 1) tolerance) in
  forallb (fun x => fle lower_bound (of_cell x) && fle (of_cell x) upper_bound)
    recent_trans.

(** [is_recurring(df, tolerance)] *)
Definition is_recurring (df : DataFrame) (tolerance : float) : result bool :=
  cells <- column df "daydelta_int" daydelta_int ;;
  Ok (within_tolerance cells tolerance).

(** The text steps of [clean_description] on one description. *)
Definition clean_text (raw : str) : str :=
  Text.lower (Regex.replace_punct (Regex.remove_noise raw)).

Definition make_keyword (clean : str) (type : str) : str :=
  Text.first_field clean ++ lit " " ++ type.

(** ['credit' if x == True else 'debit'] *)
Definition direction_label (x : bool) : str :=
  if x then lit "credit" else lit "debit".

(** [clean_dataframe(df)] *)
Definition clean_dataframe (df : DataFrame) : result DataFrame :=
  _ <- column df "made_on" made_on ;;
  let df := mkDF (skipn 2 (columns df)) (rows df) in
  _ <- column df "income" income ;;
  Ok (mkDF (with_column (columns df) "type")
        (map (fun r => set_type (direction_label (income r)) r)
           (rows df))).

(** [clean_description(df)] *)
Definition clean_description (df : DataFrame) : result DataFrame :=
  _ <- column df "original_description" original_description ;;
  let df := mkDF (with_column (columns df) "clean_desc")
              (map (fun r => set_clean_desc (clean_text (original_description r)) r)
                 (rows df)) in
  _ <- column df "type" type_ ;;
  Ok (mkDF (with_column (columns df) "keyword")
        (map (fun r => set_keyword (make_keyword (clean_desc r) (type_ r)) r)
           (rows df))).

(** [pd.to_timedelta(df['daydelta'])].  The column was created by the first
    [df.loc[index, 'daydelta'] = NaT], as a datetime64 column; the first
    [Timedelta] written to it turns it into a column of objects, which
    [to_timedelta] converts.  If nothing but [NaT] was ever written it is
    still a datetime64 column, and [to_timedelta] raises [TypeError]. *)
Definition to_timedelta (cells : list (option Z)) : result unit :=
  match cells with
  | [] => Ok tt
  | _ =>
      if forallb (fun c => match c with None => true | Some _ => false end)
           cells
      then Raise TypeError
      else Ok tt
  end.

Section Pipeline.

Context {SV : SortValues}.

(** [get_subdf(df, keyword)] *)
Definition get_subdf (df : DataFrame) (kw : str) : result DataFrame :=
  _ <- column df "keyword" keyword ;;
  let sub_df := mkDF (columns df)
                  (filter (fun r => Text.eqb (keyword r) kw) (rows df)) in
  _ <- column sub_df "made_on" made_on ;;
  Ok (mkDF (columns sub_df) (sort_values (rows sub_df))).

(** The groups the loops go through:
    [get_subdf(df, i) for i in df['keyword'].unique()]. *)
Definition groups (df : DataFrame) : result (list DataFrame) :=
  keys <- column df "keyword" keyword ;;
  map_m (get_subdf df) (unique keys).

(** [daydelta(df, 'made_on')] *)
Definition daydelta_frame (df : DataFrame) : result DataFrame :=
  _ <- column df "made_on" made_on ;;
  let process := sort_values (rows df) in
  Ok (mkDF (with_column (columns df) "daydelta")
        (map (fun p => set_daydelta (snd p) (fst p))
           (combine process (shift_diff None (map made_on process))))).

(** One turn of the loop of [calculate_daydelta]. *)
Definition daydelta_body (df : DataFrame) (i : str) : result DataFrame :=
  sub_df <- get_subdf df i ;;
  sub_df <- daydelta_frame sub_df ;;
  Ok (fold_left
        (fun df row => loc_set_daydelta df (index row) (daydelta row))
        (rows sub_df) df).

(** [calculate_daydelta(df)] *)
Definition calculate_daydelta (df : DataFrame) : result DataFrame :=
  keys <- column df "keyword" keyword ;;
  df <- for_each (unique keys) df daydelta_body ;;
  cells <- column df "daydelta" daydelta ;;
  _ <- to_timedelta cells ;;
  Ok (mkDF (with_column (columns df) "daydelta_int")
        (map (fun r => set_daydelta_int (daydelta r) r) (rows df))).

(** One turn of the loop of [calculate_recurring]. *)
Definition recurring_body (df : DataFrame) (i : str) : result DataFrame :=
  sub_df <- get_subdf df i ;;
  b <- is_recurring sub_df default_tolerance ;;
  if b then Ok (loc_set_recurring df (map index (rows sub_df)))
  else Ok df.

(** [calculate_recurring(df)] *)
Definition calculate_recurring (df : DataFrame) : result DataFrame :=
  keys <- column df "keyword" keyword ;;
  df <- for_each (unique keys) df recurring_body ;;
  _ <- column df "recurring" recurring ;;
  Ok (mkDF (columns df)
        (map (fun r => match recurring r with
                       | None => set_recurring (Some false) r
                       | Some _ => r
                       end) (rows df))).

(** [get_recurring_keywords(df)] *)
Definition get_recurring_keywords (df : DataFrame) : result (list str) :=
  _ <- column df "recurring" recurring ;;
  let sel := mkDF (columns df)
               (filter (fun r => match recurring r with
                                 | Some true => true
                                 | _ => false
                                 end) (rows df)) in
  keys <- column sel "keyword" keyword ;;
  Ok (unique keys).

(** The body of the loop of [generate_output]. *)
Definition summarise (df : DataFrame) (kw : str) : result Summary :=
  sub_df <- get_subdf df kw ;;
  descs <- column sub_df "clean_desc" clean_desc ;;
  name <- find_entity_name descs ;;
  incomes <- column sub_df "income" income ;;
  inc <- match incomes with
         | [] => Raise IndexError
         | b :: _ => Ok b
         end ;;
  deltas <- column sub_df "daydelta_int" daydelta_int ;;
  period <- mean_round (last_n 3 deltas) ;;
  amounts <- column sub_df "amount_cents" amount_cents ;;
  typical <- mean_round (map Some amounts) ;;
  Ok (mkSummary name inc period typical).

(** [generate_output(df)] *)
Definition generate_output (df : DataFrame) : result (list Summary) :=
  recurring_keywords <- get_recurring_keywords df ;;
  for_each recurring_keywords []
    (fun output kw =>
       info_dict <- summarise df kw ;;
       Ok (output ++ [info_dict])).

(** [get_recurring_transactions(df)] *)
Definition get_recurring_transactions (df : DataFrame)
  : result (list Summary) :=
  df <- clean_dataframe df ;;
  df <- clean_description df ;;
  df <- calculate_daydelta df ;;
  df <- calculate_recurring df ;;
  generate_output df.

End Pipeline.

(** ** A sorting algorithm that meets [SortValues]

    Insertion sort by date.  With [ties_first = true] a row is put before the
    rows of the same date already placed, which keeps the input order of
    equal dates. *)

Definition goes_before (ties_first : bool) (x y : Row) : bool :=
  if ties_first then (made_on x <=? made_on y)%Z
  else (made_on x <? made_on y)%Z.

Fixpoint insert_row (ties_first : bool) (x : Row) (l : list Row) : list Row :=
  match l with
  | [] => [x]
  | y :: l' =>
      if goes_before ties_first x y
      then x :: y :: l'
      else y :: insert_row ties_first x l'
  end.

Definition insertion_sort (ties_first : bool) (l : list Row) : list Row :=
  fold_right (insert_row ties_first) [] l.

(** ** The classifier, as the specification words it

    D is the last [min(3, n-1)] defined deltas of a group of [n]
    transactions; an empty D is not recurring; otherwise the group is
    recurring when every value of D is within the band around the mean of
    D. *)

Definition in_band (D : list Z) (t : Q) (d : Z) : Prop :=
  (average D * (1 - t) <= inject_Z d /\ inject_Z d <= average D * (1 + t))%Q.

Definition in_bandb (D : list Z) (t : Q) (d : Z) : bool :=
  Qle_bool (average D * (1 - t)) (inject_Z d) &&
  Qle_bool (inject_Z d) (average D * (1 + t)).

Definition spec_classify (cells : list (option Z)) (t : Q) : bool :=
  let n := List.length cells in
  let D := last_n (Nat.min 3 (n - 1)) (dropna cells) in
  match D with
  | [] => false
  | _ => forallb (in_bandb D t) D
  end.

(** ** Sample tables *)

(** A transaction as it is read from the input table. *)
Definition transaction (i : nat) (date : Z) (desc : string) (amount : Z)
  (inc : bool) : Row :=
  mkRow i date (lit desc) amount inc [] [] [] None None None.

Definition input_columns : list string :=
  ["Unnamed: 0"; "user_id"; "made_on"; "original_description"; "amount_cents";
   "income"]%string.

(** Scenario A: three payments, 31 days apart. *)
Definition scenario_A : DataFrame :=
  mkDF input_columns
    [ transaction 0 18262 "SPOTIFY 01 JAN" 999 false;
      transaction 1 18293 "SPOTIFY 01 FEB" 999 false;
      transaction 2 18324 "SPOTIFY 03 MAR" 999 false ].

(** A single payment: its delta is undefined, and so is every delta of the
    table. *)
Definition one_payment : DataFrame :=
  mkDF input_columns [ transaction 0 18262 "NETFLIX 01 JAN" 799 false ].

(** A group whose last three deltas are 21, 21 and 28: the mean is 70/3 and
    28 lies on the upper bound of the exact band; the upper bound computed
    in doubles is [27.999999999999996], and the group is refused. *)
Definition on_the_bound : DataFrame :=
  mkDF ["daydelta_int"%string]
    (map (fun c => mkRow 0 0 [] 0 false [] [] [] None c None)
       [None; Some 21; Some 21; Some 28]%Z).

(** Four monthly payments of [2^53 + 1] cents, an integer that is not a
    double. *)
Definition large_payments : DataFrame :=
  mkDF input_columns
    [ transaction 0 18262 "LEASE 01 JAN" 9007199254740993 false;
      transaction 1 18293 "LEASE 01 FEB" 9007199254740993 false;
      transaction 2 18322 "LEASE 01 MAR" 9007199254740993 false;
      transaction 3 18353 "LEASE 01 APR" 9007199254740993 false ].

(** Two payments, 30 days apart. *)
Definition two_payments : DataFrame :=
  mkDF input_columns
    [ transaction 0 18262 "NETFLIX 01 JAN" 799 false;
      transaction 1 18292 "NETFLIX 31 JAN" 799 false ].

(** Four payments: gaps of 31, 31 and 30 days. *)
Definition four_payments : DataFrame :=
  mkDF input_columns
    [ transaction 0 18262 "SPOTIFY 01 JAN" 999 false;
      transaction 1 18293 "SPOTIFY 01 FEB" 999 false;
      transaction 2 18324 "SPOTIFY 03 MAR" 1499 false;
      transaction 3 18354 "SPOTIFY 02 APR" 1499 false ].

Definition frame_of (r : result DataFrame) : DataFrame :=
  match r with
  | Ok df => df
  | Raise _ => mkDF [] []
  end.

(** A subscription of four payments among two other transactions. *)
Definition mixed_payments : DataFrame :=
  mkDF input_columns
    [ transaction 0 18262 "SPOTIFY 01 JAN" 999 false;
      transaction 1 18270 "TESCO STORES 09 JAN" 2350 false;
      transaction 2 18293 "SPOTIFY 01 FEB" 999 false;
      transaction 3 18324 "SPOTIFY 03 MAR" 1499 false;
      transaction 4 18330 "SALARY ACME LTD" 250000 true;
      transaction 5 18354 "SPOTIFY 02 APR" 1500 false ].

(** Descriptions that are nothing but noise, among others. *)
Definition blank_payments : DataFrame :=
  mkDF input_columns
    [ transaction 0 18262 "03" 500 false;
      transaction 1 18263 "TESCO" 1200 false;
      transaction 2 18270 "" 700 false;
      transaction 3 18271 "JAN" 900 true;
      transaction 4 18272 "03 JAN" 450 false ].

(** The group of [kw] as [calculate_recurring] sees it. *)
Definition group_after_daydelta {SV : SortValues} (df : DataFrame) (kw : str)
  : result DataFrame :=
  df <- clean_dataframe df ;;
  df <- clean_description df ;;
  df <- calculate_daydelta df ;;
  get_subdf df kw.

(** ** Notions used in the statements *)

(** The table handed to the driver: two leading columns that are dropped,
    the four columns the pipeline reads, and none of the columns it
    creates by assignment through [.loc]. *)
Definition well_formed_input (df : DataFrame) : bool :=
  let kept := mkDF (skipn 2 (columns df)) (rows df) in
  has_column df "made_on" && has_column kept "made_on" &&
  has_column kept "original_description" && has_column kept "amount_cents" &&
  has_column kept "income" &&
  negb (has_column kept "daydelta") && negb (has_column kept "recurring").

(** The steps of the driver before [calculate_recurring]. *)
Definition up_to_daydelta {SV : SortValues} (df : DataFrame)
  : result DataFrame :=
  df <- clean_dataframe df ;;
  df <- clean_description df ;;
  calculate_daydelta df.

(** A table with header and no rows. *)
Definition no_transactions : DataFrame := mkDF input_columns [].

(** The mean of the amounts of all the rows of keyword [kw]. *)
Definition mean_amount (df : DataFrame) (kw : str) : Q :=
  average
    (map amount_cents (filter (fun r => Text.eqb (keyword r) kw) (rows df))).

Definition rounded_mean_amount (df : DataFrame) (kw : str) : Z :=
  round_half_even (mean_amount df kw).

(** The amounts of the rows of keyword [kw] are few and small enough for
    doubles to add them without rounding: their number and their absolute
    values add up to at most [2^50]. *)
Definition small_amounts (df : DataFrame) (kw : str) : Prop :=
  let amounts :=
    map amount_cents (filter (fun r => Text.eqb (keyword r) kw) (rows df)) in
  (Z.of_nat (List.length amounts) + sum (map Z.abs amounts) <= 2 ^ 50)%Z.

(** [z] is an integer nearest to [q]. *)
Definition nearest_integer (q : Q) (z : Z) : Prop :=
  (Qabs (q - inject_Z z) <= 1 # 2)%Q.

(** The columns [generate_output] reads. *)
Definition classified (df : DataFrame) : bool :=
  has_column df "recurring" && has_column df "keyword" &&
  has_column df "made_on" && has_column df "clean_desc" &&
  has_column df "income" && has_column df "daydelta_int" &&
  has_column df "amount_cents".

(** A text without whitespace. *)
Definition no_space (w : str) : Prop :=
  Forall (fun c => Text.is_space c = false) w.

(** A text empty or made of spaces only. *)
Definition blank (s : str) : Prop := Forall (fun c => c = " "%char) s.

(** A text made of word characters only. *)
Definition all_word (w : str) : Prop :=
  Forall (fun c => Text.is_word c = true) w.

(** The texts an alternative matches in full. *)
Definition accepts (a : Regex.alt) (w : str) : bool :=
  match a with
  | Regex.Digits2 => two_digits w
  | Regex.Lit v => Text.eqb v w
  end.

(** An alternative that matches words only. *)
Definition word_alt (a : Regex.alt) : Prop :=
  forall w, accepts a w = true -> w <> [] /\ all_word w.

(** An alternative that matches the apostrophe only. *)
Definition apostrophe_alt (a : Regex.alt) : Prop :=
  forall w, accepts a w = true -> w = ["'"%char].

Definition alt_kind (a : Regex.alt) : bool :=
  match a with
  | Regex.Digits2 => true
  | Regex.Lit v =>
      (negb (is_nil v) && forallb Text.is_word v) || Text.eqb v ["'"%char]
  end.

(** The character before the text that follows [x], [p] being the one
    before [x]. *)
Definition last_before (p : option ascii) (x : str) : option ascii :=
  fold_left (fun _ c => Some c) x p.

(** Row [j] of the frame has keyword [k] and an undefined ['daydelta']. *)
Definition undefined_at (s : DataFrame) (j : nat) (k : str) : Prop :=
  exists r, In r (rows s) /\ index r = j /\ keyword r = k /\ daydelta r = None.

(** The inner loop of [calculate_daydelta], over the rows of a group. *)
Definition write_back (sub_rows : list Row) (df : DataFrame) : DataFrame :=
  fold_left (fun df row => loc_set_daydelta df (index row) (daydelta row))
    sub_rows df.

(** What the loop of [calculate_daydelta] keeps true: the labels and
    keywords stay as they were, and every keyword already gone through has
    a row whose delta is undefined. *)
Definition daydelta_inv (rows0 : list Row) (done : list str) (s : DataFrame)
  : Prop :=
  has_column s "keyword" = true /\
  has_column s "made_on" = true /\
  map index (rows s) = map index rows0 /\
  map keyword (rows s) = map keyword rows0 /\
  forall k, In k done -> In k (map keyword rows0) ->
    exists j, undefined_at s j k.

(** ** Notions used in the further properties *)

(** The bounds [is_recurring] computes for the window [D], in doubles. *)
Definition lower_bound (D : list Z) (t : float) : float :=
  fmul (mean (map Some D)) (fsub (of_Z 1) t).

Definition upper_bound (D : list Z) (t : float) : float :=
  fmul (mean (map Some D)) (fadd (of_Z 1) t).

(** [d] lies between the two computed bounds, bounds included. *)
Definition in_float_band (D : list Z) (t : float) (d : Z) : Prop :=
  fle (lower_bound D t) (of_Z d) = true /\
  fle (of_Z d) (upper_bound D t) = true.

(** [d] lies inside the exact band, off its bounds. *)
Definition strictly_in_band (D : list Z) (t : Q) (d : Z) : Prop :=
  (average D * (1 - t) < inject_Z d /\ inject_Z d < average D * (1 + t))%Q.

(** The whole days a [Timedelta] can hold. *)
Definition timedelta_days (d : Z) : Prop := (-106752 <= d <= 106751)%Z.

(** The days from a date to a later one. *)
Definition day_count (d : Z) : Prop := (0 <= d <= 106751)%Z.

(** A finite tolerance, of magnitude [2^1000] at most. *)
Definition moderate (t : float) : Prop :=
  fle (Fin (- pow2 1000)) t = true /\ fle t (Fin (pow2 1000)) = true.

(** The cells of a column that are numbers are numbers of days. *)
Definition whole_days (P : Z -> Prop) (cells : list (option Z)) : Prop :=
  Forall (fun x => forall d, x = Some d -> P d) cells.

(** Every cell of the window of the last three is defined and lies, bounds
    included, between the bounds computed from the window. *)
Definition window_in_band (cells : list (option Z)) (t : float) : Prop :=
  let w := last_n 3 cells in
  Forall (fun x => exists d, x = Some d /\ in_float_band (dropna w) t d) w.

(** Days from the first date of the list to the last. *)
Definition span (dates : list Z) : Z :=
  match dates with
  | [] => 0%Z
  | d :: rest => (last rest d - d)%Z
  end.

Definition not_negative (x : option Z) : Prop :=
  forall d, x = Some d -> (0 <= d)%Z.

(** The cells of a row that the delta and marker columns do not touch. *)
Definition fixed_fields (r : Row)
  : nat * Z * str * Z * bool * str * str * str :=
  (index r, made_on r, original_description r, amount_cents r, income r,
   type_ r, clean_desc r, keyword r).

(** The cells of a row as they come in the input table. *)
Definition input_fields (r : Row) : nat * Z * str * Z * bool :=
  (index r, made_on r, original_description r, amount_cents r, income r).

(** The steps of the driver before [generate_output]. *)
Definition annotate {SV : SortValues} (df : DataFrame) : result DataFrame :=
  df <- up_to_daydelta df ;;
  calculate_recurring df.

(** Row [j] is the one row of keyword [k] whose delta is undefined. *)
Definition only_undefined_at (s : DataFrame) (j : nat) (k : str) : Prop :=
  undefined_at s j k /\
  forall r, In r (rows s) -> keyword r = k -> index r <> j ->
    daydelta r <> None.

(** Every row labelled [i] holds the delta [v]. *)
Definition delta_at (i : nat) (v : option Z) (s : DataFrame) : Prop :=
  forall r, In r (rows s) -> index r = i -> daydelta r = v.

(** What the loop of [calculate_daydelta] keeps true, in full: the other
    cells stay as they were, and every keyword already gone through has
    exactly one row whose delta is undefined. *)
Definition one_undefined_inv (rows0 : list Row) (done : list str)
  (s : DataFrame) : Prop :=
  map fixed_fields (rows s) = map fixed_fields rows0 /\
  forall k, In k done -> In k (map keyword rows0) ->
    has_column s "daydelta" = true /\ exists j, only_undefined_at s j k.

(** The tokens of the first description that every description contains. *)
Definition common_tokens (data : list str) : list str :=
  match data with
  | [] => []
  | first :: _ =>
      filter (fun w => forallb (fun desc => Text.contains w desc) data)
        (Text.split_ws first)
  end.

(** The columns of the input the pipeline reads after it has dropped the
    first two. *)
Definition needed_columns : list string :=
  ["made_on"; "original_description"; "amount_cents"; "income"]%string.

(** [df.drop(df.columns[:2], axis = 1)]: the labels of the columns being
    distinct (as [read_csv] makes them), dropping the labels of the first
    two columns drops those two columns. *)
Definition drop_first_two (df : DataFrame) : DataFrame :=
  mkDF (skipn 2 (columns df)) (rows df).

(** * Proofs *)

(** ** Powers of two *)

Lemma pow2_pos (e : Z) : 0 < pow2 e.
Proof. apply Qpower_0_lt. reflexivity. Qed.

Lemma pow2_add (a b : Z) : pow2 (a + b) == pow2 a * pow2 b.
Proof. apply Qpower_plus. discriminate. Qed.

Lemma pow2_succ (e : Z) : pow2 (e + 1) == 2 * pow2 e.
Proof. rewrite pow2_add. change (pow2 1) with 2. ring. Qed.

Lemma pow2_le (a b : Z) : (a <= b)%Z -> pow2 a <= pow2 b.
Proof. intros H. apply Qpower_le_compat_l; [exact H | discriminate]. Qed.

Lemma pow2_lt (a b : Z) : (a < b)%Z -> pow2 a < pow2 b.
Proof. intros H. apply Qpower_lt_compat_l; [exact H | reflexivity]. Qed.

Lemma pow2_lt_inv (a b : Z) : pow2 a < pow2 b -> (a < b)%Z.
Proof. intros H. apply (Qpower_lt_compat_l_inv 2); [exact H | reflexivity]. Qed.

Lemma pow2_Z (n : Z) : (0 <= n)%Z -> pow2 n == inject_Z (2 ^ n).
Proof. intros H. unfold pow2. now rewrite Zpower_Qpower. Qed.

Lemma inject_Z_le (a b : Z) : (a <= b)%Z -> inject_Z a <= inject_Z b.
Proof. intros H. now rewrite <- Zle_Qle. Qed.

Lemma inject_Z_lt (a b : Z) : (a < b)%Z -> inject_Z a < inject_Z b.
Proof. intros H. now rewrite <- Zlt_Qlt. Qed.

(** The integer logarithm brackets a positive rational between two
    consecutive powers of two. *)
Lemma ilog2_spec (q : Q) :
  0 < q -> pow2 (ilog2 q) <= q /\ q < pow2 (ilog2 q + 1).
Proof.
  intros Hq. destruct q as [n d].
  assert (Hn : (0 < n)%Z) by (unfold Qlt in Hq; cbn in Hq; lia).
  unfold ilog2. cbn [Qnum Qden].
  set (ln := Z.log2 n). set (ld := Z.log2 (Zpos d)).
  destruct (Z.log2_spec n Hn) as [Hn1 Hn2]. fold ln in Hn1, Hn2.
  destruct (Z.log2_spec (Zpos d) ltac:(lia)) as [Hd1 Hd2]. fold ld in Hd1, Hd2.
  assert (Hln : (0 <= ln)%Z) by apply Z.log2_nonneg.
  assert (Hld : (0 <= ld)%Z) by apply Z.log2_nonneg.
  pose proof (pow2_pos ln) as Pa. pose proof (pow2_pos ld) as Pb.
  assert (A1 : pow2 ln <= inject_Z n)
    by (rewrite pow2_Z by lia; now apply inject_Z_le).
  assert (A2 : inject_Z n < 2 * pow2 ln).
  { rewrite <- pow2_succ, pow2_Z by lia. apply inject_Z_lt.
    now rewrite <- Z.add_1_r in Hn2. }
  assert (B1 : pow2 ld <= inject_Z (Zpos d))
    by (rewrite pow2_Z by lia; now apply inject_Z_le).
  assert (B2 : inject_Z (Zpos d) < 2 * pow2 ld).
  { rewrite <- pow2_succ, pow2_Z by lia. apply inject_Z_lt.
    now rewrite <- Z.add_1_r in Hd2. }
  assert (Hd0 : 0 < inject_Z (Zpos d)) by reflexivity.
  assert (El : pow2 ln == pow2 (ln - ld) * pow2 ld).
  { rewrite <- pow2_add. now replace (ln - ld + ld)%Z with ln by lia. }
  pose proof (pow2_pos (ln - ld)) as Pl.
  assert (Hup : n # d < pow2 (ln - ld + 1)).
  { rewrite pow2_succ, Qmake_Qdiv. apply Qlt_shift_div_r; [exact Hd0|].
    nra. }
  assert (Hlo : pow2 (ln - ld - 1) <= n # d).
  { assert (E1 : pow2 (ln - ld) == 2 * pow2 (ln - ld - 1)).
    { rewrite <- pow2_succ. now replace (ln - ld - 1 + 1)%Z with (ln - ld)%Z by lia. }
    pose proof (pow2_pos (ln - ld - 1)) as Pl1.
    rewrite Qmake_Qdiv. apply Qle_shift_div_l; [exact Hd0|]. nra. }
  destruct (Qle_bool (pow2 (ln - ld)) (n # d)) eqn:E.
  - apply Qle_bool_iff in E. split; assumption.
  - split; [exact Hlo|].
    replace (ln - ld - 1 + 1)%Z with (ln - ld)%Z by lia.
    apply Qnot_le_lt. intros H. apply Qle_bool_iff in H. congruence.
Qed.

Lemma ilog2_unique (q : Q) (k : Z) :
  pow2 k <= q -> q < pow2 (k + 1) -> ilog2 q = k.
Proof.
  intros H1 H2.
  assert (Hq : 0 < q) by (pose proof (pow2_pos k); lra).
  destruct (ilog2_spec q Hq) as [S1 S2].
  assert (A : (k < ilog2 q + 1)%Z) by (apply pow2_lt_inv; lra).
  assert (B : (ilog2 q < k + 1)%Z) by (apply pow2_lt_inv; lra).
  lia.
Qed.

Lemma ilog2_le (q1 q2 : Q) : 0 < q1 -> q1 <= q2 -> (ilog2 q1 <= ilog2 q2)%Z.
Proof.
  intros H1 H12.
  destruct (ilog2_spec q1 H1) as [A1 A2].
  destruct (ilog2_spec q2 ltac:(lra)) as [B1 B2].
  assert (A : (ilog2 q1 < ilog2 q2 + 1)%Z) by (apply pow2_lt_inv; lra).
  lia.
Qed.

(** ** Rounding to the nearest integer *)

Lemma round_half_even_bounds (q : Q) :
  inject_Z (round_half_even q) - (1 # 2) <= q /\
  q <= inject_Z (round_half_even q) + (1 # 2).
Proof.
  destruct q as [n d]. unfold round_half_even. cbn [Qnum Qden].
  pose proof (Z.div_mod n (Zpos d) ltac:(lia)) as Hdm.
  pose proof (Z.mod_pos_bound n (Zpos d) ltac:(lia)) as Hb.
  set (f := (n / Zpos d)%Z) in *. set (r := (n mod Zpos d)%Z) in *.
  assert (Hf : forall z : Z,
             (2 * Z.abs (n - z * Zpos d) <= Zpos d)%Z ->
             inject_Z z - (1 # 2) <= n # d /\ n # d <= inject_Z z + (1 # 2)).
  { intros z Hz. unfold Qminus, Qplus, Qopp, inject_Z, Qle. cbn. lia. }
  destruct (2 * r <? Zpos d)%Z eqn:E1; [apply Hf; lia|].
  destruct (Zpos d <? 2 * r)%Z eqn:E2; [apply Hf; lia|].
  destruct (Z.even f); apply Hf; lia.
Qed.

(** At a half the even neighbour is taken. *)
Lemma round_half_even_tie (q : Q) (z : Z) :
  q == inject_Z z + (1 # 2) -> Z.even (round_half_even q) = true.
Proof.
  destruct q as [n d]. intros H.
  assert (E : (2 * n = (2 * z + 1) * Zpos d)%Z).
  { unfold Qeq, Qplus, inject_Z in H. cbn in H. lia. }
  unfold round_half_even. cbn [Qnum Qden].
  pose proof (Z.div_mod n (Zpos d) ltac:(lia)) as Hdm.
  pose proof (Z.mod_pos_bound n (Zpos d) ltac:(lia)) as Hb.
  set (f := (n / Zpos d)%Z) in *. set (r := (n mod Zpos d)%Z) in *.
  assert (Hfz : f = z) by nia.
  assert (Hr : (2 * r = Zpos d)%Z) by nia.
  destruct (2 * r <? Zpos d)%Z eqn:E1; [lia|].
  destruct (Zpos d <? 2 * r)%Z eqn:E2; [lia|].
  destruct (Z.even f) eqn:Ef; [exact Ef|].
  rewrite Z.even_add, Ef. reflexivity.
Qed.

Lemma round_half_even_le (q1 q2 : Q) :
  q1 <= q2 -> (round_half_even q1 <= round_half_even q2)%Z.
Proof.
  intros H.
  destruct (round_half_even_bounds q1) as [A1 A2].
  destruct (round_half_even_bounds q2) as [B1 B2].
  set (z1 := round_half_even q1) in *. set (z2 := round_half_even q2) in *.
  destruct (Z_le_gt_dec z1 z2) as [Hle|Hgt]; [exact Hle|exfalso].
  assert (Hz : (z2 + 1 <= z1)%Z) by lia.
  apply inject_Z_le in Hz. rewrite inject_Z_plus in Hz.
  change (inject_Z 1) with 1 in Hz.
  assert (E2 : q2 == inject_Z z2 + (1 # 2)) by lra.
  assert (E1 : q1 == inject_Z (z1 - 1) + (1 # 2)).
  { unfold Z.sub. rewrite inject_Z_plus, inject_Z_opp.
    change (inject_Z 1) with 1. lra. }
  pose proof (round_half_even_tie q1 _ E1) as Ev1.
  pose proof (round_half_even_tie q2 _ E2) as Ev2.
  fold z1 in Ev1. fold z2 in Ev2.
  assert (Ez : z1 = (z2 + 1)%Z).
  { assert (H0 : inject_Z z1 <= inject_Z (z2 + 1)).
    { rewrite inject_Z_plus. change (inject_Z 1) with 1. lra. }
    rewrite <- Zle_Qle in H0. lia. }
  rewrite Ez, Z.even_add, Ev2 in Ev1. discriminate.
Qed.

Lemma round_half_even_eq (q1 q2 : Q) :
  q1 == q2 -> round_half_even q1 = round_half_even q2.
Proof.
  intros H. apply Z.le_antisymm; apply round_half_even_le; lra.
Qed.

Lemma round_half_even_Z (z : Z) : round_half_even (inject_Z z) = z.
Proof.
  unfold round_half_even. cbn. rewrite Z.div_1_r, Z.mod_1_r. reflexivity.
Qed.

(** ** Rounding to a double *)

Lemma ilog2_eq (q1 q2 : Q) : 0 < q1 -> q1 == q2 -> ilog2 q1 = ilog2 q2.
Proof.
  intros H1 E. destruct (ilog2_spec q1 H1) as [A B].
  symmetry. apply ilog2_unique; lra.
Qed.

Lemma nearest_eq (q1 q2 : Q) : 0 < q1 -> q1 == q2 -> nearest q1 = nearest q2.
Proof.
  intros H1 E. unfold nearest, ulp_exponent.
  rewrite (ilog2_eq q1 q2 H1 E).
  set (e := Z.max (ilog2 q2 - 52) emin).
  rewrite (round_half_even_eq (q1 / pow2 e) (q2 / pow2 e)); [reflexivity|].
  now rewrite E.
Qed.

Lemma div_pow2 (q : Q) (e : Z) : q / pow2 e * pow2 e == q.
Proof. pose proof (pow2_pos e). field. lra. Qed.

(** The rounded value is within half a unit in the last place. *)
Lemma nearest_error (q : Q) :
  let e := ulp_exponent q in
  nearest q - pow2 e * (1 # 2) <= q /\ q <= nearest q + pow2 e * (1 # 2).
Proof.
  intros e. unfold nearest. fold e.
  destruct (round_half_even_bounds (q / pow2 e)) as [A B].
  pose proof (pow2_pos e) as P. pose proof (div_pow2 q e) as D.
  set (n := inject_Z (round_half_even (q / pow2 e))) in *.
  set (x := q / pow2 e) in *.
  split; nra.
Qed.

Lemma ulp_exponent_le (q1 q2 : Q) :
  0 < q1 -> q1 <= q2 -> (ulp_exponent q1 <= ulp_exponent q2)%Z.
Proof.
  intros H1 H. unfold ulp_exponent.
  pose proof (ilog2_le q1 q2 H1 H). lia.
Qed.

Lemma mantissa_bounds (q : Q) :
  0 < q ->
  let e := ulp_exponent q in
  let n := round_half_even (q / pow2 e) in
  (0 <= n <= 2 ^ 53)%Z /\ ((emin < e)%Z -> (2 ^ 52 <= n)%Z).
Proof.
  intros Hq e n.
  destruct (ilog2_spec q Hq) as [A B].
  pose proof (pow2_pos e) as P.
  assert (He : (ilog2 q - 52 <= e)%Z) by (unfold e, ulp_exponent; lia).
  assert (H53 : q / pow2 e <= inject_Z (2 ^ 53)).
  { rewrite <- pow2_Z by lia. apply Qle_shift_div_r; [exact P|].
    rewrite <- pow2_add.
    apply Qle_trans with (pow2 (ilog2 q + 1)); [lra|]. apply pow2_le. lia. }
  assert (H0 : inject_Z 0 <= q / pow2 e).
  { apply Qle_shift_div_l; [exact P|]. change (inject_Z 0) with 0. lra. }
  apply round_half_even_le in H53. apply round_half_even_le in H0.
  rewrite round_half_even_Z in H53, H0.
  split; [split; assumption|].
  intros Hn.
  assert (Ee : e = (ilog2 q - 52)%Z) by (unfold e, ulp_exponent in *; lia).
  assert (H52 : inject_Z (2 ^ 52) <= q / pow2 e).
  { rewrite <- pow2_Z by lia. apply Qle_shift_div_l; [exact P|].
    rewrite <- pow2_add. apply Qle_trans with (pow2 (ilog2 q)); [|lra].
    apply pow2_le. lia. }
  apply round_half_even_le in H52. now rewrite round_half_even_Z in H52.
Qed.

Lemma nearest_nonneg (q : Q) : 0 < q -> 0 <= nearest q.
Proof.
  intros Hq. destruct (mantissa_bounds q Hq) as [[H0 _] _].
  unfold nearest. pose proof (pow2_pos (ulp_exponent q)).
  apply Qmult_le_0_compat; [|lra]. now apply (inject_Z_le 0).
Qed.

(** Rounding is monotone. *)
Lemma nearest_le (q1 q2 : Q) : 0 < q1 -> q1 <= q2 -> nearest q1 <= nearest q2.
Proof.
  intros H1 H.
  pose proof (ulp_exponent_le q1 q2 H1 H) as He.
  destruct (mantissa_bounds q1 H1) as [[_ U1] _].
  destruct (mantissa_bounds q2 ltac:(lra)) as [[L2 _] N2].
  unfold nearest.
  set (e1 := ulp_exponent q1) in *. set (e2 := ulp_exponent q2) in *.
  set (n1 := round_half_even (q1 / pow2 e1)) in *.
  set (n2 := round_half_even (q2 / pow2 e2)) in *.
  pose proof (pow2_pos e1) as P1. pose proof (pow2_pos e2) as P2.
  destruct (Z.eq_dec e1 e2) as [E|E].
  - assert (Hn : (n1 <= n2)%Z).
    { unfold n1, n2. rewrite E. apply round_half_even_le.
      apply Qle_shift_div_l; [exact P2|]. rewrite div_pow2. exact H. }
    apply inject_Z_le in Hn. rewrite E. nra.
  - assert (Hlt : (e1 < e2)%Z) by lia.
    assert (Hmin : (emin < e2)%Z) by (unfold e1, ulp_exponent in Hlt; lia).
    specialize (N2 Hmin).
    apply Qle_trans with (pow2 (e1 + 53)).
    + rewrite pow2_add, Qmult_comm, (pow2_Z 53) by lia.
      apply inject_Z_le in U1. nra.
    + apply Qle_trans with (pow2 (e2 + 52)); [apply pow2_le; lia|].
      rewrite pow2_add, Qmult_comm, (pow2_Z 52) by lia.
      apply inject_Z_le in N2. nra.
Qed.

(** A rational that is a multiple of its own unit in the last place is
    kept. *)
Lemma nearest_multiple (q : Q) (k : Z) :
  q == inject_Z k * pow2 (ulp_exponent q) -> nearest q == q.
Proof.
  intros E. unfold nearest.
  set (e := ulp_exponent q) in *. pose proof (pow2_pos e) as P.
  rewrite (round_half_even_eq (q / pow2 e) (inject_Z k)).
  - rewrite round_half_even_Z. now symmetry.
  - rewrite E. field. lra.
Qed.

Lemma ilog2_scaled (m e : Z) :
  (0 < m)%Z -> ilog2 (inject_Z m * pow2 e) = (Z.log2 m + e)%Z.
Proof.
  intros Hm. destruct (Z.log2_spec m Hm) as [A B].
  pose proof (Z.log2_nonneg m) as Hl. pose proof (pow2_pos e) as P.
  apply ilog2_unique.
  - rewrite pow2_add, (pow2_Z (Z.log2 m)) by lia.
    apply inject_Z_le in A. nra.
  - replace (Z.log2 m + e + 1)%Z with (Z.succ (Z.log2 m) + e)%Z by lia.
    rewrite pow2_add, (pow2_Z (Z.succ (Z.log2 m))) by lia.
    apply inject_Z_lt in B. nra.
Qed.

(** A double is kept by rounding: a mantissa of at most 53 bits at an
    exponent that is not below the smallest. *)
Lemma nearest_exact (m e : Z) :
  (0 < m <= 2 ^ 53)%Z -> (emin <= e)%Z ->
  nearest (inject_Z m * pow2 e) == inject_Z m * pow2 e.
Proof.
  intros [Hm Hm53] He.
  set (q := inject_Z m * pow2 e).
  assert (El : ilog2 q = (Z.log2 m + e)%Z) by (apply ilog2_scaled; exact Hm).
  pose proof (Z.log2_nonneg m) as Hl.
  assert (Hl53 : (Z.log2 m <= 53)%Z).
  { apply Z.log2_le_mono in Hm53. now rewrite Z.log2_pow2 in Hm53 by lia. }
  destruct (Z.eq_dec (Z.log2 m) 53) as [E53|N53].
  - assert (Em : m = (2 ^ 53)%Z).
    { destruct (Z.log2_spec m Hm) as [A _]. rewrite E53 in A. lia. }
    apply (nearest_multiple q (2 ^ 52)).
    assert (Ee : ulp_exponent q = (e + 1)%Z).
    { unfold ulp_exponent. rewrite El, E53. lia. }
    rewrite Ee, pow2_succ. unfold q. rewrite Em.
    change (inject_Z (2 ^ 53)) with (2 * inject_Z (2 ^ 52)). ring.
  - set (e' := ulp_exponent q).
    assert (He' : (e' <= e)%Z) by (unfold e', ulp_exponent; rewrite El; lia).
    apply (nearest_multiple q (m * 2 ^ (e - e'))). fold e'.
    rewrite inject_Z_mult, <- (pow2_Z (e - e')) by lia.
    unfold q. rewrite <- Qmult_assoc, <- pow2_add.
    now replace (e - e' + e')%Z with e by lia.
Qed.

(** The relative error of rounding in the normal range is at most
    [2^-53]. *)
Lemma nearest_relative (q : Q) :
  pow2 (-1022) <= q ->
  q * (1 - pow2 (-53)) <= nearest q /\ nearest q <= q * (1 + pow2 (-53)).
Proof.
  intros Hq. pose proof (pow2_pos (-1022)) as P0.
  assert (Hq0 : 0 < q) by lra.
  destruct (ilog2_spec q Hq0) as [A B].
  assert (Hl : (-1022 <= ilog2 q)%Z).
  { assert ((-1022 < ilog2 q + 1)%Z) by (apply pow2_lt_inv; lra). lia. }
  assert (Ee : ulp_exponent q = (ilog2 q - 52)%Z)
    by (unfold ulp_exponent, emin; lia).
  destruct (nearest_error q) as [E1 E2]. rewrite Ee in E1, E2.
  assert (Eh : pow2 (ilog2 q - 52) * (1 # 2) == pow2 (ilog2 q) * pow2 (-53)).
  { replace (ilog2 q - 52)%Z with (ilog2 q + -53 + 1)%Z by lia.
    rewrite pow2_succ, pow2_add. ring. }
  rewrite Eh in E1, E2.
  pose proof (pow2_pos (-53)) as P53. pose proof (pow2_pos (ilog2 q)) as Pl.
  split; nra.
Qed.

(** ** Order and rounding on doubles *)

Lemma fle_Fin (x y : Q) : fle (Fin x) (Fin y) = true <-> x <= y.
Proof. apply Qle_bool_iff. Qed.

Lemma fle_fneg (a b : float) : fle (fneg a) (fneg b) = fle b a.
Proof.
  destruct a as [|[]|x], b as [|[]|y]; try reflexivity. cbn.
  destruct (Qle_bool y x) eqn:E.
  - apply Qle_bool_iff. apply Qle_bool_iff in E. lra.
  - destruct (Qle_bool (- x) (- y)) eqn:E'; [|reflexivity].
    apply Qle_bool_iff in E'.
    assert (H : y <= x) by lra. apply Qle_bool_iff in H. congruence.
Qed.

Lemma fle_trans (a b c : float) :
  fle a b = true -> fle b c = true -> fle a c = true.
Proof.
  destruct a as [|[]|x], b as [|[]|y], c as [|[]|z];
    cbn; try reflexivity; try discriminate.
  rewrite !Qle_bool_iff. lra.
Qed.

Lemma fle_refl (a : float) : a <> NaN -> fle a a = true.
Proof.
  destruct a as [|[]|x]; [contradiction|reflexivity|reflexivity|].
  intros _. apply Qle_bool_iff. lra.
Qed.

Lemma round_pos_cases (q : Q) :
  (pow2 1024 <= nearest q /\ round_pos q = Inf false) \/
  (nearest q < pow2 1024 /\ round_pos q = Fin (Qred (nearest q))).
Proof.
  unfold round_pos. destruct (Qle_bool (pow2 1024) (nearest q)) eqn:E.
  - left. split; [now apply Qle_bool_iff | reflexivity].
  - right. split; [|reflexivity].
    apply Qnot_le_lt. intros H. apply Qle_bool_iff in H. congruence.
Qed.

Lemma round_pos_le (q1 q2 : Q) :
  0 < q1 -> q1 <= q2 -> fle (round_pos q1) (round_pos q2) = true.
Proof.
  intros H1 H. pose proof (nearest_le q1 q2 H1 H) as Hn.
  destruct (round_pos_cases q1) as [[A1 E1]|[A1 E1]],
           (round_pos_cases q2) as [[A2 E2]|[A2 E2]];
    rewrite E1, E2; try reflexivity.
  - lra.
  - apply fle_Fin. rewrite !Qred_correct. exact Hn.
Qed.

Lemma round_pos_nonneg (q : Q) : 0 < q -> fle (Fin 0) (round_pos q) = true.
Proof.
  intros H. pose proof (nearest_nonneg q H) as Hn.
  destruct (round_pos_cases q) as [[_ E]|[_ E]]; rewrite E; [reflexivity|].
  apply fle_Fin. now rewrite Qred_correct.
Qed.

Lemma rnd_pos (q : Q) : 0 < q -> rnd q = round_pos q.
Proof.
  intros H. unfold rnd.
  destruct (Qcompare_spec q 0) as [E|E|E]; [lra | lra | reflexivity].
Qed.

Lemma rnd_neg (q : Q) : q < 0 -> rnd q = fneg (round_pos (- q)).
Proof.
  intros H. unfold rnd.
  destruct (Qcompare_spec q 0) as [E|E|E]; [lra | reflexivity | lra].
Qed.

Lemma rnd_zero (q : Q) : q == 0 -> rnd q = Fin 0.
Proof.
  intros H. unfold rnd.
  destruct (Qcompare_spec q 0) as [E|E|E]; [reflexivity | lra | lra].
Qed.

Lemma rnd_eq (q1 q2 : Q) : q1 == q2 -> rnd q1 = rnd q2.
Proof.
  intros E. destruct (Q_dec q1 0) as [[H|H]|H].
  - rewrite (rnd_neg q1 H), (rnd_neg q2) by lra. unfold round_pos.
    rewrite (nearest_eq (- q1) (- q2)); [reflexivity | lra | lra].
  - rewrite (rnd_pos q1 H), (rnd_pos q2) by lra. unfold round_pos.
    rewrite (nearest_eq q1 q2); [reflexivity | lra | lra].
  - rewrite (rnd_zero q1 H), (rnd_zero q2) by lra. reflexivity.
Qed.

Lemma rnd_not_NaN (q : Q) : rnd q <> NaN.
Proof.
  destruct (Q_dec q 0) as [[H|H]|H].
  - rewrite (rnd_neg q H).
    destruct (round_pos_cases (- q)) as [[_ E]|[_ E]]; rewrite E; discriminate.
  - rewrite (rnd_pos q H).
    destruct (round_pos_cases q) as [[_ E]|[_ E]]; rewrite E; discriminate.
  - rewrite (rnd_zero q H). discriminate.
Qed.

(** Rounding to a double is monotone, overflow to an infinity included. *)
Lemma rnd_le (q1 q2 : Q) : q1 <= q2 -> fle (rnd q1) (rnd q2) = true.
Proof.
  intros H.
  destruct (Q_dec q1 0) as [[H1|H1]|H1], (Q_dec q2 0) as [[H2|H2]|H2];
    try (exfalso; lra).
  - rewrite (rnd_neg q1 H1), (rnd_neg q2 H2), fle_fneg.
    apply round_pos_le; lra.
  - rewrite (rnd_neg q1 H1), (rnd_pos q2 H2).
    apply fle_trans with (Fin 0); [|now apply round_pos_nonneg].
    change (Fin 0) with (fneg (Fin 0)). rewrite fle_fneg.
    apply round_pos_nonneg. lra.
  - rewrite (rnd_neg q1 H1), (rnd_zero q2 H2).
    change (Fin 0) with (fneg (Fin 0)). rewrite fle_fneg.
    apply round_pos_nonneg. lra.
  - rewrite (rnd_pos q1 H1), (rnd_pos q2 H2). now apply round_pos_le.
  - rewrite (rnd_zero q1 H1), (rnd_pos q2 H2). now apply round_pos_nonneg.
  - rewrite (rnd_zero q1 H1), (rnd_zero q2 H2). reflexivity.
Qed.

(** A rational with a mantissa of at most 53 bits, in the range of the
    exponents, is a double: rounding returns it. *)
Lemma rnd_exact (m e : Z) :
  (Z.abs m <= 2 ^ 53)%Z -> (emin <= e <= 970)%Z ->
  exists v, rnd (inject_Z m * pow2 e) = Fin v /\ v == inject_Z m * pow2 e.
Proof.
  intros Hm He. pose proof (pow2_pos e) as P.
  assert (Pos : forall k, (0 < k <= 2 ^ 53)%Z ->
            round_pos (inject_Z k * pow2 e) =
            Fin (Qred (nearest (inject_Z k * pow2 e))) /\
            nearest (inject_Z k * pow2 e) == inject_Z k * pow2 e).
  { intros k Hk. pose proof (nearest_exact k e Hk ltac:(lia)) as Ex.
    split; [|exact Ex].
    destruct (round_pos_cases (inject_Z k * pow2 e)) as [[A _]|[_ E]];
      [exfalso|exact E].
    rewrite Ex in A.
    assert (B : inject_Z k * pow2 e < pow2 1024).
    { apply Qle_lt_trans with (pow2 53 * pow2 e).
      - rewrite (pow2_Z 53) by lia.
        destruct Hk as [_ Hk]. apply inject_Z_le in Hk. nra.
      - rewrite <- pow2_add. apply pow2_lt. lia. }
    lra. }
  destruct (Z.lt_trichotomy m 0) as [Hn|[Hz|Hp]].
  - assert (Hq : inject_Z m * pow2 e < 0).
    { apply inject_Z_lt in Hn. change (inject_Z 0) with 0 in Hn. nra. }
    rewrite (rnd_neg _ Hq).
    destruct (Pos (- m)%Z ltac:(lia)) as [E Ex].
    assert (Eq : - (inject_Z m * pow2 e) == inject_Z (- m) * pow2 e)
      by (rewrite inject_Z_opp; ring).
    assert (Hq' : 0 < - (inject_Z m * pow2 e)) by lra.
    unfold round_pos. rewrite (nearest_eq _ _ Hq' Eq).
    unfold round_pos in E. rewrite E. cbn [fneg].
    eexists. split; [reflexivity|]. rewrite Qred_correct, Ex, inject_Z_opp. ring.
  - subst m. rewrite rnd_zero by (change (inject_Z 0) with 0; ring).
    exists 0. split; [reflexivity|]. change (inject_Z 0) with 0. ring.
  - assert (Hq : 0 < inject_Z m * pow2 e).
    { apply inject_Z_lt in Hp. change (inject_Z 0) with 0 in Hp. nra. }
    rewrite (rnd_pos _ Hq). destruct (Pos m ltac:(lia)) as [E Ex].
    rewrite E. eexists. split; [reflexivity|]. now rewrite Qred_correct.
Qed.

Lemma of_Z_exact (z : Z) :
  (Z.abs z <= 2 ^ 53)%Z -> exists v, of_Z z = Fin v /\ v == inject_Z z.
Proof.
  intros H. destruct (rnd_exact z 0 H ltac:(unfold emin; lia)) as [v [E Ev]].
  exists v. unfold of_Z. rewrite <- E. split.
  - apply rnd_eq. change (pow2 0) with 1. ring.
  - rewrite Ev. change (pow2 0) with 1. ring.
Qed.

(** In the normal range and away from overflow, rounding returns a double
    within the relative error [2^-53]. *)
Lemma rnd_relative (q : Q) :
  pow2 (-1022) <= q -> q <= pow2 1023 ->
  exists v, rnd q = Fin v /\
    q * (1 - pow2 (-53)) <= v /\ v <= q * (1 + pow2 (-53)).
Proof.
  intros H1 H2. pose proof (pow2_pos (-1022)) as P0.
  destruct (nearest_relative q H1) as [A B].
  rewrite (rnd_pos q ltac:(lra)).
  destruct (round_pos_cases q) as [[C _]|[_ E]].
  - exfalso.
    assert (D : q * (1 + pow2 (-53)) < pow2 1024).
    { change (pow2 1024) with (2 * pow2 1023).
      assert (pow2 (-53) < 1) by reflexivity. nra. }
    lra.
  - rewrite E. eexists. split; [reflexivity|]. rewrite Qred_correct. now split.
Qed.


(** ** The pipeline on the sample tables *)

Example remove_noise_tfl :
  clean_text (lit "TFL TRAVEL CH ON 03 APR CLP") = lit "tfl travel     ".
Proof. vm_compute. reflexivity. Qed.

(** ** The two sorting algorithms meet [SortValues] *)

Lemma insert_row_perm b x l : Permutation (x :: l) (insert_row b x l).
Proof.
  induction l as [|y l IH]; simpl.
  - reflexivity.
  - destruct (goes_before b x y).
    + reflexivity.
    + rewrite perm_swap. now apply perm_skip.
Qed.

Lemma insertion_sort_perm b l : Permutation l (insertion_sort b l).
Proof.
  induction l as [|x l IH]; simpl.
  - constructor.
  - rewrite <- insert_row_perm. now apply perm_skip.
Qed.

Lemma insert_row_sorted b x l :
  Sorted (fun a b => (made_on a <= made_on b)%Z) l ->
  Sorted (fun a b => (made_on a <= made_on b)%Z) (insert_row b x l).
Proof.
  induction l as [|y l IH]; simpl; intros Hs.
  - repeat constructor.
  - inversion Hs as [|? ? Hl Hhd]; subst.
    destruct (goes_before b x y) eqn:E; unfold goes_before in E.
    + constructor; [assumption|]. constructor. destruct b; lia.
    + constructor; [now apply IH|].
      destruct l as [|z l]; simpl.
      * constructor. destruct b; lia.
      * inversion Hhd; subst.
        destruct (goes_before b x z); constructor;
          [destruct b; lia | assumption].
Qed.

Lemma insertion_sort_sorted b l :
  Sorted (fun a b => (made_on a <= made_on b)%Z) (insertion_sort b l).
Proof.
  induction l as [|x l IH]; simpl.
  - constructor.
  - now apply insert_row_sorted.
Qed.

(** The order-keeping insertion sort (what numpy's quicksort does on short
    arrays). *)
Definition stable_sort : SortValues :=
  Build_SortValues (insertion_sort true)
    (insertion_sort_perm true) (insertion_sort_sorted true).

(** The subscription is found among the other transactions. *)
Example mixed_payments_summary :
  @get_recurring_transactions stable_sort mixed_payments =
  Ok [ mkSummary (lit "spotify") false (Fin 31) (Fin 1249) ].
Proof. vm_compute. reflexivity. Qed.

(** Rounding commutes with the change of sign. *)
Lemma rnd_opp (q : Q) (v : Q) : rnd q = Fin v -> exists v', rnd (- q) = Fin v' /\ v' == - v.
Proof.
  intros H. destruct (Q_dec q 0) as [[Hq|Hq]|Hq].
  - rewrite (rnd_neg q Hq) in H. rewrite (rnd_pos (- q)) by lra.
    destruct (round_pos (- q)) as [|s|w]; cbn in H; try discriminate.
    injection H as H. exists w. split; [reflexivity|]. rewrite <- H. ring.
  - rewrite (rnd_pos q Hq) in H. rewrite (rnd_neg (- q)) by lra.
    assert (E : - - q == q) by ring.
    unfold round_pos in *. rewrite (nearest_eq (- - q) q) by lra.
    destruct (Qle_bool (pow2 1024) (nearest q)); [discriminate|].
    injection H as H. cbn [fneg]. eexists. split; [reflexivity|].
    rewrite <- H. reflexivity.
  - rewrite (rnd_zero q Hq) in H. injection H as H.
    rewrite rnd_zero by lra. exists 0. split; [reflexivity|]. rewrite <- H. ring.
Qed.

(** The relative error of rounding, whatever the sign. *)
Lemma rnd_relative_abs (q : Q) :
  pow2 (-1022) <= Qabs q -> Qabs q <= pow2 1023 ->
  exists v, rnd q = Fin v /\ Qabs (v - q) <= Qabs q * pow2 (-53).
Proof.
  intros H1 H2. pose proof (pow2_pos (-1022)) as P0.
  destruct (Qlt_le_dec q 0) as [Hq|Hq].
  - rewrite (Qabs_neg q) in H1, H2 by lra.
    destruct (rnd_relative (- q) H1 H2) as [v [E [A B]]].
    destruct (rnd_opp (- q) v E) as [v' [E' Ev]].
    rewrite (rnd_eq (- - q) q) in E' by ring.
    exists v'. split; [exact E'|]. rewrite (Qabs_neg q) by lra.
    change (pow2 (-53)) with (1 # 9007199254740992) in *.
    apply Qabs_Qle_condition. split; lra.
  - rewrite (Qabs_pos q) in H1, H2 by lra.
    destruct (rnd_relative q H1 H2) as [v [E [A B]]].
    exists v. split; [exact E|]. rewrite (Qabs_pos q) by lra.
    change (pow2 (-53)) with (1 # 9007199254740992) in *.
    apply Qabs_Qle_condition. split; lra.
Qed.

Lemma round_half_even_inside (q : Q) (k : Z) :
  inject_Z k - (1 # 2) < q -> q < inject_Z k + (1 # 2) ->
  round_half_even q = k.
Proof.
  intros H1 H2. destruct (round_half_even_bounds q) as [A B].
  set (z := round_half_even q) in *.
  assert (L : inject_Z z < inject_Z (k + 1)).
  { rewrite inject_Z_plus. change (inject_Z 1) with 1. lra. }
  assert (U : inject_Z (k - 1) < inject_Z z).
  { unfold Z.sub. rewrite inject_Z_plus, inject_Z_opp.
    change (inject_Z 1) with 1. lra. }
  rewrite <- Zlt_Qlt in L, U. lia.
Qed.

Lemma positive_integer (z : Z) : 0 < inject_Z z -> 1 <= inject_Z z.
Proof.
  intros H. change 0 with (inject_Z 0) in H. rewrite <- Zlt_Qlt in H.
  change 1 with (inject_Z 1). rewrite <- Zle_Qle. lia.
Qed.

(** The exact mean [S/n] of integers of moderate size and its double round
    to the same integer. *)
Lemma round_mean_exact (S n : Z) :
  (0 < n)%Z -> (n + Z.abs S <= 2 ^ 50)%Z ->
  exists v,
    rnd (inject_Z S / inject_Z n) = Fin v /\
    round_half_even v = round_half_even (inject_Z S / inject_Z n).
Proof.
  intros Hn Hb.
  set (Sq := inject_Z S). set (nq := inject_Z n). set (x := Sq / nq).
  assert (Hnq : 1 <= nq).
  { unfold nq. change 1 with (inject_Z 1). rewrite <- Zle_Qle. lia. }
  assert (Ex : x * nq == Sq) by (unfold x; field; lra).
  assert (HnB : nq <= 1125899906842624).
  { unfold nq. change 1125899906842624 with (inject_Z (2 ^ 50)).
    rewrite <- Zle_Qle. lia. }
  assert (HSB : Qabs Sq <= 1125899906842624).
  { unfold Sq. change (Qabs (inject_Z S)) with (inject_Z (Z.abs S)).
    change 1125899906842624 with (inject_Z (2 ^ 50)).
    rewrite <- Zle_Qle. lia. }
  assert (Eabs : Qabs x * nq == Qabs Sq).
  { rewrite <- Ex, Qabs_Qmult, (Qabs_pos nq) by lra. reflexivity. }
  pose proof (Qabs_nonneg x) as Hx0.
  destruct (Z.eq_dec S 0) as [S0|S0].
  { exists 0. assert (E0 : x == 0).
    { unfold x, Sq. rewrite S0. change (inject_Z 0) with 0. field. lra. }
    split; [now apply rnd_zero | now apply round_half_even_eq]. }
  assert (HS1 : 1 <= Qabs Sq).
  { unfold Sq. change (Qabs (inject_Z S)) with (inject_Z (Z.abs S)).
    change 1 with (inject_Z 1). rewrite <- Zle_Qle. lia. }
  set (k := round_half_even x).
  destruct (round_half_even_bounds x) as [B1 B2]. fold k in B1, B2.
  set (kq := inject_Z k) in *.
  assert (Hxlo : (1 # 1125899906842624) <= Qabs x) by nra.
  assert (Hxhi : Qabs x <= 1125899906842624) by nra.
  assert (P1 : pow2 (-1022) <= 1 # 1125899906842624)
    by (vm_compute; discriminate).
  assert (P2 : 1125899906842624 <= pow2 1023) by (vm_compute; discriminate).
  destruct (rnd_relative_abs x ltac:(lra) ltac:(lra)) as [v [Ev Herr]].
  change (pow2 (-53)) with (1 # 9007199254740992) in Herr.
  apply Qabs_Qle_condition in Herr. destruct Herr as [E1 E2].
  exists v. split; [exact Ev|]. fold x k.
  set (d := Qabs x * (1 # 9007199254740992)) in *.
  assert (Hd : d * nq <= 1 # 8) by (unfold d; nra).
  assert (Hk : (Z.abs k <= 2 ^ 50 + 1)%Z).
  { assert (Hx : - (1125899906842624) <= x <= 1125899906842624).
    { apply Qabs_Qle_condition. exact Hxhi. }
    assert (A : inject_Z (- (2 ^ 50 + 1)) <= kq <= inject_Z (2 ^ 50 + 1)).
    { change (inject_Z (- (2 ^ 50 + 1))) with (- (1125899906842625)).
      change (inject_Z (2 ^ 50 + 1)) with 1125899906842625. lra. }
    unfold kq in A. rewrite <- !Zle_Qle in A. lia. }
  destruct (proj1 (Qle_lteq _ _) B1) as [L|L].
  2:{ (* a half below [k] *)
    assert (Eh : x == inject_Z (2 * k - 1) * pow2 (-1)).
    { unfold Z.sub. rewrite inject_Z_plus, inject_Z_mult, inject_Z_opp.
      fold kq. change (inject_Z 2) with 2. change (inject_Z 1) with 1.
      change (pow2 (-1)) with (1 # 2). lra. }
    destruct (rnd_exact (2 * k - 1) (-1) ltac:(lia) ltac:(unfold emin; lia))
      as [w [Ew Ewv]].
    rewrite <- (rnd_eq _ _ Eh) in Ew. rewrite Ev in Ew. injection Ew as Ew.
    apply round_half_even_eq. rewrite Ew, Ewv. now symmetry. }
  destruct (proj1 (Qle_lteq _ _) B2) as [U|U].
  2:{ (* a half above [k] *)
    assert (Eh : x == inject_Z (2 * k + 1) * pow2 (-1)).
    { rewrite inject_Z_plus, inject_Z_mult.
      fold kq. change (inject_Z 2) with 2. change (inject_Z 1) with 1.
      change (pow2 (-1)) with (1 # 2). lra. }
    destruct (rnd_exact (2 * k + 1) (-1) ltac:(lia) ltac:(unfold emin; lia))
      as [w [Ew Ewv]].
    rewrite <- (rnd_eq _ _ Eh) in Ew. rewrite Ev in Ew. injection Ew as Ew.
    apply round_half_even_eq. rewrite Ew, Ewv. now symmetry. }
  (* strictly between two halves: the distance to either is at least
     [1/(2n)], more than the rounding error *)
  assert (G1 : 1 <= (2 * kq + 1) * nq - 2 * Sq).
  { assert (G : 0 < inject_Z ((2 * k + 1) * n - 2 * S)).
    { unfold Z.sub. rewrite inject_Z_plus, inject_Z_opp, !inject_Z_mult,
        inject_Z_plus, inject_Z_mult.
      fold kq nq Sq. change (inject_Z 2) with 2. change (inject_Z 1) with 1.
      nra. }
    apply positive_integer in G.
    unfold Z.sub in G. rewrite inject_Z_plus, inject_Z_opp, !inject_Z_mult,
        inject_Z_plus, inject_Z_mult in G.
    fold kq nq Sq in G. change (inject_Z 2) with 2 in G.
    change (inject_Z 1) with 1 in G. lra. }
  assert (G2 : 1 <= 2 * Sq - (2 * kq - 1) * nq).
  { assert (G : 0 < inject_Z (2 * S - (2 * k - 1) * n)).
    { unfold Z.sub. rewrite !inject_Z_plus, !inject_Z_opp, !inject_Z_mult,
        inject_Z_plus, inject_Z_mult, inject_Z_opp.
      fold kq nq Sq. change (inject_Z 2) with 2. change (inject_Z 1) with 1.
      nra. }
    apply positive_integer in G.
    unfold Z.sub in G. rewrite !inject_Z_plus, !inject_Z_opp, !inject_Z_mult,
        inject_Z_plus, inject_Z_mult, inject_Z_opp in G.
    fold kq nq Sq in G. change (inject_Z 2) with 2 in G.
    change (inject_Z 1) with 1 in G. lra. }
  apply round_half_even_inside; fold kq.
  - apply (Qmult_lt_r _ _ nq); [lra|]. nra.
  - apply (Qmult_lt_r _ _ nq); [lra|]. nra.
Qed.

Lemma fle_between (a : float) (x y : Q) :
  fle (Fin x) a = true -> fle a (Fin y) = true ->
  exists v, a = Fin v /\ x <= v <= y.
Proof.
  destruct a as [|[]|v]; cbn; try discriminate.
  rewrite !Qle_bool_iff. intros H1 H2. exists v. now split.
Qed.

(** Between two integers that are doubles, rounding stays between them. *)
Lemma rnd_between (q : Q) (lo hi : Z) :
  (Z.abs lo <= 2 ^ 53)%Z -> (Z.abs hi <= 2 ^ 53)%Z ->
  inject_Z lo <= q <= inject_Z hi ->
  exists v, rnd q = Fin v /\ inject_Z lo <= v <= inject_Z hi.
Proof.
  intros Hlo Hhi [H1 H2].
  destruct (of_Z_exact lo Hlo) as [l [El Elv]].
  destruct (of_Z_exact hi Hhi) as [h [Eh Ehv]].
  pose proof (rnd_le _ _ H1) as L. pose proof (rnd_le _ _ H2) as U.
  fold (of_Z lo) in L. fold (of_Z hi) in U. rewrite El in L. rewrite Eh in U.
  destruct (fle_between _ _ _ L U) as [v [E [A B]]].
  exists v. split; [exact E|]. lra.
Qed.

(** Below [2^1023] in magnitude, rounding does not overflow. *)
Lemma rnd_finite (q : Q) :
  Qabs q <= pow2 1023 -> exists v, rnd q = Fin v.
Proof.
  intros H. apply Qabs_Qle_condition in H. destruct H as [H1 H2].
  destruct (rnd_exact (2 ^ 53) 970 ltac:(lia) ltac:(unfold emin; lia))
    as [h [Eh Ehv]].
  destruct (rnd_exact (- 2 ^ 53) 970 ltac:(lia) ltac:(unfold emin; lia))
    as [l [El Elv]].
  assert (E1 : inject_Z (2 ^ 53) * pow2 970 == pow2 1023)
    by (vm_compute; reflexivity).
  assert (E2 : inject_Z (- 2 ^ 53) * pow2 970 == - pow2 1023)
    by (vm_compute; reflexivity).
  rewrite (rnd_eq _ _ E1) in Eh. rewrite (rnd_eq _ _ E2) in El.
  pose proof (rnd_le _ _ H1) as L. pose proof (rnd_le _ _ H2) as U.
  rewrite El in L. rewrite Eh in U.
  destruct (fle_between _ _ _ L U) as [v [E _]]. now exists v.
Qed.

(** ** Sums and means in doubles *)

Lemma dropna_map_Some (l : list Z) : dropna (map Some l) = l.
Proof. induction l as [|x l IH]; simpl; [reflexivity | now rewrite IH]. Qed.

Lemma of_Z_one : of_Z 1 = Fin 1.
Proof. vm_compute. reflexivity. Qed.

Lemma sum_cons (x : Z) (l : list Z) : sum (x :: l) = (x + sum l)%Z.
Proof. reflexivity. Qed.

Lemma sum_abs_nonneg (l : list Z) : (0 <= sum (map Z.abs l))%Z.
Proof.
  induction l as [|x l IH]; [cbn; lia|].
  cbn [map]. rewrite sum_cons. lia.
Qed.

Lemma sum_abs_bound (l : list Z) : (Z.abs (sum l) <= sum (map Z.abs l))%Z.
Proof.
  induction l as [|x l IH]; [cbn; lia|].
  cbn [map]. rewrite !sum_cons. lia.
Qed.

(** Integers whose absolute values add up to at most [2^53] are added
    without rounding, in whatever order. *)
Lemma fold_fadd_exact (l : list Z) (a : Q) (A : Z) :
  a == inject_Z A ->
  (Z.abs A + sum (map Z.abs l) <= 2 ^ 53)%Z ->
  exists s,
    fold_left fadd (map of_Z l) (Fin a) = Fin s /\ s == inject_Z (A + sum l).
Proof.
  revert a A. induction l as [|x l IH]; intros a A Ea Hb.
  - exists a. split; [reflexivity|]. cbn. now rewrite Z.add_0_r.
  - cbn [map fold_left]. cbn [map] in Hb. rewrite sum_cons in *.
    pose proof (sum_abs_nonneg l) as Hl.
    destruct (of_Z_exact x ltac:(lia)) as [xv [Ex Exv]].
    rewrite Ex. cbn [fadd].
    assert (Eq : a + xv == inject_Z (A + x))
      by (rewrite inject_Z_plus, Ea, Exv; reflexivity).
    rewrite (rnd_eq _ _ Eq). fold (of_Z (A + x)).
    destruct (of_Z_exact (A + x) ltac:(lia)) as [sv [Es Esv]].
    rewrite Es.
    destruct (IH sv (A + x)%Z Esv ltac:(lia)) as [s [E1 E2]].
    exists s. split; [exact E1|]. rewrite E2.
    now replace (A + x + sum l)%Z with (A + (x + sum l))%Z by lia.
Qed.

Lemma fsum_exact (l : list Z) :
  (sum (map Z.abs l) <= 2 ^ 53)%Z ->
  exists s, fsum (map of_Z l) = Fin s /\ s == inject_Z (sum l).
Proof.
  intros H. unfold fsum.
  apply (fold_fadd_exact l 0 0%Z); [reflexivity | cbn; lia].
Qed.

(** The mean of such integers is their exact average, rounded once. *)
Lemma mean_exact (l : list Z) :
  l <> [] ->
  (sum (map Z.abs l) <= 2 ^ 53)%Z ->
  mean (map Some l) = rnd (average l).
Proof.
  intros Hne Hb. unfold mean. rewrite dropna_map_Some.
  destruct l as [|x l]; [contradiction|].
  destruct (fsum_exact (x :: l) Hb) as [s [Es Ev]]. rewrite Es.
  cbn [fdiv_count]. apply rnd_eq. unfold average.
  rewrite Ev, Qmake_Qdiv. reflexivity.
Qed.

(** ** Facts about the classifier *)

Lemma in_bandb_iff D t d : in_bandb D t d = true <-> in_band D t d.
Proof.
  unfold in_bandb, in_band.
  rewrite andb_true_iff, !Qle_bool_iff. reflexivity.
Qed.

Lemma last_n_all {A : Type} (n : nat) (l : list A) :
  (List.length l <= n)%nat -> last_n n l = l.
Proof.
  intros H. unfold last_n.
  replace (List.length l - n)%nat with 0%nat by lia. reflexivity.
Qed.

Lemma last_n_cons {A : Type} (n : nat) (x : A) (l : list A) :
  (n <= List.length l)%nat -> last_n n (x :: l) = last_n n l.
Proof.
  intros H. unfold last_n. simpl List.length.
  replace (S (List.length l) - n)%nat with (S (List.length l - n)) by lia.
  reflexivity.
Qed.

Lemma last_n_map {A B : Type} (f : A -> B) (n : nat) (l : list A) :
  last_n n (map f l) = map f (last_n n l).
Proof. unfold last_n. now rewrite length_map, skipn_map. Qed.

Lemma last_n_length {A : Type} (n : nat) (l : list A) :
  (n <= List.length l)%nat -> List.length (last_n n l) = n.
Proof. intros H. unfold last_n. rewrite length_skipn. lia. Qed.

Lemma last_n_short {A : Type} (n : nat) (l : list A) :
  (List.length (last_n n l) <= n)%nat.
Proof. unfold last_n. rewrite length_skipn. lia. Qed.

Lemma forallb_map_pre {A B : Type} (f : A -> B) (p : B -> bool) (l : list A) :
  forallb p (map f l) = forallb (fun x => p (f x)) l.
Proof. induction l as [|x l IH]; simpl; [reflexivity | now rewrite IH]. Qed.

Lemma fle_NaN_r (a : float) : fle a NaN = false.
Proof. destruct a as [|[]|x]; reflexivity. Qed.

(** A window that holds an undefined cell is never within tolerance. *)
Lemma within_tolerance_NaN (cells : list (option Z)) (t : float) :
  In None (last_n 3 cells) -> within_tolerance cells t = false.
Proof.
  intros H. unfold within_tolerance.
  apply not_true_is_false. intros Hall.
  rewrite forallb_forall in Hall. specialize (Hall None H).
  cbn [of_cell] in Hall. rewrite fle_NaN_r in Hall. discriminate.
Qed.

Lemma within_tolerance_defined (D : list Z) (t : float) :
  within_tolerance (map Some D) t = true <->
  Forall (in_float_band (last_n 3 D) t) (last_n 3 D).
Proof.
  unfold within_tolerance. rewrite last_n_map, forallb_map_pre.
  rewrite forallb_forall, Forall_forall.
  split; intros H x Hx; specialize (H x Hx).
  - apply andb_true_iff in H. exact H.
  - apply andb_true_iff. exact H.
Qed.

(** ** The default tolerance *)

Lemma default_lower_factor :
  fsub (of_Z 1) default_tolerance =
  Fin (3602879701896397 # 4503599627370496).
Proof. vm_compute. reflexivity. Qed.

Lemma default_upper_factor :
  fadd (of_Z 1) default_tolerance =
  Fin (5404319552844595 # 4503599627370496).
Proof. vm_compute. reflexivity. Qed.

(** Rounding a rational of moderate size. *)
Lemma rnd_moderate (q : Q) :
  (1 # 8) <= q -> q <= 1073741824 ->
  exists v, rnd q = Fin v /\
    q * (1 - (1 # 9007199254740992)) <= v /\
    v <= q * (1 + (1 # 9007199254740992)).
Proof.
  intros H1 H2.
  assert (P1 : pow2 (-1022) <= 1 # 8) by (vm_compute; discriminate).
  assert (P2 : 1073741824 <= pow2 1023) by (vm_compute; discriminate).
  destruct (rnd_relative q ltac:(lra) ltac:(lra)) as [v [E [A B]]].
  exists v. split; [exact E|].
  change (pow2 (-53)) with (1 # 9007199254740992) in A, B. now split.
Qed.

(** At the default tolerance, for a mean [S/k] of at most three day counts:
    a day count strictly inside the exact band passes the test on doubles,
    and a day count that passes it lies in the exact band, bounds
    included. *)
Lemma default_band_core (S k d : Z) :
  (1 <= k <= 3)%Z -> (0 <= S <= 3 * 106751)%Z -> (0 <= d <= 106751)%Z ->
  let avg := rnd (inject_Z S / inject_Z k) in
  let lo := fmul avg (fsub (of_Z 1) default_tolerance) in
  let up := fmul avg (fadd (of_Z 1) default_tolerance) in
  ((4 * S < 5 * k * d < 6 * S)%Z ->
   fle lo (of_Z d) = true /\ fle (of_Z d) up = true) /\
  (fle lo (of_Z d) = true /\ fle (of_Z d) up = true ->
   (4 * S <= 5 * k * d <= 6 * S)%Z).
Proof.
  intros Hk HS Hd avg lo up.
  destruct (of_Z_exact d ltac:(lia)) as [dv [Ed Edv]].
  unfold lo, up. rewrite default_lower_factor, default_upper_factor, Ed.
  destruct (Z.eq_dec S 0) as [S0|S0].
  - assert (E0 : avg = Fin 0).
    { unfold avg. apply rnd_zero. rewrite S0. unfold Qdiv.
      change (inject_Z 0) with 0. ring. }
    rewrite E0. cbn [fmul]. rewrite !rnd_zero by ring.
    rewrite !fle_Fin. split; [lia|].
    intros [H1 H2].
    assert (Ed0 : inject_Z d == inject_Z 0)
      by (change (inject_Z 0) with 0; lra).
    apply (proj1 (inject_Z_injective d 0)) in Ed0.
    rewrite S0, Ed0, Z.mul_0_r. lia.
  - set (Sq := inject_Z S) in *. set (dq := inject_Z d) in *.
    assert (HSq : 1 <= Sq <= 320253).
    { unfold Sq. split.
      - change 1 with (inject_Z 1). apply inject_Z_le. lia.
      - change 320253 with (inject_Z 320253). apply inject_Z_le. lia. }
    assert (Hdq : 0 <= dq <= 106751).
    { unfold dq. split.
      - change 0 with (inject_Z 0). apply inject_Z_le. lia.
      - change 106751 with (inject_Z 106751). apply inject_Z_le. lia. }
    (* the integer facts, read in Q *)
    assert (Q1 : forall c e : Z,
               (c * S + e <= 5 * k * d)%Z ->
               inject_Z c * Sq + inject_Z e <= 5 * inject_Z k * dq).
    { intros c e H. apply inject_Z_le in H.
      rewrite inject_Z_plus, !inject_Z_mult in H. exact H. }
    assert (Q2 : forall c e : Z,
               (5 * k * d <= c * S + e)%Z ->
               5 * inject_Z k * dq <= inject_Z c * Sq + inject_Z e).
    { intros c e H. apply inject_Z_le in H.
      rewrite inject_Z_plus, !inject_Z_mult in H. exact H. }
    assert (Ek : k = 1%Z \/ k = 2%Z \/ k = 3%Z) by lia.
    set (A := Sq / inject_Z k) in *.
    assert (EA : A * inject_Z k == Sq).
    { unfold A. field. destruct Ek as [E|[E|E]]; subst k; discriminate. }
    assert (HA : (1 # 3) <= A <= 320253).
    { destruct Ek as [E|[E|E]]; subst k;
        [change (inject_Z 1) with 1 in EA
        |change (inject_Z 2) with 2 in EA
        |change (inject_Z 3) with 3 in EA]; lra. }
    destruct (rnd_moderate A ltac:(lra) ltac:(lra)) as [a [Ea [A1 A2]]].
    fold avg in Ea. rewrite Ea. cbn [fmul].
    destruct (rnd_moderate (a * (3602879701896397 # 4503599627370496))
                ltac:(lra) ltac:(lra)) as [l [El [L1 L2]]].
    destruct (rnd_moderate (a * (5404319552844595 # 4503599627370496))
                ltac:(lra) ltac:(lra)) as [u [Eu [U1 U2]]].
    rewrite El, Eu, !fle_Fin.
    split.
    + intros [H1 H2].
      pose proof (Q1 4%Z 1%Z ltac:(lia)) as G1.
      pose proof (Q2 6%Z (-1)%Z ltac:(lia)) as G2.
      change (inject_Z 4) with 4 in G1. change (inject_Z 1) with 1 in G1.
      change (inject_Z 6) with 6 in G2. change (inject_Z (-1)) with (- (1)) in G2.
      destruct Ek as [E|[E|E]]; subst k;
        [change (inject_Z 1) with 1 in EA, G1, G2
        |change (inject_Z 2) with 2 in EA, G1, G2
        |change (inject_Z 3) with 3 in EA, G1, G2]; split; lra.
    + intros [H1 H2].
      destruct (Z_le_gt_dec (4 * S) (5 * k * d)) as [B1|B1];
      destruct (Z_le_gt_dec (5 * k * d) (6 * S)) as [B2|B2];
        [lia|exfalso|exfalso|exfalso].
      * pose proof (Q1 6%Z 1%Z ltac:(lia)) as G.
        change (inject_Z 6) with 6 in G. change (inject_Z 1) with 1 in G.
        destruct Ek as [E|[E|E]]; subst k;
          [change (inject_Z 1) with 1 in EA, G
          |change (inject_Z 2) with 2 in EA, G
          |change (inject_Z 3) with 3 in EA, G]; lra.
      * pose proof (Q2 4%Z (-1)%Z ltac:(lia)) as G.
        change (inject_Z 4) with 4 in G. change (inject_Z (-1)) with (- (1)) in G.
        destruct Ek as [E|[E|E]]; subst k;
          [change (inject_Z 1) with 1 in EA, G
          |change (inject_Z 2) with 2 in EA, G
          |change (inject_Z 3) with 3 in EA, G]; lra.
      * lia.
Qed.

Lemma Zpos_of_nat (n : nat) : (0 < n)%nat -> Zpos (Pos.of_nat n) = Z.of_nat n.
Proof.
  intros H. destruct n as [|n]; [lia|].
  rewrite <- Pos.of_nat_succ, Zpos_P_of_succ_nat. lia.
Qed.

Lemma average_div (D : list Z) :
  D <> [] ->
  average D == inject_Z (sum D) / inject_Z (Z.of_nat (List.length D)).
Proof.
  intros H. unfold average. rewrite Qmake_Qdiv, Zpos_of_nat; [reflexivity|].
  destruct D; [contradiction | cbn; lia].
Qed.

Lemma day_counts_sum (D : list Z) :
  Forall day_count D ->
  sum (map Z.abs D) = sum D /\
  (0 <= sum D <= 106751 * Z.of_nat (List.length D))%Z.
Proof.
  induction 1 as [|x D [H0 H1] _ [IH1 IH2]]; [cbn; lia|].
  cbn [map List.length]. rewrite !sum_cons, IH1. split; lia.
Qed.

(** The exact band, read on integers. *)
Lemma exact_band_integers (S k d : Z) :
  (1 <= k <= 3)%Z ->
  let A := inject_Z S / inject_Z k in
  (A * (1 - (1 # 5)) < inject_Z d <-> (4 * S < 5 * k * d)%Z) /\
  (inject_Z d < A * (1 + (1 # 5)) <-> (5 * k * d < 6 * S)%Z) /\
  (A * (1 - (1 # 5)) <= inject_Z d <-> (4 * S <= 5 * k * d)%Z) /\
  (inject_Z d <= A * (1 + (1 # 5)) <-> (5 * k * d <= 6 * S)%Z).
Proof.
  intros Hk A.
  rewrite !Zlt_Qlt, !Zle_Qle, !inject_Z_mult.
  set (Sq := inject_Z S) in *. set (dq := inject_Z d).
  assert (Ek : k = 1%Z \/ k = 2%Z \/ k = 3%Z) by lia.
  assert (EA : A * inject_Z k == Sq).
  { unfold A. field. destruct Ek as [E|[E|E]]; subst k; discriminate. }
  change (inject_Z 4) with 4. change (inject_Z 5) with 5.
  change (inject_Z 6) with 6.
  destruct Ek as [E|[E|E]]; subst k;
    [change (inject_Z 1) with 1 in *
    |change (inject_Z 2) with 2 in *
    |change (inject_Z 3) with 3 in *];
    repeat split; intros; lra.
Qed.

(** The same for a window [D] of one to three day counts. *)
Lemma default_band_sandwich (D : list Z) (d : Z) :
  D <> [] -> (List.length D <= 3)%nat ->
  Forall day_count D -> day_count d ->
  (strictly_in_band D (1 # 5) d -> in_float_band D default_tolerance d) /\
  (in_float_band D default_tolerance d -> in_band D (1 # 5) d).
Proof.
  intros Hne Hlen HD Hd.
  destruct (day_counts_sum D HD) as [Habs Hsum].
  assert (Hk : (1 <= Z.of_nat (List.length D) <= 3)%Z).
  { destruct D; [contradiction | cbn [List.length] in *; lia]. }
  set (k := Z.of_nat (List.length D)) in *. set (S := sum D) in *.
  assert (Em : mean (map Some D) = rnd (inject_Z S / inject_Z k)).
  { rewrite mean_exact; [|exact Hne | rewrite Habs; lia].
    apply rnd_eq. now apply average_div. }
  destruct (default_band_core S k d Hk ltac:(lia) Hd) as [C1 C2].
  destruct (exact_band_integers S k d Hk) as [B1 [B2 [B3 B4]]].
  pose proof (average_div D Hne) as Ea. fold k S in Ea.
  unfold in_float_band, lower_bound, upper_bound, strictly_in_band, in_band.
  rewrite Em, Ea. split.
  - intros [H1 H2]. apply C1. split; [now apply B1 | now apply B2].
  - intros H. destruct (C2 H) as [H1 H2]. split; [now apply B3 | now apply B4].
Qed.

(** C1 (as amended).  A group of [n] transactions has the undefined delta of
    its first transaction followed by [n-1] defined deltas.  With at most two
    defined deltas ([n <= 3]) the window of the last three cells holds the
    undefined one and the group is not recurring; with three or more, the
    group is recurring exactly when each of the last three deltas lies,
    bounds included, between the two bounds as they are computed in
    doubles.  At the default tolerance and for day counts that is so as
    soon as each delta lies strictly inside the exact band around the mean,
    and only if each lies in the exact band, bounds included. *)
Theorem is_recurring_last_three (df : DataFrame) (t : float)
  (deltas : list Z) :
  has_column df "daydelta_int" = true ->
  map daydelta_int (rows df) = None :: map Some deltas ->
  exists b,
    is_recurring df t = Ok b /\
    ((List.length deltas <= 2)%nat -> b = false) /\
    ((3 <= List.length deltas)%nat ->
     let D := last_n 3 deltas in
     (b = true <-> Forall (in_float_band D t) D) /\
     (t = default_tolerance -> Forall day_count D ->
      (Forall (strictly_in_band D (1 # 5)) D -> b = true) /\
      (b = true -> Forall (in_band D (1 # 5)) D))).
Proof.
  intros Hcol Hcells.
  unfold is_recurring, column. rewrite Hcol, Hcells. cbn [bind].
  eexists. split; [reflexivity|]. split.
  - intros Hlen. apply within_tolerance_NaN.
    rewrite last_n_all by (simpl; rewrite length_map; lia).
    now left.
  - intros Hlen. cbv zeta. set (D := last_n 3 deltas).
    assert (Ew : within_tolerance (None :: map Some deltas) t =
                 within_tolerance (map Some deltas) t).
    { unfold within_tolerance.
      now rewrite last_n_cons by (rewrite length_map; lia). }
    rewrite Ew. pose proof (within_tolerance_defined deltas t) as Hiff.
    fold D in Hiff. split; [exact Hiff|].
    intros Et HD. subst t.
    assert (HlenD : List.length D = 3%nat) by (now apply last_n_length).
    assert (Hne : D <> []) by (intros E; rewrite E in HlenD; discriminate).
    rewrite Hiff, !Forall_forall. rewrite Forall_forall in HD.
    split; intros H d Hd;
      destruct (default_band_sandwich D d Hne ltac:(lia)
                  (proj2 (Forall_forall _ _) HD) (HD d Hd)) as [S1 S2].
    + apply S1, H, Hd.
    + apply S2, H, Hd.
Qed.

Lemma is_recurring_last_three_witness :
  let g := frame_of (@group_after_daydelta stable_sort four_payments
                       (lit "spotify debit")) in
  exists b,
    is_recurring g default_tolerance = Ok b /\
    ((List.length [31; 31; 30]%Z <= 2)%nat -> b = false) /\
    ((3 <= List.length [31; 31; 30]%Z)%nat ->
     let D := last_n 3 [31; 31; 30]%Z in
     (b = true <-> Forall (in_float_band D default_tolerance) D) /\
     (default_tolerance = default_tolerance -> Forall day_count D ->
      (Forall (strictly_in_band D (1 # 5)) D -> b = true) /\
      (b = true -> Forall (in_band D (1 # 5)) D))).
Proof.
  apply (is_recurring_last_three
           (frame_of (@group_after_daydelta stable_sort four_payments
                        (lit "spotify debit")))
           default_tolerance [31; 31; 30]%Z).
  - vm_compute. reflexivity.
  - vm_compute. reflexivity.
Defined.

(** C1 fails on scenario A: the two deltas [31, 31] are both within 20% of
    their mean, so the claim has the group recurring, and the code has
    not.  It fails again on a bound: with deltas 21, 21 and 28 every delta
    lies in the band, bounds included, and the code refuses the group. *)
Lemma scenario_A_not_recurring :
  (exists g,
     @group_after_daydelta stable_sort scenario_A (lit "spotify debit") = Ok g /\
     map daydelta_int (rows g) = [None; Some 31; Some 31]%Z /\
     spec_classify (map daydelta_int (rows g)) (1 # 5) = true /\
     is_recurring g default_tolerance = Ok false) /\
  (spec_classify (map daydelta_int (rows on_the_bound)) (1 # 5) = true /\
   upper_bound [21; 21; 28]%Z default_tolerance =
   Fin (7881299347898367 # 281474976710656) /\
   is_recurring on_the_bound default_tolerance = Ok false).
Proof.
  split.
  - eexists. split; [vm_compute; reflexivity|].
    split; [|split]; vm_compute; reflexivity.
  - split; [|split]; vm_compute; reflexivity.
Qed.

(** C2 fails on two payments 30 days apart: the group has one positive
    delta and the code classifies it not recurring. *)
Lemma two_payments_not_recurring :
  exists g,
    @group_after_daydelta stable_sort two_payments (lit "netflix debit") = Ok g /\
    List.length (rows g) = 2%nat /\
    map daydelta_int (rows g) = [None; Some 30%Z] /\
    spec_classify (map daydelta_int (rows g)) (1 # 5) = true /\
    is_recurring g default_tolerance = Ok false.
Proof.
  eexists. split; [vm_compute; reflexivity|].
  split; [|split; [|split]]; vm_compute; reflexivity.
Qed.

(** ** Columns *)

Lemma has_with_column (cols : list string) (c x : string) :
  existsb (String.eqb x) (with_column cols c) =
  existsb (String.eqb x) cols || String.eqb x c.
Proof.
  unfold with_column.
  destruct (existsb (String.eqb c) cols) eqn:E.
  - destruct (String.eqb x c) eqn:Exc.
    + apply String.eqb_eq in Exc. subst x. rewrite E. reflexivity.
    + now rewrite orb_false_r.
  - rewrite existsb_app. simpl. now rewrite orb_false_r.
Qed.

Lemma column_ok {A : Type} (df : DataFrame) (c : string) (get : Row -> A) :
  has_column df c = true -> column df c get = Ok (map get (rows df)).
Proof. intros H. unfold column. now rewrite H. Qed.

Lemma column_raise {A : Type} (df : DataFrame) (c : string) (get : Row -> A) :
  has_column df c = false -> column df c get = Raise (KeyError c).
Proof. intros H. unfold column. now rewrite H. Qed.

(** ** Loops *)



(** ** The steps before classification *)

Lemma clean_dataframe_ok (df : DataFrame) :
  well_formed_input df = true ->
  clean_dataframe df =
  Ok (mkDF (with_column (skipn 2 (columns df)) "type")
        (map (fun r => set_type (direction_label (income r)) r)
           (rows df))).
Proof.
  intros H. unfold well_formed_input in H.
  repeat (apply andb_true_iff in H; destruct H as [H ?]).
  unfold clean_dataframe.
  rewrite column_ok by assumption. cbn [bind].
  rewrite column_ok by assumption. reflexivity.
Qed.

Lemma clean_description_ok (df : DataFrame) :
  has_column df "original_description" = true ->
  has_column df "type" = true ->
  clean_description df =
  Ok (mkDF (with_column (with_column (columns df) "clean_desc") "keyword")
        (map (fun r => set_keyword (make_keyword (clean_desc r) (type_ r)) r)
           (map (fun r => set_clean_desc (clean_text (original_description r)) r)
              (rows df)))).
Proof.
  intros H1 H2. unfold clean_description.
  rewrite column_ok by assumption. cbn [bind].
  rewrite column_ok; [reflexivity|].
  unfold has_column in *. cbn [columns].
  rewrite has_with_column, H2. reflexivity.
Qed.

Lemma loc_set_daydelta_has (df : DataFrame) (i : nat) (v : option Z) (x : string) :
  has_column (loc_set_daydelta df i v) x =
  has_column df x || String.eqb x "daydelta".
Proof. unfold loc_set_daydelta, has_column. cbn [columns]. apply has_with_column. Qed.

Lemma fold_loc_set_daydelta_has (l : list Row) (df : DataFrame) (x : string) :
  has_column
    (fold_left (fun df row => loc_set_daydelta df (index row) (daydelta row)) l df) x =
  has_column df x ||
  (match l with [] => false | _ => true end && String.eqb x "daydelta").
Proof.
  revert df. induction l as [|r l IH]; intros df; simpl.
  - now rewrite orb_false_r.
  - rewrite IH, loc_set_daydelta_has.
    destruct (has_column df x), (String.eqb x "daydelta"), l; reflexivity.
Qed.

Section PipelineFacts.

Context {SV : SortValues}.

Lemma get_subdf_ok (df : DataFrame) (kw : str) :
  has_column df "keyword" = true ->
  has_column df "made_on" = true ->
  get_subdf df kw =
  Ok (mkDF (columns df)
        (sort_values (filter (fun r => Text.eqb (keyword r) kw) (rows df)))).
Proof.
  intros H1 H2. unfold get_subdf.
  rewrite column_ok by assumption. cbn [bind].
  rewrite column_ok by exact H2. reflexivity.
Qed.





Lemma calculate_daydelta_empty (df : DataFrame) :
  rows df = [] ->
  has_column df "keyword" = true ->
  has_column df "daydelta" = false ->
  calculate_daydelta df = Raise (KeyError "daydelta").
Proof.
  intros He Hk Hd. unfold calculate_daydelta.
  rewrite column_ok by assumption. cbn [bind].
  rewrite He. cbn [map unique for_each bind].
  now rewrite column_raise.
Qed.

End PipelineFacts.

(** The two cleaning steps succeed on a well-formed table. *)
Lemma clean_steps_ok (df : DataFrame) :
  well_formed_input df = true ->
  exists df2,
    (df1 <- clean_dataframe df ;; clean_description df1) = Ok df2 /\
    List.length (rows df2) = List.length (rows df) /\
    has_column df2 "keyword" = true /\
    has_column df2 "made_on" = true /\
    has_column df2 "daydelta" = false /\
    has_column df2 "recurring" = false.
Proof.
  intros H. rewrite (clean_dataframe_ok df H). cbn [bind].
  unfold well_formed_input in H.
  repeat (apply andb_true_iff in H; destruct H as [H ?]).
  repeat match goal with
         | Hn : negb _ = true |- _ => apply negb_true_iff in Hn
         end.
  unfold has_column in *. cbn [columns] in *.
  rewrite clean_description_ok.
  - eexists. split; [reflexivity|].
    unfold has_column. cbn [rows columns].
    rewrite !length_map, !has_with_column.
    repeat split; try reflexivity;
      repeat match goal with
             | Hc : existsb _ _ = _ |- _ => rewrite Hc
             end;
      simpl; rewrite ?orb_true_r, ?orb_false_r; reflexivity.
  - unfold has_column. cbn [columns]. rewrite has_with_column.
    apply orb_true_iff. now left.
  - unfold has_column. cbn [columns]. rewrite has_with_column.
    apply orb_true_r.
Qed.

Section Driver.

Context {SV : SortValues}.

(** C3 (the code at the failing input).  On a well-formed table without
    rows the loop of [calculate_daydelta] never runs, the ['daydelta']
    column is never created, and reading it raises. *)
Theorem empty_input_raises (df : DataFrame) :
  well_formed_input df = true ->
  rows df = [] ->
  get_recurring_transactions df = Raise (KeyError "daydelta").
Proof.
  intros Hwf Hempty.
  destruct (clean_steps_ok df Hwf) as [df2 [E2 [L2 [Hk [Hm [Hd Hr]]]]]].
  unfold get_recurring_transactions.
  destruct (clean_dataframe df) as [df1|e]; cbn [bind] in *; [|discriminate].
  rewrite E2. cbn [bind].
  rewrite calculate_daydelta_empty; [reflexivity | | assumption | assumption].
  rewrite Hempty in L2. destruct (rows df2); [reflexivity | discriminate].
Qed.


End Driver.

Lemma empty_input_raises_witness :
  @get_recurring_transactions stable_sort no_transactions =
  Raise (KeyError "daydelta").
Proof.
  apply (@empty_input_raises stable_sort no_transactions); reflexivity.
Defined.

Example one_payment_raises :
  @get_recurring_transactions stable_sort one_payment = Raise TypeError.
Proof. vm_compute. reflexivity. Qed.


(** ** Grouping *)

Lemma text_eqb_eq (a b : str) : Text.eqb a b = true <-> a = b.
Proof.
  unfold Text.eqb. destruct (list_eq_dec ascii_dec a b); split;
    intros; try assumption; try reflexivity; try discriminate; contradiction.
Qed.

Lemma text_eqb_refl (a : str) : Text.eqb a a = true.
Proof. now apply text_eqb_eq. Qed.

Lemma unique_In (x : str) (l : list str) : In x (unique l) <-> In x l.
Proof.
  induction l as [|y l IH]; simpl; [reflexivity|].
  rewrite filter_In, IH, negb_true_iff.
  split.
  - intros [H|[H _]]; [now left | now right].
  - intros [H|H]; [now left|].
    destruct (Text.eqb y x) eqn:E.
    + left. now apply text_eqb_eq.
    + right. now split.
Qed.

Lemma unique_NoDup (l : list str) : NoDup (unique l).
Proof.
  induction l as [|y l IH]; simpl; constructor.
  - rewrite filter_In. intros [_ H].
    now rewrite text_eqb_refl in H.
  - now apply NoDup_filter.
Qed.

Lemma filter_orb_disjoint {A : Type} (p q : A -> bool) (l : list A) :
  (forall x, p x && q x = false) ->
  Permutation (filter (fun x => p x || q x) l) (filter p l ++ filter q l).
Proof.
  intros Hd. induction l as [|x l IH]; simpl; [constructor|].
  specialize (Hd x).
  destruct (p x), (q x); simpl in *; try discriminate.
  - now apply perm_skip.
  - rewrite <- Permutation_middle. now apply perm_skip.
  - exact IH.
Qed.

Lemma filter_all {A : Type} (p : A -> bool) (l : list A) :
  (forall x, In x l -> p x = true) -> filter p l = l.
Proof.
  induction l as [|x l IH]; intros H; simpl; [reflexivity|].
  rewrite (H x) by (now left). f_equal. apply IH. intros y Hy. apply H. now right.
Qed.

(** Splitting a list by key: the classes of distinct keys, put end to end,
    hold the elements whose key is listed, each once. *)
Lemma classes_partition {A : Type} (key : A -> str) (ks : list str) (l : list A) :
  NoDup ks ->
  Permutation
    (List.concat (map (fun k => filter (fun r => Text.eqb (key r) k) l) ks))
    (filter (fun r => existsb (Text.eqb (key r)) ks) l).
Proof.
  intros Hnd. induction Hnd as [|k ks Hk Hnd IH]; simpl.
  - induction l as [|x l IHl]; simpl; [constructor | exact IHl].
  - rewrite IH. symmetry. apply filter_orb_disjoint.
    intros x. destruct (Text.eqb (key x) k) eqn:E; [|reflexivity].
    apply text_eqb_eq in E. subst k. simpl.
    apply not_true_is_false. intros Hex.
    apply existsb_exists in Hex. destruct Hex as [y [Hy Ey]].
    apply text_eqb_eq in Ey. subst y. contradiction.
Qed.

Lemma Permutation_concat_map {A B : Type} (f g : A -> list B) (l : list A) :
  (forall a, Permutation (f a) (g a)) ->
  Permutation (List.concat (map f l)) (List.concat (map g l)).
Proof.
  intros H. induction l as [|a l IH]; simpl; [constructor|].
  now apply Permutation_app.
Qed.

Section Grouper.

Context {SV : SortValues}.

Lemma map_m_get_subdf (df : DataFrame) (ks : list str) :
  has_column df "keyword" = true ->
  has_column df "made_on" = true ->
  map_m (get_subdf df) ks =
  Ok (map (fun kw =>
             mkDF (columns df)
               (sort_values
                  (filter (fun r => Text.eqb (keyword r) kw) (rows df)))) ks).
Proof.
  intros Hk Hm. induction ks as [|k ks IH]; simpl; [reflexivity|].
  rewrite get_subdf_ok by assumption. cbn [bind].
  rewrite IH. reflexivity.
Qed.

(** C5.  The groups of the distinct keywords partition the rows: put end
    to end they are a rearrangement of the input (every transaction
    occurs once over all groups), the keywords are distinct, and the
    group of a keyword is not empty and holds exactly the rows of that
    keyword. *)
Theorem groups_partition (df : DataFrame) :
  has_column df "keyword" = true ->
  has_column df "made_on" = true ->
  let keys := unique (map keyword (rows df)) in
  exists gs,
    groups df = Ok gs /\
    Permutation (List.concat (map rows gs)) (rows df) /\
    NoDup keys /\
    Forall2
      (fun kw g =>
         rows g <> [] /\
         forall r, In r (rows g) <-> In r (rows df) /\ keyword r = kw)
      keys gs.
Proof.
  intros Hk Hm keys. unfold groups.
  rewrite column_ok by assumption. cbn [bind]. fold keys.
  rewrite map_m_get_subdf by assumption.
  eexists. split; [reflexivity|].
  assert (Hnd : NoDup keys) by apply unique_NoDup.
  split; [|split; [exact Hnd|]].
  - rewrite map_map. cbn [rows].
    rewrite (Permutation_concat_map _
               (fun kw => filter (fun r => Text.eqb (keyword r) kw) (rows df)))
      by (intros kw; symmetry; apply sort_values_perm).
    rewrite classes_partition by exact Hnd.
    rewrite filter_all; [reflexivity|].
    intros r Hr. apply existsb_exists. exists (keyword r). split.
    + apply unique_In. now apply in_map.
    + apply text_eqb_refl.
  - assert (Hin : forall kw, In kw keys -> In kw (map keyword (rows df))).
    { intros kw H. now apply unique_In. }
    clear Hnd. induction keys as [|kw ks IH]; simpl; constructor.
    + assert (Hmem : forall r,
                 In r (sort_values
                         (filter (fun r => Text.eqb (keyword r) kw) (rows df)))
                 <-> In r (rows df) /\ keyword r = kw).
      { intros r. split.
        - intros H.
          apply (Permutation_in _ (Permutation_sym (sort_values_perm _))) in H.
          apply filter_In in H. destruct H as [H1 H2].
          split; [exact H1 | now apply text_eqb_eq].
        - intros [H1 H2].
          apply (Permutation_in _ (sort_values_perm _)).
          apply filter_In. split; [exact H1 | now apply text_eqb_eq]. }
      cbn [rows]. split; [|exact Hmem].
      pose proof (Hin kw (or_introl eq_refl)) as Hkw.
      apply in_map_iff in Hkw. destruct Hkw as [r [Er Hr]].
      intros E. assert (Hr' : In r []) by (rewrite <- E; apply Hmem; now split).
      exact Hr'.
    + apply IH. intros k Hk'. apply Hin. now right.
Qed.

(** The rows of a group are the rows of the keyword, rearranged in
    ascending date order. *)
Theorem get_subdf_sorted (df : DataFrame) (kw : str) (g : DataFrame) :
  get_subdf df kw = Ok g ->
  Sorted (fun a b => (made_on a <= made_on b)%Z) (rows g) /\
  Permutation (filter (fun r => Text.eqb (keyword r) kw) (rows df)) (rows g).
Proof.
  unfold get_subdf, column. intros H.
  destruct (has_column df "keyword"); cbn [bind] in H; [|discriminate].
  destruct (has_column _ "made_on"); cbn [bind] in H; [|discriminate].
  injection H as H. subst g. cbn [rows]. split.
  - apply sort_values_sorted.
  - apply sort_values_perm.
Qed.

End Grouper.

Lemma groups_partition_witness :
  let df := frame_of (df <- clean_dataframe mixed_payments ;; clean_description df) in
  let keys := unique (map keyword (rows df)) in
  exists gs,
    @groups stable_sort df = Ok gs /\
    Permutation (List.concat (map rows gs)) (rows df) /\
    NoDup keys /\
    Forall2
      (fun kw g =>
         rows g <> [] /\
         forall r, In r (rows g) <-> In r (rows df) /\ keyword r = kw)
      keys gs.
Proof.
  apply (@groups_partition stable_sort
           (frame_of (df <- clean_dataframe mixed_payments ;; clean_description df)));
    reflexivity.
Defined.

Lemma get_subdf_sorted_witness :
  let df := frame_of (df <- clean_dataframe mixed_payments ;; clean_description df) in
  let g := frame_of (@get_subdf stable_sort df (lit "spotify debit")) in
  Sorted (fun a b => (made_on a <= made_on b)%Z) (rows g) /\
  Permutation
    (filter (fun r => Text.eqb (keyword r) (lit "spotify debit")) (rows df))
    (rows g).
Proof.
  apply (@get_subdf_sorted stable_sort
           (frame_of (df <- clean_dataframe mixed_payments ;; clean_description df))
           (lit "spotify debit")).
  vm_compute. reflexivity.
Defined.

(** ** The summary *)

Lemma sum_perm (l l' : list Z) : Permutation l l' -> sum l = sum l'.
Proof.
  intros H. induction H; simpl; lia.
Qed.

Lemma average_perm (l l' : list Z) : Permutation l l' -> average l = average l'.
Proof.
  intros H. unfold average.
  now rewrite (sum_perm l l' H), (Permutation_length H).
Qed.

Lemma filter_perm {A : Type} (p : A -> bool) (l l' : list A) :
  Permutation l l' -> Permutation (filter p l) (filter p l').
Proof.
  intros H. induction H; simpl.
  - constructor.
  - destruct (p x); [now apply perm_skip | assumption].
  - destruct (p x), (p y); try reflexivity. apply perm_swap.
  - etransitivity; eassumption.
Qed.

Lemma round_half_even_nearest (q : Q) : nearest_integer q (round_half_even q).
Proof.
  unfold nearest_integer.
  destruct q as [n d]. unfold round_half_even. cbn [Qnum Qden].
  pose proof (Z.div_mod n (Zpos d) ltac:(lia)) as Hdm.
  pose proof (Z.mod_pos_bound n (Zpos d) ltac:(lia)) as Hb.
  set (f := (n / Zpos d)%Z) in *. set (r := (n mod Zpos d)%Z) in *.
  assert (Hf : forall z : Z,
             (2 * Z.abs (n - z * Zpos d) <= Zpos d)%Z ->
             (Qabs ((n # d) - inject_Z z) <= 1 # 2)%Q).
  { intros z Hz. unfold Qabs, Qminus, Qplus, Qopp, inject_Z, Qle. cbn.
    rewrite Pos.mul_1_r.
    replace (n * 1 + - z * Zpos d)%Z with (n - z * Zpos d)%Z by lia. lia. }
  destruct (2 * r <? Zpos d)%Z eqn:E1; [apply Hf; lia|].
  destruct (Zpos d <? 2 * r)%Z eqn:E2; [apply Hf; lia|].
  destruct (Z.even f); apply Hf; lia.
Qed.

Lemma for_each_collect {A B : Type} (P : A -> B -> Prop) (f : A -> result B)
  (l : list A) (acc : list B) :
  (forall a, In a l -> exists b, f a = Ok b /\ P a b) ->
  exists bs,
    for_each l acc (fun output a => b <- f a ;; Ok (output ++ [b])) =
    Ok (acc ++ bs) /\
    Forall2 P l bs.
Proof.
  revert acc. induction l as [|a l IH]; intros acc H; simpl.
  - exists []. rewrite app_nil_r. split; [reflexivity | constructor].
  - destruct (H a (or_introl eq_refl)) as [b [Eb Pb]].
    rewrite Eb. cbn [bind].
    destruct (IH (acc ++ [b])) as [bs [Ebs Fbs]].
    { intros a' Ha'. apply H. now right. }
    exists (b :: bs). rewrite Ebs, <- app_assoc. split; [reflexivity|].
    now constructor.
Qed.

Lemma for_each_collect_In {A B : Type} (f : A -> result B) (l : list A)
  (acc out : list B) :
  for_each l acc (fun output a => b <- f a ;; Ok (output ++ [b])) = Ok out ->
  (forall b, In b acc -> In b out) /\
  (forall a, In a l -> exists b, f a = Ok b /\ In b out).
Proof.
  revert acc. induction l as [|a l IH]; intros acc H; cbn [for_each] in H.
  - injection H as H. subst out. split; [auto | intros a []].
  - destruct (f a) as [b|e] eqn:Eb; cbn [bind] in H; [|discriminate].
    destruct (IH _ H) as [I1 I2]. split.
    + intros b' Hb'. apply I1, in_or_app. now left.
    + intros a' [Ea|Ha'].
      * subst a'. exists b. split; [exact Eb|].
        apply I1, in_or_app. right. now left.
      * now apply I2.
Qed.

Lemma sum_abs_perm (l l' : list Z) :
  Permutation l l' -> sum (map Z.abs l) = sum (map Z.abs l').
Proof. intros H. apply sum_perm. now apply Permutation_map. Qed.

(** The rounded mean of a column whose numbers are few and small: the
    exact average of the numbers, rounded to the nearest integer. *)
Lemma mean_round_exact (cells : list (option Z)) :
  dropna cells <> [] ->
  (Z.of_nat (List.length (dropna cells)) + sum (map Z.abs (dropna cells))
   <= 2 ^ 50)%Z ->
  mean_round cells =
  Ok (Fin (inject_Z (round_half_even (average (dropna cells))))).
Proof.
  intros Hne Hb. unfold mean_round.
  assert (Em : mean cells = mean (map Some (dropna cells))).
  { unfold mean. now rewrite dropna_map_Some. }
  set (D := dropna cells) in *.
  destruct D as [|x D'] eqn:ED; [contradiction|]. rewrite <- ED in *.
  f_equal. rewrite Em.
  pose proof (sum_abs_nonneg D) as Hs.
  rewrite mean_exact; [|exact Hne | lia].
  rewrite (rnd_eq _ _ (average_div D Hne)).
  pose proof (sum_abs_bound D) as Ha.
  destruct (round_mean_exact (sum D) (Z.of_nat (List.length D)))
    as [v [Ev Er]].
  { rewrite ED. cbn [List.length]. lia. }
  { lia. }
  rewrite Ev. cbn [fround]. rewrite Er. do 2 f_equal.
  apply round_half_even_eq. symmetry. now apply average_div.
Qed.

Lemma average_bounds (l : list Z) (lo hi : Z) :
  l <> [] ->
  (forall x, In x l -> (lo <= x <= hi)%Z) ->
  inject_Z lo <= average l <= inject_Z hi.
Proof.
  intros Hne H.
  assert (Hs : (lo * Z.of_nat (List.length l) <= sum l
                <= hi * Z.of_nat (List.length l))%Z).
  { clear Hne. induction l as [|x l IH]; [cbn; lia|].
    rewrite sum_cons. cbn [List.length].
    specialize (H x (or_introl eq_refl)) as Hx.
    specialize (IH (fun y Hy => H y (or_intror Hy))). lia. }
  assert (Hn : (0 < Z.of_nat (List.length l))%Z)
    by (destruct l; [contradiction | cbn; lia]).
  pose proof (average_div l Hne) as Ea.
  set (n := Z.of_nat (List.length l)) in *. set (S := sum l) in *.
  assert (Hnq : 0 < inject_Z n)
    by (change 0 with (inject_Z 0); now rewrite <- Zlt_Qlt).
  split.
  - rewrite Ea. apply Qle_shift_div_l; [exact Hnq|].
    rewrite <- inject_Z_mult, <- Zle_Qle. lia.
  - rewrite Ea. apply Qle_shift_div_r; [exact Hnq|].
    rewrite <- inject_Z_mult, <- Zle_Qle. lia.
Qed.

Lemma round_average_bounds (l : list Z) (lo hi : Z) :
  l <> [] ->
  (forall x, In x l -> (lo <= x <= hi)%Z) ->
  (lo <= round_half_even (average l) <= hi)%Z.
Proof.
  intros Hne H. destruct (average_bounds l lo hi Hne H) as [A B].
  apply round_half_even_le in A. apply round_half_even_le in B.
  rewrite round_half_even_Z in A, B. lia.
Qed.

Section Summaries.

Context {SV : SortValues}.

(** What a summary is made of. *)
Lemma summarise_fields (df : DataFrame) (kw : str) (s : Summary) :
  summarise df kw = Ok s ->
  let g := sort_values (filter (fun r => Text.eqb (keyword r) kw) (rows df)) in
  g <> [] /\
  mean_round (last_n 3 (map daydelta_int g)) = Ok (period_days s) /\
  mean_round (map Some (map amount_cents g)) = Ok (typical_amount_cents s).
Proof.
  unfold summarise, get_subdf, column. intros H.
  destruct (has_column df "keyword"); cbn [bind] in H; [|discriminate].
  destruct (has_column _ "made_on"); cbn [bind] in H; [|discriminate].
  destruct (has_column _ "clean_desc"); cbn [bind] in H; [|discriminate].
  cbn [rows] in H.
  set (g := sort_values (filter (fun r => Text.eqb (keyword r) kw) (rows df)))
    in *.
  destruct (find_entity_name _) as [name|e] eqn:En; cbn [bind] in H;
    [|discriminate].
  destruct (has_column _ "income"); cbn [bind] in H; [|discriminate].
  destruct (map income g) as [|inc incs] eqn:Ei; cbn [bind] in H;
    [discriminate|].
  destruct (has_column _ "daydelta_int"); cbn [bind] in H; [|discriminate].
  destruct (mean_round (last_n 3 (map daydelta_int g))) as [p|e] eqn:Ep;
    cbn [bind] in H; [|discriminate].
  destruct (has_column _ "amount_cents"); cbn [bind] in H; [|discriminate].
  destruct (mean_round (map Some (map amount_cents g))) as [a|e] eqn:Ea;
    cbn [bind] in H; [|discriminate].
  injection H as H. subst s. cbn [period_days typical_amount_cents].
  split; [|split; reflexivity].
  intros E. rewrite E in Ei. discriminate.
Qed.

Lemma summarise_typical (df : DataFrame) (kw : str) (s : Summary) :
  summarise df kw = Ok s ->
  small_amounts df kw ->
  typical_amount_cents s = Fin (inject_Z (rounded_mean_amount df kw)).
Proof.
  intros H Hsmall. destruct (summarise_fields df kw s H) as [Hne [_ Ht]].
  set (f := filter (fun r => Text.eqb (keyword r) kw) (rows df)) in *.
  assert (Hp : Permutation (map amount_cents f) (map amount_cents (sort_values f)))
    by (apply Permutation_map, sort_values_perm).
  unfold small_amounts in Hsmall. fold f in Hsmall. cbv zeta in Hsmall.
  rewrite mean_round_exact in Ht.
  - injection Ht as Ht. rewrite <- Ht, dropna_map_Some.
    unfold rounded_mean_amount, mean_amount. fold f.
    now rewrite (average_perm _ _ Hp).
  - rewrite dropna_map_Some. destruct (sort_values f); [contradiction|discriminate].
  - rewrite dropna_map_Some, <- (sum_abs_perm _ _ Hp),
      <- (Permutation_length Hp). exact Hsmall.
Qed.

End Summaries.

Section TypicalAmount.

Context {SV : SortValues}.

(** C6 (as amended).  When [generate_output] returns, every keyword with a
    row marked recurring has its summary in the list; in a summary
    [typical_amount_cents] is, for amounts that doubles add without
    rounding, the exact mean of [amount_cents] over all the rows of the
    keyword rounded to the nearest integer (halves to the even one); and the
    value is then the same for any rearrangement of the rows and any sorting
    algorithm. *)
Theorem typical_amount_is_rounded_mean (df : DataFrame)
  (out : list Summary) :
  generate_output df = Ok out ->
  (forall r, In r (rows df) -> recurring r = Some true ->
     exists s, In s out /\ summarise df (keyword r) = Ok s) /\
  (forall kw s,
     summarise df kw = Ok s -> small_amounts df kw ->
     typical_amount_cents s = Fin (inject_Z (rounded_mean_amount df kw)) /\
     nearest_integer (mean_amount df kw) (rounded_mean_amount df kw)) /\
  (forall (SV' : SortValues) (df' : DataFrame) (kw : str) (s s' : Summary),
     Permutation (rows df) (rows df') -> small_amounts df kw ->
     @summarise SV df kw = Ok s ->
     @summarise SV' df' kw = Ok s' ->
     typical_amount_cents s = typical_amount_cents s').
Proof.
  intros H. split; [|split].
  - intros r Hr Hm. unfold generate_output in H.
    destruct (get_recurring_keywords df) as [kws|e] eqn:Ek; cbn [bind] in H;
      [|discriminate].
    destruct (for_each_collect_In _ _ _ _ H) as [_ Hall].
    destruct (Hall (keyword r)) as [s [Es Hs]].
    + unfold get_recurring_keywords, column in Ek.
      destruct (has_column df "recurring"); cbn [bind] in Ek; [|discriminate].
      destruct (has_column _ "keyword"); cbn [bind] in Ek; [|discriminate].
      injection Ek as Ek. subst kws. cbn [rows].
      apply unique_In, in_map, filter_In. split; [exact Hr | now rewrite Hm].
    + exists s. now split.
  - intros kw s Hs Hsmall.
    split; [now apply summarise_typical | apply round_half_even_nearest].
  - intros SV' df' kw s s' Hperm Hsmall Es Es'.
    assert (Hp : Permutation
                   (map amount_cents
                      (filter (fun r => Text.eqb (keyword r) kw) (rows df)))
                   (map amount_cents
                      (filter (fun r => Text.eqb (keyword r) kw) (rows df'))))
      by (apply Permutation_map, filter_perm, Hperm).
    assert (Hsmall' : small_amounts df' kw).
    { unfold small_amounts in *. cbv zeta in *.
      now rewrite <- (sum_abs_perm _ _ Hp), <- (Permutation_length Hp). }
    rewrite (@summarise_typical SV df kw s Es Hsmall).
    rewrite (@summarise_typical SV' df' kw s' Es' Hsmall').
    unfold rounded_mean_amount, mean_amount.
    now rewrite (average_perm _ _ Hp).
Qed.

End TypicalAmount.

Lemma typical_amount_is_rounded_mean_witness :
  let df := frame_of (df <- @up_to_daydelta stable_sort mixed_payments ;;
                      @calculate_recurring stable_sort df) in
  let out := [ mkSummary (lit "spotify") false (Fin 31) (Fin 1249) ] in
  (forall r, In r (rows df) -> recurring r = Some true ->
     exists s, In s out /\ @summarise stable_sort df (keyword r) = Ok s) /\
  (forall kw s,
     @summarise stable_sort df kw = Ok s -> small_amounts df kw ->
     typical_amount_cents s = Fin (inject_Z (rounded_mean_amount df kw)) /\
     nearest_integer (mean_amount df kw) (rounded_mean_amount df kw)) /\
  (forall (SV' : SortValues) (df' : DataFrame) (kw : str) (s s' : Summary),
     Permutation (rows df) (rows df') -> small_amounts df kw ->
     @summarise stable_sort df kw = Ok s ->
     @summarise SV' df' kw = Ok s' ->
     typical_amount_cents s = typical_amount_cents s').
Proof.
  apply (@typical_amount_is_rounded_mean stable_sort
           (frame_of (df <- @up_to_daydelta stable_sort mixed_payments ;;
                      @calculate_recurring stable_sort df))).
  vm_compute. reflexivity.
Defined.

(** C6 fails on four payments of [2^53 + 1] cents: the group is recurring,
    the mean of its amounts is [2^53 + 1], and the summary has [2^53], the
    double that each amount becomes when the mean is taken. *)
Lemma large_amounts_rounded :
  let df := frame_of (df <- @up_to_daydelta stable_sort large_payments ;;
                      @calculate_recurring stable_sort df) in
  @get_recurring_transactions stable_sort large_payments =
  Ok [ mkSummary (lit "lease") false (Fin 30) (Fin 9007199254740992) ] /\
  Forall (fun r => recurring r = Some true) (rows df) /\
  rounded_mean_amount df (lit "lease debit") = 9007199254740993%Z.
Proof.
  split; [vm_compute; reflexivity|].
  split; [|vm_compute; reflexivity].
  vm_compute. repeat constructor.
Qed.

(** ** Entity names *)

Lemma prefix_app (w b : str) : Text.prefix w (w ++ b) = true.
Proof.
  induction w as [|c w IH]; simpl; [reflexivity|].
  now rewrite Ascii.eqb_refl, IH.
Qed.

Lemma contains_middle (a w b : str) : Text.contains w (a ++ w ++ b) = true.
Proof.
  induction a as [|c a IH].
  - simpl app. destruct (w ++ b) eqn:E; simpl.
    + destruct w; [reflexivity | discriminate].
    + rewrite <- E, prefix_app. reflexivity.
  - simpl. rewrite IH. apply orb_true_r.
Qed.

Lemma split_ws_from_words (s cur : str) :
  no_space cur ->
  Forall (fun w => w <> [] /\ no_space w) (Text.split_ws_from cur s).
Proof.
  revert cur. induction s as [|c s IH]; intros cur Hcur; simpl.
  - destruct cur; constructor; [|constructor]. split; [discriminate | assumption].
  - destruct (Text.is_space c) eqn:Ec.
    + destruct cur.
      * apply IH. constructor.
      * constructor; [split; [discriminate | assumption]|].
        apply IH. constructor.
    + apply IH. apply Forall_app. split; [assumption|]. now constructor.
Qed.

Lemma split_ws_from_inside (s cur w : str) :
  In w (Text.split_ws_from cur s) -> exists a b, cur ++ s = a ++ w ++ b.
Proof.
  revert cur. induction s as [|c s IH]; intros cur H; simpl in H.
  - destruct cur; [contradiction|]. destruct H as [H|[]]. subst w.
    exists [], []. now rewrite !app_nil_r.
  - destruct (Text.is_space c).
    + assert (Hrest : In w (Text.split_ws_from [] s) ->
                      exists a b, cur ++ c :: s = a ++ w ++ b).
      { intros Hw. destruct (IH [] Hw) as [a [b E]]. simpl in E.
        exists (cur ++ c :: a), b. rewrite E, <- app_assoc. reflexivity. }
      destruct cur; [now apply Hrest|].
      destruct H as [H|H]; [|now apply Hrest].
      subst w. exists [], (c :: s). reflexivity.
    + destruct (IH _ H) as [a [b E]]. exists a, b.
      rewrite <- E, <- app_assoc. reflexivity.
Qed.

Lemma split_ws_contained (d w : str) :
  In w (Text.split_ws d) -> Text.contains w d = true.
Proof.
  intros H. destruct (split_ws_from_inside d [] w H) as [a [b E]].
  simpl in E. rewrite E. apply contains_middle.
Qed.

(** The loop of [find_entity_name]: the kept words, each followed by a
    space. *)
Lemma common_words_fold (p : str -> bool) (ws : list str) (acc : str) :
  fold_left (fun acc word => if p word then acc ++ word ++ [" "%char] else acc)
    ws acc =
  acc ++ List.concat (map (fun w => w ++ [" "%char]) (filter p ws)).
Proof.
  revert acc. induction ws as [|w ws IH]; intros acc; simpl.
  - now rewrite app_nil_r.
  - destruct (p w); rewrite IH; [|reflexivity].
    simpl. now rewrite <- !app_assoc.
Qed.

Lemma words_then_space (ws : list str) :
  ws <> [] ->
  List.concat (map (fun w => w ++ [" "%char]) ws) =
  Text.join_space ws ++ [" "%char].
Proof.
  induction ws as [|w ws IH]; intros H; [contradiction|].
  destruct ws as [|w2 ws].
  - simpl. now rewrite app_nil_r.
  - change (List.concat (map (fun w => w ++ [" "%char]) (w :: w2 :: ws)))
      with ((w ++ [" "%char]) ++
            List.concat (map (fun w => w ++ [" "%char]) (w2 :: ws))).
    rewrite IH by discriminate.
    change (Text.join_space (w :: w2 :: ws))
      with (w ++ " "%char :: Text.join_space (w2 :: ws)).
    rewrite <- !app_assoc. reflexivity.
Qed.

Lemma lstrip_word_first (c : ascii) (s : str) :
  Text.is_space c = false -> Text.lstrip (c :: s) = c :: s.
Proof. intros H. simpl. now rewrite H. Qed.

Lemma join_space_first (ws : list str) :
  ws <> [] ->
  Forall (fun w => w <> [] /\ no_space w) ws ->
  exists c x, Text.join_space ws = c :: x /\ Text.is_space c = false.
Proof.
  intros Hne H. destruct ws as [|w ws]; [contradiction|].
  inversion H as [|? ? [Hw Hns] _]; subst.
  destruct w as [|c w]; [contradiction|].
  inversion Hns; subst.
  destruct ws; simpl; eauto.
Qed.

Lemma join_space_last (ws : list str) :
  ws <> [] ->
  Forall (fun w => w <> [] /\ no_space w) ws ->
  exists c x, rev (Text.join_space ws) = c :: x /\ Text.is_space c = false.
Proof.
  induction ws as [|w ws IH]; intros Hne H; [contradiction|].
  inversion H as [|? ? [Hw Hns] Hrest]; subst.
  destruct ws as [|w2 ws].
  - simpl. destruct (rev w) as [|c x] eqn:E.
    + apply (f_equal (@rev ascii)) in E. rewrite rev_involutive in E.
      contradiction.
    + exists c, x. split; [reflexivity|].
      assert (Hc : In c w) by (apply in_rev; rewrite E; now left).
      unfold no_space in Hns. rewrite Forall_forall in Hns. now apply Hns.
  - destruct (IH ltac:(discriminate) Hrest) as [c [x [E Hc]]].
    change (Text.join_space (w :: w2 :: ws))
      with (w ++ " "%char :: Text.join_space (w2 :: ws)).
    change (w ++ " "%char :: Text.join_space (w2 :: ws))
      with (w ++ [" "%char] ++ Text.join_space (w2 :: ws)).
    rewrite !rev_app_distr, E.
    exists c, (x ++ rev [" "%char] ++ rev w). split; [|exact Hc].
    now rewrite <- !app_assoc.
Qed.

Lemma strip_words (ws : list str) :
  Forall (fun w => w <> [] /\ no_space w) ws ->
  Text.strip (List.concat (map (fun w => w ++ [" "%char]) ws)) =
  Text.join_space ws.
Proof.
  intros H.
  destruct (list_eq_dec (list_eq_dec ascii_dec) ws []) as [Hnil|Hne];
    [subst ws; reflexivity|].
  rewrite words_then_space by assumption.
  destruct (join_space_first ws Hne H) as [c [x [E Hc]]].
  destruct (join_space_last ws Hne H) as [c' [x' [E' Hc']]].
  unfold Text.strip.
  rewrite E. change ((c :: x) ++ [" "%char]) with (c :: (x ++ [" "%char])).
  rewrite lstrip_word_first by assumption.
  change (c :: (x ++ [" "%char])) with ((c :: x) ++ [" "%char]).
  rewrite <- E, rev_app_distr.
  change (rev [" "%char] ++ rev (Text.join_space ws))
    with (" "%char :: rev (Text.join_space ws)).
  change (Text.lstrip (" "%char :: rev (Text.join_space ws)))
    with (Text.lstrip (rev (Text.join_space ws))).
  rewrite E', lstrip_word_first by assumption.
  rewrite <- E'. apply rev_involutive.
Qed.

(** C7 (as amended).  When every description of the group is the same text
    [d] (in particular when there is exactly one), the entity name is [d]
    with each run of whitespace collapsed to one space and the whitespace at
    its ends removed: the whitespace-delimited tokens of [d], in order,
    joined by single spaces. *)
Theorem entity_name_single_description (d : str) (n : nat) :
  find_entity_name (d :: repeat d n) = Ok (Text.join_space (Text.split_ws d)).
Proof.
  unfold find_entity_name. f_equal.
  rewrite common_words_fold. cbn [app].
  rewrite filter_all.
  - apply strip_words. apply split_ws_from_words. constructor.
  - intros w Hw. pose proof (split_ws_contained d w Hw) as Hc.
    simpl. rewrite Hc. simpl.
    apply forallb_forall. intros x Hx. apply repeat_spec in Hx. now subst x.
Qed.

(** C7 fails on a cleaned description that keeps the blanks of the removed
    noise tokens: the name is not the description. *)
Lemma entity_name_changes_description :
  let d := clean_text (lit "TFL TRAVEL CH ON 03 APR CLP") in
  d = lit "tfl travel     " /\
  find_entity_name [d] = Ok (lit "tfl travel") /\
  find_entity_name [d] <> Ok d.
Proof.
  split; [vm_compute; reflexivity|].
  split; [vm_compute; reflexivity|].
  vm_compute. discriminate.
Qed.

(** ** Keywords *)

Lemma cleaned_rows (df df2 : DataFrame) :
  well_formed_input df = true ->
  (df1 <- clean_dataframe df ;; clean_description df1) = Ok df2 ->
  forall r, In r (rows df2) ->
    type_ r = direction_label (income r) /\
    clean_desc r = clean_text (original_description r) /\
    keyword r = make_keyword (clean_desc r) (type_ r).
Proof.
  intros Hwf E r Hr.
  rewrite (clean_dataframe_ok df Hwf) in E. cbn [bind] in E.
  unfold well_formed_input in Hwf.
  repeat (apply andb_true_iff in Hwf; destruct Hwf as [Hwf ?]).
  rewrite clean_description_ok in E.
  - injection E as E. subst df2. cbn [rows] in Hr.
    rewrite !map_map in Hr. apply in_map_iff in Hr.
    destruct Hr as [r0 [Er _]]. subst r. cbn. auto.
  - unfold has_column in *. cbn [columns] in *. rewrite has_with_column.
    apply orb_true_iff. now left.
  - unfold has_column. cbn [columns]. rewrite has_with_column.
    apply orb_true_r.
Qed.

Section Keywords.

Context {SV : SortValues}.

(** C9 (as amended).  The cleaning steps never raise on a well-formed
    table.  For a row whose cleaned description is empty (or holds spaces
    only), the first-token part of the keyword is the empty string and the
    keyword is the separating space followed by the direction label,
    [" credit"] or [" debit"]; two such rows of the same direction have the
    same keyword and are both in the group of that keyword. *)
Theorem empty_description_keyword (df : DataFrame) :
  well_formed_input df = true ->
  exists df2,
    (df1 <- clean_dataframe df ;; clean_description df1) = Ok df2 /\
    (forall r, In r (rows df2) -> blank (clean_desc r) ->
       Text.first_field (clean_desc r) = [] /\
       keyword r = lit " " ++ direction_label (income r)) /\
    (forall r1 r2,
       In r1 (rows df2) -> In r2 (rows df2) ->
       blank (clean_desc r1) -> blank (clean_desc r2) ->
       income r1 = income r2 ->
       keyword r1 = keyword r2 /\
       exists g,
         get_subdf df2 (keyword r1) = Ok g /\
         In r1 (rows g) /\ In r2 (rows g)).
Proof.
  intros Hwf.
  destruct (clean_steps_ok df Hwf) as [df2 [E2 [L2 [Hk [Hm _]]]]].
  exists df2. split; [exact E2|].
  assert (Hff : forall s, blank s -> Text.first_field s = []).
  { intros s Hs. destruct Hs as [|c s Hc _]; [reflexivity|].
    subst c. reflexivity. }
  assert (Hkw : forall r, In r (rows df2) -> blank (clean_desc r) ->
                  keyword r = lit " " ++ direction_label (income r)).
  { intros r Hr Hc.
    destruct (cleaned_rows df df2 Hwf E2 r Hr) as [Ht [_ Hkey]].
    rewrite Hkey. unfold make_keyword. rewrite (Hff _ Hc), Ht. reflexivity. }
  split.
  - intros r Hr Hc. split; [now apply Hff | now apply Hkw].
  - intros r1 r2 H1 H2 Hc1 Hc2 Hi.
    assert (Heq : keyword r1 = keyword r2).
    { rewrite (Hkw r1 H1 Hc1), (Hkw r2 H2 Hc2), Hi. reflexivity. }
    split; [exact Heq|].
    rewrite get_subdf_ok by assumption.
    eexists. split; [reflexivity|]. cbn [rows].
    split; apply (Permutation_in _ (sort_values_perm _));
      apply filter_In; (split; [assumption|]); apply text_eqb_eq;
      [reflexivity | now symmetry].
Qed.

End Keywords.

Lemma empty_description_keyword_witness :
  exists df2 g,
    (df1 <- clean_dataframe blank_payments ;; clean_description df1) = Ok df2 /\
    map (fun r => (index r, clean_desc r, keyword r)) (rows df2) =
      [ (0%nat, [], lit " debit"); (1%nat, lit "tesco", lit "tesco debit");
        (2%nat, [], lit " debit"); (3%nat, [], lit " credit");
        (4%nat, lit " ", lit " debit") ] /\
    @get_subdf stable_sort df2 (lit " debit") = Ok g /\
    map index (rows g) = [0; 2; 4]%nat.
Proof.
  destruct (@empty_description_keyword stable_sort blank_payments)
    as [df2 [E _]]; [reflexivity|].
  exists df2. vm_compute in E. injection E as E. subst df2.
  eexists. split; [vm_compute; reflexivity|].
  split; [vm_compute; reflexivity|].
  split; vm_compute; reflexivity.
Defined.

(** C9 fails on the exact text of the keyword: for the description "03",
    which cleaning empties, the keyword is not the direction label alone but
    the label after the separating space. *)
Lemma empty_description_keyword_has_space :
  exists df2 r,
    (df1 <- clean_dataframe blank_payments ;; clean_description df1) = Ok df2 /\
    nth_error (rows df2) 0 = Some r /\
    original_description r = lit "03" /\
    clean_desc r = [] /\
    keyword r = lit " debit" /\
    keyword r <> direction_label (income r).
Proof.
  eexists. eexists.
  split; [vm_compute; reflexivity|].
  split; [vm_compute; reflexivity|].
  split; [vm_compute; reflexivity|].
  split; [vm_compute; reflexivity|].
  split; [vm_compute; reflexivity|].
  vm_compute. discriminate.
Qed.

(** ** The noise pattern against the words *)

Lemma digit_is_word (c : ascii) : Text.is_digit c = true -> Text.is_word c = true.
Proof. intros H. unfold Text.is_word. now rewrite H. Qed.

Lemma alt_kind_sound (a : Regex.alt) :
  alt_kind a = true -> word_alt a \/ apostrophe_alt a.
Proof.
  destruct a as [|v]; simpl; intros H.
  - left. intros w Hw. simpl in Hw. unfold two_digits in Hw.
    destruct w as [|c1 [|c2 [|c3 w]]]; try discriminate.
    apply andb_true_iff in Hw. destruct Hw as [H1 H2].
    split; [discriminate|].
    repeat constructor; now apply digit_is_word.
  - apply orb_true_iff in H. destruct H as [H|H].
    + left. intros w Hw. simpl in Hw. apply text_eqb_eq in Hw. subst w.
      apply andb_true_iff in H. destruct H as [H1 H2]. split.
      * destruct v; [discriminate | discriminate].
      * apply Forall_forall. now apply forallb_forall.
    + right. intros w Hw. simpl in Hw.
      apply text_eqb_eq in Hw. apply text_eqb_eq in H. congruence.
Qed.

Lemma date_pattern_kinds :
  Forall (fun a => word_alt a \/ apostrophe_alt a) Regex.date_pattern.
Proof.
  apply Forall_forall. intros a Ha. apply alt_kind_sound.
  assert (H : forallb alt_kind Regex.date_pattern = true)
    by (vm_compute; reflexivity).
  rewrite forallb_forall in H. now apply H.
Qed.

Lemma prefix_split (w s : str) :
  Text.prefix w s = true -> exists t, s = w ++ t.
Proof.
  revert s. induction w as [|c w IH]; intros s H.
  - now exists s.
  - destruct s as [|d s]; simpl in H; [discriminate|].
    apply andb_true_iff in H. destruct H as [Hc Hw].
    apply Ascii.eqb_eq in Hc. subst d.
    destruct (IH s Hw) as [t E]. exists t. now rewrite E.
Qed.

Lemma match_alt_sound (a : Regex.alt) (s : str) (n : nat) :
  Regex.match_alt a s = Some n ->
  exists w t, s = w ++ t /\ List.length w = n /\ accepts a w = true.
Proof.
  destruct a as [|v]; simpl.
  - destruct s as [|c1 [|c2 s]]; try discriminate.
    destruct (Text.is_digit c1 && Text.is_digit c2) eqn:E; [|discriminate].
    intros H. injection H as H. subst n.
    exists [c1; c2], s. now repeat split.
  - destruct (Text.prefix v s) eqn:E; [|discriminate].
    intros H. injection H as H. subst n.
    destruct (prefix_split v s E) as [t Et].
    exists v, t. repeat split; [assumption|]. apply text_eqb_refl.
Qed.

Lemma match_alt_complete (a : Regex.alt) (w t : str) :
  accepts a w = true -> Regex.match_alt a (w ++ t) = Some (List.length w).
Proof.
  destruct a as [|v]; simpl; intros H.
  - unfold two_digits in H.
    destruct w as [|c1 [|c2 [|c3 w]]]; try discriminate.
    simpl. now rewrite H.
  - apply text_eqb_eq in H. subst v. now rewrite prefix_app.
Qed.

Lemma word_at_inside (w x : str) (n : nat) :
  all_word w -> (n < List.length w)%nat ->
  Regex.word_at (nth_error (w ++ x) n) = true.
Proof.
  intros Hw Hn. rewrite nth_error_app1 by assumption.
  destruct (nth_error w n) as [c|] eqn:E.
  - simpl. unfold all_word in Hw. rewrite Forall_forall in Hw.
    apply Hw. eapply nth_error_In. exact E.
  - apply nth_error_None in E. lia.
Qed.

Lemma word_at_last (w x : str) :
  w <> [] -> all_word w ->
  Regex.word_at (nth_error (w ++ x) (List.length w - 1)) = true.
Proof.
  intros Hne Hw. apply word_at_inside; [assumption|].
  destruct w; simpl; [contradiction | lia].
Qed.

Lemma nth_error_after (w x : str) :
  nth_error (w ++ x) (List.length w) = hd_error x.
Proof.
  rewrite nth_error_app2 by lia. rewrite Nat.sub_diag. now destruct x.
Qed.

Lemma word_at_hd (l x : str) :
  l <> [] -> all_word l -> Regex.word_at (hd_error (l ++ x)) = true.
Proof.
  intros Hne Hl. destruct l as [|c l]; [contradiction|].
  simpl. now inversion Hl.
Qed.

(** At the start of a word [run], the alternatives match the whole word or
    nothing. *)
Lemma match_alts_word_run (alts : list Regex.alt) (run rest : str) :
  Forall (fun a => word_alt a \/ apostrophe_alt a) alts ->
  run <> [] -> all_word run -> Regex.word_at (hd_error rest) = false ->
  Regex.match_alts alts (run ++ rest) =
  if existsb (fun a => accepts a run) alts then Some (List.length run) else None.
Proof.
  intros Hk Hne Hrun Hrest.
  induction Hk as [|a alts Ha Hk IH]; [reflexivity|].
  cbn [Regex.match_alts existsb].
  destruct (accepts a run) eqn:Ea.
  - rewrite (match_alt_complete a run rest Ea).
    unfold Regex.boundary.
    rewrite word_at_last by assumption.
    rewrite nth_error_after, Hrest. reflexivity.
  - cbn [orb].
    destruct (Regex.match_alt a (run ++ rest)) as [n|] eqn:Em; [|exact IH].
    destruct (match_alt_sound a _ n Em) as [w [t [Es [Ln Hw]]]].
    destruct Ha as [Ha|Ha].
    + destruct (Ha w Hw) as [Hwne Hww].
      assert (Hb : Regex.boundary (nth_error (run ++ rest) (n - 1))
                     (nth_error (run ++ rest) n) = false).
      { rewrite Es. subst n. unfold Regex.boundary.
        rewrite word_at_last by assumption.
        rewrite nth_error_after.
        apply app_eq_app in Es. destruct Es as [l [[E1 E2]|[E1 E2]]].
        - destruct l as [|x l].
          + rewrite app_nil_r in E1. subst w. congruence.
          + subst t. rewrite word_at_hd; [reflexivity | discriminate |].
            subst run. unfold all_word in Hrun.
            apply Forall_app in Hrun. apply Hrun.
        - destruct l as [|x l].
          + rewrite app_nil_r in E1. subst w. congruence.
          + exfalso. subst rest w. unfold all_word in Hww.
            apply Forall_app in Hww. destruct Hww as [_ Hl].
            inversion Hl; subst. simpl in Hrest. congruence. }
      rewrite Hb. exact IH.
    + exfalso. rewrite (Ha w Hw) in Es.
      destruct run as [|c run]; [contradiction|].
      simpl in Es. injection Es as Ec _. subst c.
      inversion Hrun; subst. discriminate.
Qed.

(** At a character that is not a word character, only the apostrophe can
    match, and only when a word character follows. *)
Lemma match_alts_nonword (alts : list Regex.alt) (c : ascii) (s' : str) :
  Forall (fun a => word_alt a \/ apostrophe_alt a) alts ->
  Text.is_word c = false ->
  Regex.match_alts alts (c :: s') =
  if existsb (fun a => accepts a [c]) alts && Regex.word_at (hd_error s')
  then Some 1%nat else None.
Proof.
  intros Hk Hc.
  induction Hk as [|a alts Ha Hk IH]; [reflexivity|].
  cbn [Regex.match_alts existsb].
  destruct (accepts a [c]) eqn:Ea.
  - pose proof (match_alt_complete a [c] s' Ea) as Em. simpl in Em.
    rewrite Em. unfold Regex.boundary.
    change (nth_error (c :: s') (1 - 1)) with (Some c).
    change (nth_error (c :: s') 1) with (nth_error s' 0).
    assert (Hn : nth_error s' 0 = hd_error s') by (now destruct s').
    rewrite Hn.
    replace (Regex.word_at (Some c)) with false by (simpl; now rewrite Hc).
    destruct (Regex.word_at (hd_error s')) eqn:Eh.
    + reflexivity.
    + rewrite IH, andb_false_r. reflexivity.
  - cbn [orb].
    destruct (Regex.match_alt a (c :: s')) as [n|] eqn:Em; [|exact IH].
    exfalso.
    destruct (match_alt_sound a _ n Em) as [w [t [Es [Ln Hw]]]].
    destruct Ha as [Ha|Ha].
    + destruct (Ha w Hw) as [Hwne Hww].
      destruct w as [|x w]; [contradiction|].
      simpl in Es. injection Es as Ex _. subst x.
      inversion Hww; subst. congruence.
    + pose proof (Ha w Hw) as Ew. subst w.
      simpl in Es. injection Es as Ex _.
      rewrite Ex in Ea. congruence.
Qed.

Lemma existsb_map_pre {A B : Type} (f : A -> B) (p : B -> bool) (l : list A) :
  existsb p (map f l) = existsb (fun x => p (f x)) l.
Proof. induction l as [|x l IH]; simpl; [reflexivity | now rewrite IH]. Qed.

Lemma noise_word_accepts (run : str) :
  all_word run ->
  existsb (fun a => accepts a run) Regex.date_pattern = is_noise_word run.
Proof.
  intros Hrun.
  change Regex.date_pattern
    with (Regex.Digits2 ::
          map (fun w => Regex.Lit (lit w)) (noise_words ++ ["'"%string])).
  cbn [existsb accepts]. unfold is_noise_word. f_equal.
  rewrite existsb_map_pre, existsb_app. cbn [accepts existsb].
  replace (Text.eqb (lit "'") run) with false; [now rewrite !orb_false_r|].
  symmetry. apply not_true_is_false. intros H.
  apply text_eqb_eq in H. subst run. inversion Hrun; subst. discriminate.
Qed.

Lemma apostrophe_accepts (c : ascii) :
  Text.is_word c = false ->
  existsb (fun a => accepts a [c]) Regex.date_pattern = Ascii.eqb c "'".
Proof.
  intros Hc. destruct (Ascii.eqb c "'") eqn:E.
  - apply Ascii.eqb_eq in E. subst c. vm_compute. reflexivity.
  - apply not_true_is_false. intros H.
    apply existsb_exists in H. destruct H as [a [Ha Hacc]].
    pose proof date_pattern_kinds as Hk. rewrite Forall_forall in Hk.
    destruct (Hk a Ha) as [Hw|Hap].
    + destruct (Hw _ Hacc) as [_ Hall]. inversion Hall; subst. congruence.
    + pose proof (Hap _ Hacc) as Eq. injection Eq as Eq. subst c.
      discriminate.
Qed.

Lemma sub_from_skip (x : str) (p : option ascii) (rest : str) :
  Regex.sub_from p (List.length x) (x ++ rest) =
  Regex.sub_from (last_before p x) 0 rest.
Proof.
  revert p. induction x as [|c x IH]; intros p.
  - reflexivity.
  - simpl. apply IH.
Qed.

Lemma sub_from_inside_word (x : str) (c : ascii) (rest : str) :
  Text.is_word c = true -> all_word x ->
  Regex.sub_from (Some c) 0 (x ++ rest) =
  x ++ Regex.sub_from (last_before (Some c) x) 0 rest.
Proof.
  revert c. induction x as [|y x IH]; intros c Hc Hx.
  - reflexivity.
  - inversion Hx as [|? ? Hy Hx']; subst.
    cbn [app Regex.sub_from].
    unfold Regex.match_here, Regex.boundary. cbn [hd_error Regex.word_at].
    rewrite Hc, Hy. cbn [xorb].
    f_equal. now apply IH.
Qed.

Lemma last_before_word (run : str) (p : option ascii) :
  all_word run -> Regex.word_at p = false ->
  Regex.word_at (last_before p run) = negb (is_nil run).
Proof.
  intros Hrun Hp. destruct run as [|c run]; [exact Hp|].
  simpl. unfold last_before. simpl.
  assert (H : forall x q, all_word x -> Regex.word_at q = true ->
                Regex.word_at (fold_left (fun _ c => Some c) x q) = true).
  { induction x as [|y x IH]; intros q Hx Hq; [exact Hq|].
    inversion Hx; subst. simpl. now apply IH. }
  inversion Hrun; subst. now apply H.
Qed.

(** A word that starts where a word can start is dropped or copied as a
    whole. *)
Lemma sub_from_word_run (run rest : str) (prev : option ascii) :
  all_word run -> Regex.word_at prev = false ->
  Regex.word_at (hd_error rest) = false ->
  Regex.sub_from prev 0 (run ++ rest) =
  keep_word run ++ Regex.sub_from (last_before prev run) 0 rest.
Proof.
  intros Hrun Hprev Hrest.
  destruct run as [|c run'] eqn:Erun; [reflexivity|].
  rewrite <- Erun in *.
  assert (Hne : run <> []) by (rewrite Erun; discriminate).
  assert (Hm : Regex.match_here prev (run ++ rest) =
               if is_noise_word run then Some (List.length run) else None).
  { unfold Regex.match_here, Regex.boundary.
    rewrite word_at_hd, Hprev by assumption. cbn [xorb].
    rewrite (match_alts_word_run _ run rest date_pattern_kinds Hne Hrun Hrest).
    now rewrite noise_word_accepts. }
  unfold keep_word.
  rewrite Erun in *. inversion Hrun as [|? ? Hc Hrun']; subst.
  cbn [app]. cbn [Regex.sub_from].
  change (c :: run' ++ rest) with ((c :: run') ++ rest).
  rewrite Hm.
  change (last_before prev (c :: run')) with (last_before (Some c) run').
  destruct (is_noise_word (c :: run')).
  - cbn [List.length]. rewrite Nat.sub_1_r. cbn [Nat.pred app].
    apply sub_from_skip.
  - cbn [app]. f_equal. now apply sub_from_inside_word.
Qed.

(** The scan of the pattern and the telling by words agree. *)
Lemma sub_from_by_words (s run : str) (prev : option ascii) :
  all_word run -> Regex.word_at prev = false ->
  Regex.sub_from prev 0 (run ++ s) = by_words_from run s.
Proof.
  revert run prev. induction s as [|c s IH]; intros run prev Hrun Hprev.
  - rewrite (sub_from_word_run run [] prev Hrun Hprev eq_refl).
    cbn [Regex.sub_from by_words_from]. now rewrite app_nil_r.
  - cbn [by_words_from]. destruct (Text.is_word c) eqn:Ec.
    + rewrite <- (IH (run ++ [c]) prev).
      * now rewrite <- app_assoc.
      * apply Forall_app. split; [assumption | now constructor].
      * assumption.
    + rewrite (sub_from_word_run run (c :: s) prev Hrun Hprev)
        by (simpl; exact Ec).
      f_equal. cbn [Regex.sub_from].
      unfold Regex.match_here, Regex.boundary. cbn [hd_error].
      rewrite (last_before_word run prev Hrun Hprev).
      replace (Regex.word_at (Some c)) with false by (simpl; now rewrite Ec).
      rewrite xorb_false_r.
      rewrite (match_alts_nonword _ c s date_pattern_kinds Ec).
      rewrite (apostrophe_accepts c Ec).
      assert (Hnext : Regex.sub_from (Some c) 0 s = by_words_from [] s).
      { apply (IH [] (Some c)); [constructor | simpl; exact Ec]. }
      destruct (negb (is_nil run)), (Ascii.eqb c "'"),
        (Regex.word_at (hd_error s)); cbn [andb app Nat.sub];
        rewrite Hnext; reflexivity.
Qed.

(** A word that is not itself in the vocabulary is left as it is, whatever
    noise tokens it contains. *)
Lemma long_word_untouched (w : str) :
  all_word w -> is_noise_word w = false -> Regex.remove_noise w = w.
Proof.
  intros Hw Hn. unfold Regex.remove_noise.
  rewrite <- (app_nil_r w) at 1.
  rewrite (sub_from_word_run w [] None Hw eq_refl eq_refl).
  unfold keep_word. rewrite Hn. cbn [Regex.sub_from]. apply app_nil_r.
Qed.

(** C8 (as amended).  Normalization removes exactly: the words (maximal
    runs of letters, digits and underscores) that are a two-digit number, a
    month abbreviation JAN..DEC or one of the codes ON, BCC, CLP, ATM, CH,
    FT, BGC, DDR; and the apostrophes that stand directly between two word
    characters.  Every other character, a noise token inside a longer word
    and an apostrophe standing alone included, is kept (then punctuation is
    blanked and the text lower-cased). *)
Theorem clean_text_by_words (raw : str) :
  clean_text raw =
  Text.lower (Regex.replace_punct (remove_noise_by_words raw)).
Proof.
  unfold clean_text, Regex.remove_noise, remove_noise_by_words.
  do 2 f_equal.
  apply (sub_from_by_words raw [] None); [constructor | reflexivity].
Qed.

(** C8 fails on the apostrophe: standing alone, between two blanks, it is
    kept; inside DOMINO'S it is removed. *)
Lemma lone_apostrophe_kept :
  clean_text (lit "PIZZA ' HUT") = lit "pizza ' hut" /\
  clean_text (lit "DOMINO'S PIZZA") = lit "dominos pizza".
Proof. split; vm_compute; reflexivity. Qed.

(** ** The undefined delta of every group *)

(** Rows picked out of a frame with distinct labels have distinct labels. *)
Lemma distinct_labels_filter (keep : Row -> bool) (rs : list Row) :
  NoDup (map index rs) -> NoDup (map index (filter keep rs)).
Proof.
  intros Hnd. induction rs as [|r rs IH]; [exact Hnd|].
  cbn [map] in Hnd. apply NoDup_cons_iff in Hnd. destruct Hnd as [Hr Hrs].
  cbn [filter]. destruct (keep r); [|now apply IH].
  cbn [map]. apply NoDup_cons; [|now apply IH].
  intros Hin. apply Hr.
  apply in_map_iff in Hin. destruct Hin as [r' [Elab Hr']].
  apply filter_In in Hr'. rewrite <- Elab. apply in_map. apply Hr'.
Qed.

(** In a frame with distinct labels, a label names one row. *)
Lemma same_label_same_row (rs : list Row) (a b : Row) :
  NoDup (map index rs) -> In a rs -> In b rs -> index a = index b -> a = b.
Proof.
  intros Hnd. induction rs as [|r rs IH]; intros Ha Hb Elab; [contradiction|].
  cbn [map] in Hnd. apply NoDup_cons_iff in Hnd. destruct Hnd as [Hr Hrs].
  destruct Ha as [Ha|Ha], Hb as [Hb|Hb].
  - congruence.
  - subst a. exfalso. apply Hr. rewrite Elab. now apply in_map.
  - subst b. exfalso. apply Hr. rewrite <- Elab. now apply in_map.
  - now apply IH.
Qed.

Lemma loc_set_daydelta_fields (s : DataFrame) (i : nat) (v : option Z) :
  map index (rows (loc_set_daydelta s i v)) = map index (rows s) /\
  map keyword (rows (loc_set_daydelta s i v)) = map keyword (rows s).
Proof.
  unfold loc_set_daydelta. cbn [rows].
  destruct (has_column s "daydelta"); rewrite ?map_map; split;
    apply map_ext; intros r; simpl;
    destruct (index _ =? i)%nat; reflexivity.
Qed.

Lemma loc_set_daydelta_other (s : DataFrame) (i j : nat) (v : option Z) (k : str) :
  i <> j -> undefined_at s j k -> undefined_at (loc_set_daydelta s i v) j k.
Proof.
  intros Hij [r [Hr [Hj [Hk Hd]]]].
  unfold undefined_at, loc_set_daydelta. cbn [rows].
  destruct (has_column s "daydelta").
  - exists r. split; [|now repeat split].
    apply in_map_iff. exists r. split; [|exact Hr].
    destruct (index r =? i)%nat eqn:E; [|reflexivity].
    apply Nat.eqb_eq in E. congruence.
  - exists (set_daydelta None r). split; [|now repeat split].
    apply in_map_iff. exists (set_daydelta None r). split.
    + simpl. destruct (index r =? i)%nat eqn:E; [|reflexivity].
      apply Nat.eqb_eq in E. congruence.
    + now apply in_map.
Qed.

Lemma loc_set_daydelta_here (s : DataFrame) (i : nat) (k : str) :
  (exists r, In r (rows s) /\ index r = i /\ keyword r = k) ->
  undefined_at (loc_set_daydelta s i None) i k.
Proof.
  intros [r [Hr [Hi Hk]]].
  unfold undefined_at, loc_set_daydelta. cbn [rows].
  exists (set_daydelta None r). split; [|now repeat split].
  destruct (has_column s "daydelta").
  - apply in_map_iff. exists r. split; [|exact Hr].
    rewrite Hi, Nat.eqb_refl. reflexivity.
  - apply in_map_iff. exists (set_daydelta None r). split; [|now apply in_map].
    simpl. rewrite Hi, Nat.eqb_refl. reflexivity.
Qed.

Lemma write_back_fields (l : list Row) (s : DataFrame) :
  map index (rows (write_back l s)) = map index (rows s) /\
  map keyword (rows (write_back l s)) = map keyword (rows s).
Proof.
  revert s. induction l as [|p l IH]; intros s; [now split|].
  unfold write_back in *. simpl.
  destruct (IH (loc_set_daydelta s (index p) (daydelta p))) as [H1 H2].
  destruct (loc_set_daydelta_fields s (index p) (daydelta p)) as [H3 H4].
  split; congruence.
Qed.

Lemma write_back_other (l : list Row) (s : DataFrame) (j : nat) (k : str) :
  ~ In j (map index l) -> undefined_at s j k -> undefined_at (write_back l s) j k.
Proof.
  revert s. induction l as [|p l IH]; intros s Hj H; [exact H|].
  unfold write_back in *. simpl. apply IH.
  - intros Hin. apply Hj. now right.
  - apply loc_set_daydelta_other; [|exact H].
    intros E. apply Hj. left. exact E.
Qed.

Lemma assigned_labels (process : list Row) (prev : option Z) :
  map index
    (map (fun p : Row * option Z => set_daydelta (snd p) (fst p))
       (combine process (shift_diff prev (map made_on process)))) =
  map index process.
Proof.
  revert prev. induction process as [|p ps IH]; intros prev; [reflexivity|].
  simpl. f_equal. apply IH.
Qed.

Section UndefinedDelta.

Context {SV : SortValues}.

Lemma in_group (s : DataFrame) (k : str) (p : Row) :
  In p (sort_values
          (sort_values (filter (fun r => Text.eqb (keyword r) k) (rows s)))) ->
  In p (rows s) /\ keyword p = k.
Proof.
  intros H.
  apply (Permutation_in _ (Permutation_sym (sort_values_perm _))) in H.
  apply (Permutation_in _ (Permutation_sym (sort_values_perm _))) in H.
  apply filter_In in H. destruct H as [H1 H2].
  split; [exact H1 | now apply text_eqb_eq].
Qed.

Lemma daydelta_body_inv (rows0 : list Row) (done : list str) (s : DataFrame)
  (k' : str) :
  NoDup (map index rows0) ->
  daydelta_inv rows0 done s ->
  ~ In k' done ->
  exists s', daydelta_body s k' = Ok s' /\ daydelta_inv rows0 (k' :: done) s'.
Proof.
  intros Hnd [Hk [Hm [Hi [Hkw Hun]]]] Hk'.
  unfold daydelta_body.
  rewrite get_subdf_ok by assumption. cbn [bind].
  unfold daydelta_frame. rewrite column_ok by exact Hm. cbn [bind rows columns].
  set (g := filter (fun r => Text.eqb (keyword r) k') (rows s)).
  set (process := sort_values (sort_values g)).
  set (A := map (fun p : Row * option Z => set_daydelta (snd p) (fst p))
              (combine process (shift_diff None (map made_on process)))).
  fold (write_back A s).
  eexists. split; [reflexivity|].
  assert (HndS : NoDup (map index (rows s))) by (rewrite Hi; exact Hnd).
  assert (Hproc : NoDup (map index process)).
  { unfold process.
    eapply Permutation_NoDup;
      [apply Permutation_map, sort_values_perm|].
    eapply Permutation_NoDup;
      [apply Permutation_map, sort_values_perm|].
    now apply distinct_labels_filter. }
  destruct (write_back_fields A s) as [F1 F2].
  split; [|split; [|split; [|split]]].
  - unfold write_back. rewrite fold_loc_set_daydelta_has, Hk. reflexivity.
  - unfold write_back. rewrite fold_loc_set_daydelta_has, Hm. reflexivity.
  - congruence.
  - congruence.
  - intros k [Ek|Hdone] Hin.
    + subst k. rewrite <- Hkw in Hin. apply in_map_iff in Hin.
      destruct Hin as [r [Er Hr]].
      assert (Hrp : In r process).
      { unfold process.
        apply (Permutation_in _ (sort_values_perm _)).
        apply (Permutation_in _ (sort_values_perm _)).
        apply filter_In. split; [exact Hr | now apply text_eqb_eq]. }
      destruct process as [|p0 ps] eqn:Ep; [contradiction|].
      exists (index p0). subst A. cbn [map combine shift_diff].
      unfold write_back. cbn [fold_left fst snd].
      change (index (set_daydelta None p0)) with (index p0).
      change (daydelta (set_daydelta None p0)) with (@None Z).
      apply write_back_other.
      * rewrite assigned_labels. inversion Hproc; assumption.
      * apply loc_set_daydelta_here. exists p0.
        destruct (in_group s k' p0) as [H1 H2].
        { fold g. fold process. rewrite Ep. now left. }
        now repeat split.
    + destruct (Hun k Hdone Hin) as [j Hj].
      exists j. apply write_back_other; [|exact Hj].
      unfold A. rewrite assigned_labels. intros Hjp.
      apply in_map_iff in Hjp. destruct Hjp as [p [Ep Hp]].
      destruct (in_group s k' p Hp) as [H1 H2].
      destruct Hj as [r [Hr [Hrj [Hrk _]]]].
      assert (p = r).
      { apply (same_label_same_row (rows s)); try assumption. congruence. }
      subst p. apply Hk'. congruence.
Qed.

Lemma daydelta_loop_inv (rows0 : list Row) (l done : list str) (s : DataFrame) :
  NoDup (map index rows0) ->
  NoDup l ->
  (forall k, In k l -> ~ In k done) ->
  daydelta_inv rows0 done s ->
  exists s',
    for_each l s daydelta_body = Ok s' /\ daydelta_inv rows0 (l ++ done) s'.
Proof.
  intros Hnd. revert done s.
  induction l as [|a l IH]; intros done s Hl Hfresh Hinv.
  - exists s. now split.
  - inversion Hl as [|? ? Ha Hl']; subst.
    destruct (daydelta_body_inv rows0 done s a Hnd Hinv)
      as [s1 [E1 I1]]; [apply Hfresh; now left|].
    destruct (IH (a :: done) s1 Hl') as [s' [E' I']].
    + intros k Hk [Eq|Hd]; [subst; contradiction|].
      apply (Hfresh k); [now right | exact Hd].
    + exact I1.
    + exists s'. cbn [for_each]. rewrite E1. cbn [bind].
      split; [exact E'|].
      destruct I' as [H1 [H2 [H3 [H4 H5]]]].
      repeat split; try assumption.
      intros k Hk. apply H5.
      apply in_app_iff. simpl in Hk. rewrite in_app_iff in Hk.
      destruct Hk as [Hk|[Hk|Hk]].
      * right. now left.
      * now left.
      * right. now right.
Qed.

(** After [calculate_daydelta], every keyword has a row whose
    ['daydelta_int'] is undefined. *)
Lemma calculate_daydelta_undefined (df df1 : DataFrame) :
  NoDup (map index (rows df)) ->
  has_column df "keyword" = true ->
  has_column df "made_on" = true ->
  calculate_daydelta df = Ok df1 ->
  has_column df1 "keyword" = true /\
  has_column df1 "made_on" = true /\
  has_column df1 "daydelta_int" = true /\
  forall r0, In r0 (rows df1) ->
    exists r, In r (rows df1) /\ keyword r = keyword r0 /\
              daydelta_int r = None.
Proof.
  intros Hnd Hk Hm. unfold calculate_daydelta.
  rewrite column_ok by assumption. cbn [bind].
  destruct (daydelta_loop_inv (rows df) (unique (map keyword (rows df))) [] df)
    as [s [Es [Hsk [Hsm [Hsi [Hskw Hun]]]]]].
  - exact Hnd.
  - apply unique_NoDup.
  - intros k _ [].
  - repeat split; try assumption. intros k [].
  - rewrite Es. cbn [bind]. unfold column.
    destruct (has_column s "daydelta"); cbn [bind]; [|discriminate].
    destruct (to_timedelta _) as [u|e]; cbn [bind]; [|discriminate].
    intros E. injection E as E. subst df1.
    unfold has_column in *. cbn [columns rows].
    rewrite !has_with_column, Hsk, Hsm.
    split; [reflexivity|]. split; [reflexivity|].
    split; [apply orb_true_r|].
    intros r0 Hr0. apply in_map_iff in Hr0. destruct Hr0 as [r1 [E1 Hr1]].
    subst r0. cbn [keyword set_daydelta_int].
    destruct (Hun (keyword r1)) as [j [r [Hr [_ [Hrk Hrd]]]]].
    + rewrite app_nil_r. apply unique_In. rewrite <- Hskw. now apply in_map.
    + rewrite <- Hskw. now apply in_map.
    + exists (set_daydelta_int (daydelta r) r).
      split; [|split; [exact Hrk | exact Hrd]].
      apply (in_map (fun x => set_daydelta_int (daydelta x) x)). exact Hr.
Qed.

End UndefinedDelta.

Lemma clean_steps_index (df df2 : DataFrame) :
  well_formed_input df = true ->
  (df1 <- clean_dataframe df ;; clean_description df1) = Ok df2 ->
  map index (rows df2) = map index (rows df).
Proof.
  intros Hwf E.
  rewrite (clean_dataframe_ok df Hwf) in E. cbn [bind] in E.
  unfold well_formed_input in Hwf.
  repeat (apply andb_true_iff in Hwf; destruct Hwf as [Hwf ?]).
  rewrite clean_description_ok in E.
  - injection E as E. subst df2. cbn [rows]. rewrite !map_map.
    apply map_ext. reflexivity.
  - unfold has_column in *. cbn [columns] in *. rewrite has_with_column.
    apply orb_true_iff. now left.
  - unfold has_column. cbn [columns]. rewrite has_with_column.
    apply orb_true_r.
Qed.

Section ShortGroups.

Context {SV : SortValues}.

(** A group of one, two or three transactions is never recurring: the
    window of its last three deltas holds the undefined delta. *)
Lemma short_group_not_recurring (df df1 : DataFrame) (kw : str) (g : DataFrame)
  (t : float) :
  well_formed_input df = true ->
  NoDup (map index (rows df)) ->
  up_to_daydelta df = Ok df1 ->
  get_subdf df1 kw = Ok g ->
  (1 <= List.length (rows g) <= 3)%nat ->
  is_recurring g t = Ok false.
Proof.
  intros Hwf Hnd Hup Hg Hlen.
  destruct (clean_steps_ok df Hwf) as [df2 [E2 [L2 [Hk [Hm _]]]]].
  pose proof (clean_steps_index df df2 Hwf E2) as Hidx.
  unfold up_to_daydelta in Hup.
  destruct (clean_dataframe df) as [dfa|e]; cbn [bind] in *; [|discriminate].
  rewrite E2 in Hup. cbn [bind] in Hup.
  destruct (calculate_daydelta_undefined df2 df1) as [Hk1 [Hm1 [Hd1 Hun]]];
    try assumption.
  { now rewrite Hidx. }
  rewrite get_subdf_ok in Hg by assumption.
  injection Hg as Hg. subst g. cbn [rows] in Hlen.
  unfold is_recurring. rewrite column_ok by exact Hd1. cbn [bind rows].
  f_equal. apply within_tolerance_NaN.
  rewrite last_n_all by (rewrite length_map; lia).
  set (grp := filter (fun r => Text.eqb (keyword r) kw) (rows df1)) in *.
  destruct (sort_values grp) as [|r0 rs] eqn:Es; [simpl in Hlen; lia|].
  assert (Hr0 : In r0 grp).
  { apply (Permutation_in _ (Permutation_sym (sort_values_perm grp))).
    rewrite Es. now left. }
  apply filter_In in Hr0. destruct Hr0 as [Hin0 Hkw0].
  apply text_eqb_eq in Hkw0.
  destruct (Hun r0 Hin0) as [r [Hr [Hrk Hrd]]].
  rewrite <- Hrd. apply in_map. rewrite <- Es.
  apply (Permutation_in _ (sort_values_perm grp)).
  apply filter_In. split; [exact Hr|]. apply text_eqb_eq. congruence.
Qed.

(** C2 (as amended).  For every well-formed table with distinct index
    labels, every group of exactly two transactions is classified not
    recurring, whatever the tolerance (the default 0.2 included). *)
Theorem two_transactions_not_recurring (df df1 : DataFrame) (kw : str)
  (g : DataFrame) (t : float) :
  well_formed_input df = true ->
  NoDup (map index (rows df)) ->
  up_to_daydelta df = Ok df1 ->
  get_subdf df1 kw = Ok g ->
  List.length (rows g) = 2%nat ->
  is_recurring g t = Ok false.
Proof.
  intros Hwf Hnd Hup Hg Hlen.
  apply (short_group_not_recurring df df1 kw g t Hwf Hnd Hup Hg). lia.
Qed.

End ShortGroups.

Lemma two_transactions_not_recurring_witness :
  is_recurring
    (frame_of (@group_after_daydelta stable_sort two_payments
                 (lit "netflix debit")))
    default_tolerance = Ok false.
Proof.
  apply (@two_transactions_not_recurring stable_sort two_payments
           (frame_of (@up_to_daydelta stable_sort two_payments))
           (lit "netflix debit")).
  - reflexivity.
  - simpl. constructor; [simpl; intros [H|[]]; discriminate|].
    constructor; [intros []|constructor].
  - vm_compute. reflexivity.
  - vm_compute. reflexivity.
  - vm_compute. reflexivity.
Defined.

(** * Further properties of the code *)

(** ** The classifier on any column *)

Lemma dropna_In (w : list (option Z)) (d : Z) :
  In (Some d) w -> In d (dropna w).
Proof.
  intros H. unfold dropna. apply in_flat_map.
  exists (Some d). split; [exact H | now left].
Qed.

Lemma mean_dropna (w : list (option Z)) : mean w = mean (map Some (dropna w)).
Proof. unfold mean. now rewrite dropna_map_Some. Qed.

Lemma within_tolerance_iff (cells : list (option Z)) (t : float) :
  within_tolerance cells t = true <-> window_in_band cells t.
Proof.
  unfold within_tolerance, window_in_band.
  set (w := last_n 3 cells).
  unfold in_float_band, lower_bound, upper_bound. rewrite <- mean_dropna.
  rewrite forallb_forall, Forall_forall.
  split; intros H x Hx; specialize (H x Hx).
  - destruct x as [d|].
    + exists d. split; [reflexivity|].
      apply andb_true_iff in H. exact H.
    + apply andb_true_iff in H. destruct H as [H _].
      cbn [of_cell] in H. now rewrite fle_NaN_r in H.
  - destruct H as [d [Ex H]]. subst x. apply andb_true_iff. exact H.
Qed.

Lemma is_recurring_window (df : DataFrame) (t : float) :
  has_column df "daydelta_int" = true ->
  (is_recurring df t = Ok true <->
   window_in_band (map daydelta_int (rows df)) t).
Proof.
  intros Hc. unfold is_recurring. rewrite column_ok by exact Hc. cbn [bind].
  rewrite <- within_tolerance_iff. split; intros H.
  - now injection H.
  - now rewrite H.
Qed.



Lemma sum_all_same (l : list Z) (d : Z) :
  Forall (eq d) l -> sum l = (Z.of_nat (List.length l) * d)%Z.
Proof.
  intros H. induction H as [|x l Hx Hl IH]; [reflexivity|].
  subst x. cbn [List.length]. rewrite sum_cons, IH. lia.
Qed.

Lemma average_all_same (l : list Z) (d : Z) :
  l <> [] -> Forall (eq d) l -> (average l == inject_Z d)%Q.
Proof.
  intros Hne H. unfold average. rewrite (sum_all_same l d H).
  unfold Qeq, inject_Z. cbn [Qnum Qden].
  rewrite Zpos_of_nat by (destruct l; [contradiction | cbn; lia]).
  lia.
Qed.

Lemma dropna_all_same (w : list (option Z)) (d : Z) :
  Forall (eq (Some d)) w -> Forall (eq d) (dropna w) /\ (w <> [] -> dropna w <> []).
Proof.
  intros H. induction H as [|x w Hx Hw [IH1 IH2]].
  - split; [constructor | intros E; now contradiction E].
  - subst x. cbn. split; [now constructor | discriminate].
Qed.

Lemma inject_Z_eq (a b : Z) : (inject_Z a == inject_Z b)%Q -> a = b.
Proof. unfold Qeq, inject_Z. cbn. lia. Qed.

Lemma dropna_Forall (P : Z -> Prop) (w : list (option Z)) :
  whole_days P w -> Forall P (dropna w).
Proof.
  intros H. induction H as [|x w Hx Hw IH]; cbn; [constructor|].
  destruct x as [d|]; cbn; [|exact IH].
  constructor; [now apply Hx | exact IH].
Qed.

Lemma dropna_length (w : list (option Z)) :
  (List.length (dropna w) <= List.length w)%nat.
Proof.
  induction w as [|x w IH]; [cbn; lia|].
  change (dropna (x :: w)) with ((match x with Some v => [v] | None => [] end)
                                 ++ dropna w).
  destruct x; cbn [app List.length]; lia.
Qed.

Lemma timedelta_days_sum (D : list Z) :
  Forall timedelta_days D ->
  (sum (map Z.abs D) <= 106752 * Z.of_nat (List.length D))%Z.
Proof.
  induction 1 as [|x D [H0 H1] _ IH]; [cbn; lia|].
  cbn [map List.length]. rewrite sum_cons. lia.
Qed.

Lemma zero_factors :
  fsub (of_Z 1) (Fin 0) = Fin 1 /\ fadd (of_Z 1) (Fin 0) = Fin 1.
Proof. split; vm_compute; reflexivity. Qed.

(** With tolerance 0, a number of days passes the test exactly when it is
    the average of the window. *)
Lemma zero_band (D : list Z) (d : Z) :
  D <> [] -> (List.length D <= 3)%nat ->
  Forall timedelta_days D -> timedelta_days d ->
  (in_float_band D (Fin 0) d <-> inject_Z d == average D).
Proof.
  intros Hne Hlen HD Hd.
  pose proof (timedelta_days_sum D HD) as Hsum.
  assert (Hin : forall x, In x D -> (-106752 <= x <= 106751)%Z)
    by (now apply Forall_forall).
  destruct (average_bounds D _ _ Hne Hin) as [A1 A2].
  unfold in_float_band, lower_bound, upper_bound.
  destruct zero_factors as [E1 E2]. rewrite E1, E2.
  rewrite mean_exact by (assumption || lia).
  destruct (rnd_between (average D) (-106752) 106751
              ltac:(lia) ltac:(lia) (conj A1 A2)) as [a [Ea [Ba1 Ba2]]].
  rewrite Ea. cbn [fmul].
  assert (Em : a * 1 == a) by ring. rewrite (rnd_eq _ _ Em).
  destruct (rnd_between a (-106752) 106751
              ltac:(lia) ltac:(lia) (conj Ba1 Ba2)) as [b [Eb _]].
  rewrite Eb.
  destruct (of_Z_exact d ltac:(unfold timedelta_days in Hd; lia))
    as [dv [Ed Edv]].
  rewrite Ed, !fle_Fin.
  (* a rational [q] of the range that rounds to [v] rounds again to what
     [v] rounds to, and [d] is a double *)
  assert (Hd4 : forall c : Z,
            (c = 4 * d - 1)%Z \/ (c = 4 * d + 1)%Z ->
            exists w, rnd (inject_Z c * pow2 (-2)) = Fin w /\
                      w == inject_Z c * pow2 (-2)).
  { intros c Hc. apply rnd_exact;
      [unfold timedelta_days in Hd; lia | unfold emin; lia]. }
  split.
  - intros [H1 H2]. assert (Ebd : b == inject_Z d) by lra.
    (* were the average off [d], it would be off by a third at least *)
    pose proof (average_div D Hne) as Eavg.
    set (n := Z.of_nat (List.length D)) in *. set (S := sum D) in *.
    assert (Hn : (1 <= n <= 3)%Z)
      by (unfold n; destruct D; [contradiction | cbn [List.length] in *; lia]).
    assert (Hnq : 0 < inject_Z n)
      by (change 0 with (inject_Z 0); rewrite <- Zlt_Qlt; lia).
    destruct (Z.lt_trichotomy S (n * d)) as [Hlt|[Heq|Hgt]].
    + exfalso.
      assert (Hq : average D <= inject_Z (4 * d - 1) * pow2 (-2)).
      { rewrite Eavg. apply Qle_shift_div_r; [exact Hnq|].
        change (pow2 (-2)) with (1 # 4).
        assert (G : inject_Z (4 * S) <= inject_Z ((4 * d - 1) * n))
          by (rewrite <- Zle_Qle; lia).
        rewrite !inject_Z_mult in G. change (inject_Z 4) with 4 in G. lra. }
      destruct (Hd4 (4 * d - 1)%Z ltac:(now left)) as [w [Ew Ewv]].
      pose proof (rnd_le _ _ Hq) as R1. rewrite Ea, Ew in R1.
      apply fle_Fin in R1.
      assert (Hq2 : a <= inject_Z (4 * d - 1) * pow2 (-2)) by lra.
      pose proof (rnd_le _ _ Hq2) as R2. rewrite Eb, Ew in R2.
      apply fle_Fin in R2.
      unfold Z.sub in Ewv. rewrite inject_Z_plus, inject_Z_mult in Ewv.
      rewrite inject_Z_opp in Ewv.
      change (inject_Z 4) with 4 in Ewv. change (inject_Z 1) with 1 in Ewv.
      change (pow2 (-2)) with (1 # 4) in Ewv. lra.
    + rewrite Eavg.
      assert (G : inject_Z S == inject_Z n * inject_Z d)
        by (rewrite <- inject_Z_mult, Heq; reflexivity).
      rewrite G. field. lra.
    + exfalso.
      assert (Hq : inject_Z (4 * d + 1) * pow2 (-2) <= average D).
      { rewrite Eavg. apply Qle_shift_div_l; [exact Hnq|].
        change (pow2 (-2)) with (1 # 4).
        assert (G : inject_Z ((4 * d + 1) * n) <= inject_Z (4 * S))
          by (rewrite <- Zle_Qle; lia).
        rewrite !inject_Z_mult in G. change (inject_Z 4) with 4 in G. lra. }
      destruct (Hd4 (4 * d + 1)%Z ltac:(now right)) as [w [Ew Ewv]].
      pose proof (rnd_le _ _ Hq) as R1. rewrite Ea, Ew in R1.
      apply fle_Fin in R1.
      assert (Hq2 : inject_Z (4 * d + 1) * pow2 (-2) <= a) by lra.
      pose proof (rnd_le _ _ Hq2) as R2. rewrite Eb, Ew in R2.
      apply fle_Fin in R2.
      rewrite inject_Z_plus, inject_Z_mult in Ewv.
      change (inject_Z 4) with 4 in Ewv. change (inject_Z 1) with 1 in Ewv.
      change (pow2 (-2)) with (1 # 4) in Ewv. lra.
  - intros E.
    assert (Ea' : rnd (average D) = Fin dv).
    { rewrite <- (rnd_eq (inject_Z d) (average D) E). exact Ed. }
    rewrite Ea in Ea'. injection Ea' as Ea'. subst a.
    assert (Eb' : rnd dv = Fin dv).
    { rewrite (rnd_eq dv (inject_Z d) Edv). exact Ed. }
    rewrite Eb in Eb'. injection Eb' as Eb'. subst b. lra.
Qed.

(** X2.  With tolerance 0 a frame is accepted exactly when the cells of the
    window of the last three are all defined and all equal (the numbers in
    the window being whole days that a [Timedelta] can hold). *)
Theorem zero_tolerance_all_equal (df : DataFrame) :
  has_column df "daydelta_int" = true ->
  let w := last_n 3 (map daydelta_int (rows df)) in
  whole_days timedelta_days w ->
  is_recurring df (Fin 0) = Ok true <->
  (forall x, In x w -> x <> None) /\
  (forall x y, In x w -> In y w -> x = y).
Proof.
  intros Hc w Hdays.
  pose proof (is_recurring_window df (Fin 0) Hc) as Hiff.
  rewrite Hiff. unfold window_in_band. fold w. rewrite Forall_forall.
  pose proof (dropna_Forall _ w Hdays) as HD.
  assert (Hlen : (List.length (dropna w) <= 3)%nat).
  { pose proof (dropna_length w). pose proof (last_n_short 3 (map daydelta_int (rows df))).
    fold w in H0. lia. }
  assert (Hband : forall d, In (Some d) w ->
            (in_float_band (dropna w) (Fin 0) d <->
             inject_Z d == average (dropna w))).
  { intros d Hd. apply zero_band; try assumption.
    - apply dropna_In in Hd. intros E. rewrite E in Hd. exact Hd.
    - unfold whole_days in Hdays. rewrite Forall_forall in Hdays.
      now apply (Hdays (Some d)). }
  split.
  - intros H. split.
    + intros x Hx E. destruct (H x Hx) as [d [Ed _]]. congruence.
    + intros x y Hx Hy.
      destruct (H x Hx) as [d [Ed Hd]]. destruct (H y Hy) as [d' [Ed' Hd']].
      subst x y. apply Hband in Hd; [|exact Hx]. apply Hband in Hd'; [|exact Hy].
      f_equal. apply inject_Z_eq. now rewrite Hd, Hd'.
  - intros [Hdef Hsame] x Hx.
    destruct x as [d|]; [|now contradiction (Hdef None Hx)].
    exists d. split; [reflexivity|]. apply Hband; [exact Hx|].
    assert (Hall : Forall (eq (Some d)) w).
    { apply Forall_forall. intros y Hy. now apply Hsame. }
    destruct (dropna_all_same w d Hall) as [H1 H2].
    symmetry. apply average_all_same; [|exact H1].
    apply H2. intros E. rewrite E in Hx. exact Hx.
Qed.

Lemma zero_tolerance_all_equal_witness :
  let df := frame_of (@group_after_daydelta stable_sort four_payments
                        (lit "spotify debit")) in
  let w := last_n 3 (map daydelta_int (rows df)) in
  is_recurring df (Fin 0) = Ok true <->
  (forall x, In x w -> x <> None) /\
  (forall x y, In x w -> In y w -> x = y).
Proof.
  apply (zero_tolerance_all_equal
           (frame_of (@group_after_daydelta stable_sort four_payments
                        (lit "spotify debit")))).
  - vm_compute. reflexivity.
  - assert (E : last_n 3 (map daydelta_int
                  (rows (frame_of (@group_after_daydelta stable_sort
                                     four_payments (lit "spotify debit")))))
                = [Some 31; Some 31; Some 30]%Z) by (vm_compute; reflexivity).
    rewrite E. unfold whole_days.
    repeat (apply Forall_cons;
            [intros d H; injection H as H; subst d; unfold timedelta_days; lia|]).
    apply Forall_nil.
Defined.

Lemma moderate_finite (t : float) :
  moderate t -> exists q, t = Fin q /\ Qabs q <= pow2 1000.
Proof.
  intros [H1 H2]. destruct (fle_between _ _ _ H1 H2) as [q [E B]].
  exists q. split; [exact E|]. now apply Qabs_Qle_condition.
Qed.

(** X3.  Widening the tolerance never turns an accepted frame into a refused
    one, when the deltas of the window are numbers of days from a date to a
    later one (as the deltas of date-ordered rows are) and the tolerances
    are finite doubles of moderate size. *)
Theorem wider_tolerance_accepts (df : DataFrame) (t t' : float) :
  has_column df "daydelta_int" = true ->
  moderate t -> moderate t' -> fle t t' = true ->
  whole_days day_count (last_n 3 (map daydelta_int (rows df))) ->
  is_recurring df t = Ok true ->
  is_recurring df t' = Ok true.
Proof.
  intros Hc Mt Mt' Ht Hpos.
  pose proof (is_recurring_window df t Hc) as H1.
  pose proof (is_recurring_window df t' Hc) as H2.
  rewrite H1, H2. unfold window_in_band.
  set (w := last_n 3 (map daydelta_int (rows df))) in *.
  intros Hall. rewrite Forall_forall in *. intros x Hx.
  destruct (Hall x Hx) as [d [Ex [Hlo Hhi]]]. subst x.
  exists d. split; [reflexivity|].
  pose proof (dropna_Forall _ w Hpos) as HD.
  set (D := dropna w) in *.
  assert (Hne : D <> []).
  { apply dropna_In in Hx. fold D in Hx. intros E. rewrite E in Hx. exact Hx. }
  assert (Hlen : (List.length D <= 3)%nat).
  { pose proof (dropna_length w).
    pose proof (last_n_short 3 (map daydelta_int (rows df))) as Hs.
    fold w in Hs. unfold D. lia. }
  destruct (day_counts_sum D HD) as [Habs Hsum].
  assert (Hin : forall x, In x D -> (0 <= x <= 106751)%Z)
    by (now apply Forall_forall).
  destruct (average_bounds D _ _ Hne Hin) as [A1 A2].
  destruct (rnd_between (average D) 0 106751
              ltac:(lia) ltac:(lia) (conj A1 A2)) as [a [Ea [Ba1 Ba2]]].
  change (inject_Z 0) with 0 in Ba1.
  destruct (moderate_finite t Mt) as [q [Eq Bq]].
  destruct (moderate_finite t' Mt') as [q' [Eq' Bq']].
  subst t t'. apply fle_Fin in Ht.
  unfold in_float_band, lower_bound, upper_bound in *.
  rewrite mean_exact in * by (assumption || lia).
  rewrite Ea, of_Z_one in *. cbn [fsub fadd fneg] in *.
  assert (P : pow2 1000 + 1 <= pow2 1023) by (vm_compute; discriminate).
  apply Qabs_Qle_condition in Bq. apply Qabs_Qle_condition in Bq'.
  destruct (rnd_finite (1 + - q)) as [l El];
    [apply Qabs_Qle_condition; lra|].
  destruct (rnd_finite (1 + - q')) as [l' El'];
    [apply Qabs_Qle_condition; lra|].
  destruct (rnd_finite (1 + q)) as [u Eu];
    [apply Qabs_Qle_condition; lra|].
  destruct (rnd_finite (1 + q')) as [u' Eu'];
    [apply Qabs_Qle_condition; lra|].
  assert (Ll : l' <= l).
  { apply fle_Fin. rewrite <- El, <- El'. apply rnd_le. lra. }
  assert (Lu : u <= u').
  { apply fle_Fin. rewrite <- Eu, <- Eu'. apply rnd_le. lra. }
  rewrite El, Eu in *. rewrite El', Eu'. cbn [fmul] in *.
  split.
  - apply fle_trans with (rnd (a * l)); [|exact Hlo]. apply rnd_le. nra.
  - apply fle_trans with (rnd (a * u)); [exact Hhi|]. apply rnd_le. nra.
Qed.

Lemma wider_tolerance_accepts_witness :
  is_recurring
    (frame_of (@group_after_daydelta stable_sort four_payments
                 (lit "spotify debit"))) (Fin (1 # 2)) = Ok true.
Proof.
  apply (wider_tolerance_accepts
           (frame_of (@group_after_daydelta stable_sort four_payments
                        (lit "spotify debit"))) default_tolerance (Fin (1 # 2))).
  - vm_compute. reflexivity.
  - split; vm_compute; reflexivity.
  - split; vm_compute; reflexivity.
  - vm_compute. reflexivity.
  - assert (E : last_n 3 (map daydelta_int
                  (rows (frame_of (@group_after_daydelta stable_sort
                                     four_payments (lit "spotify debit")))))
                = [Some 31; Some 31; Some 30]%Z) by (vm_compute; reflexivity).
    rewrite E. unfold whole_days.
    repeat (apply Forall_cons;
            [intros d H; injection H as H; subst d; unfold day_count; lia|]).
    apply Forall_nil.
  - vm_compute. reflexivity.
Defined.

(** ** What a loop that ends keeps *)

Lemma for_each_kept {A S : Type} (P : S -> Prop) (l : list A) (s s' : S)
  (body : S -> A -> result S) :
  for_each l s body = Ok s' ->
  P s ->
  (forall s a s1, In a l -> P s -> body s a = Ok s1 -> P s1) ->
  P s'.
Proof.
  revert s. induction l as [|a l IH]; intros s E Hs Hbody; simpl in E.
  - injection E as E. now subst s'.
  - destruct (body s a) as [s1|e] eqn:E1; cbn [bind] in E; [|discriminate].
    apply (IH s1 E).
    + apply (Hbody s a s1); [now left | assumption | assumption].
    + intros s2 b s3 Hb. apply Hbody. now right.
Qed.

Lemma bind_ok {A B : Type} (m : result A) (k : A -> result B) (b : B) :
  bind m k = Ok b -> exists a, m = Ok a /\ k a = Ok b.
Proof.
  destruct m as [a|e]; cbn; [|discriminate]. intros H. now exists a.
Qed.

Lemma column_ok_inv {A : Type} (df : DataFrame) (c : string) (get : Row -> A)
  (l : list A) :
  column df c get = Ok l -> has_column df c = true /\ l = map get (rows df).
Proof.
  unfold column. destruct (has_column df c); [|discriminate].
  intros H. injection H as H. now split.
Qed.

Section Frames.

Context {SV : SortValues}.

Lemma get_subdf_rows (df : DataFrame) (kw : str) (g : DataFrame) :
  get_subdf df kw = Ok g ->
  columns g = columns df /\
  rows g = sort_values (filter (fun r => Text.eqb (keyword r) kw) (rows df)).
Proof.
  unfold get_subdf. intros H.
  apply bind_ok in H. destruct H as [? [_ H]].
  apply bind_ok in H. destruct H as [? [_ H]].
  injection H as H. subst g. now split.
Qed.

Lemma in_subdf (df : DataFrame) (kw : str) (g : DataFrame) (r : Row) :
  get_subdf df kw = Ok g ->
  (In r (rows g) <-> In r (rows df) /\ keyword r = kw).
Proof.
  intros H. apply get_subdf_rows in H. destruct H as [_ H]. rewrite H.
  rewrite <- text_eqb_eq, <- (filter_In (fun r => Text.eqb (keyword r) kw)).
  split; apply Permutation_in; [symmetry|]; apply sort_values_perm.
Qed.

End Frames.

(** ** The deltas of one group *)

Lemma set_daydelta_combine {A : Type} (f : Row -> A) (process : list Row)
  (prev : option Z) :
  (forall v r, f (set_daydelta v r) = f r) ->
  map f
    (map (fun p : Row * option Z => set_daydelta (snd p) (fst p))
       (combine process (shift_diff prev (map made_on process)))) =
  map f process.
Proof.
  intros Hf. revert prev.
  induction process as [|p ps IH]; intros prev; [reflexivity|].
  cbn. rewrite Hf. f_equal. apply IH.
Qed.

Lemma daydelta_combine (process : list Row) (prev : option Z) :
  map daydelta
    (map (fun p : Row * option Z => set_daydelta (snd p) (fst p))
       (combine process (shift_diff prev (map made_on process)))) =
  shift_diff prev (map made_on process).
Proof.
  revert prev. induction process as [|p ps IH]; intros prev; [reflexivity|].
  cbn. f_equal. apply IH.
Qed.

Lemma shift_diff_not_negative (dates : list Z) (prev : option Z) :
  Sorted Z.le dates ->
  (forall p d, prev = Some p -> hd_error dates = Some d -> (p <= d)%Z) ->
  Forall not_negative (shift_diff prev dates).
Proof.
  intros Hs. revert prev.
  induction Hs as [|d dates Hs IH Hhd]; intros prev Hp; [constructor|].
  cbn. constructor.
  - intros x Ex. destruct prev as [p|]; [|discriminate].
    injection Ex as Ex. specialize (Hp p d eq_refl eq_refl). lia.
  - apply IH. intros p d' Ep Ed. injection Ep as Ep. subst p.
    destruct dates as [|d2 dates]; [discriminate|].
    injection Ed as Ed. subst d2. now inversion Hhd.
Qed.

Lemma last_cons (dates : list Z) (d p : Z) :
  last (d :: dates) p = last dates d.
Proof.
  revert d p. induction dates as [|x l IH]; intros d p; [reflexivity|].
  change (last (d :: x :: l) p) with (last (x :: l) p).
  rewrite IH. symmetry. apply IH.
Qed.

Lemma shift_diff_sum (dates : list Z) (p : Z) :
  sum (dropna (shift_diff (Some p) dates)) = (last dates p - p)%Z.
Proof.
  revert p. induction dates as [|d dates IH]; intros p; [cbn; lia|].
  cbn [shift_diff dropna flat_map app sum fold_right].
  change (fold_right Z.add 0%Z (dropna (shift_diff (Some d) dates)))
    with (sum (dropna (shift_diff (Some d) dates))).
  rewrite IH, last_cons. lia.
Qed.

Lemma sorted_dates (l : list Row) :
  Sorted (fun a b => (made_on a <= made_on b)%Z) l ->
  Sorted Z.le (map made_on l).
Proof.
  intros H. induction H as [|r l Hs IH Hhd]; cbn; [constructor|].
  constructor; [exact IH|].
  destruct Hhd; cbn; constructor. assumption.
Qed.

Section DayDelta.

Context {SV : SortValues}.

Lemma daydelta_frame_facts (df out : DataFrame) :
  daydelta_frame df = Ok out ->
  Permutation (map index (rows df)) (map index (rows out)) /\
  Sorted Z.le (map made_on (rows out)) /\
  map daydelta (rows out) = shift_diff None (map made_on (rows out)) /\
  Forall not_negative (map daydelta (rows out)) /\
  sum (dropna (map daydelta (rows out))) = span (map made_on (rows out)).
Proof.
  unfold daydelta_frame. intros H.
  apply bind_ok in H. destruct H as [? [_ H]]. injection H as H. subst out.
  cbn [rows]. set (process := sort_values (rows df)).
  rewrite daydelta_combine.
  rewrite !(set_daydelta_combine _ process None) by reflexivity.
  assert (Hs : Sorted Z.le (map made_on process))
    by apply sorted_dates, sort_values_sorted.
  split; [apply Permutation_map, sort_values_perm|].
  split; [exact Hs|]. split; [reflexivity|]. split.
  - apply shift_diff_not_negative; [exact Hs | discriminate].
  - destruct (map made_on process) as [|d dates]; [reflexivity|].
    cbn [shift_diff dropna flat_map app span]. apply shift_diff_sum.
Qed.


End DayDelta.


(** ** What the annotation steps keep *)

Lemma loc_set_daydelta_fixed (s : DataFrame) (i : nat) (v : option Z) :
  map fixed_fields (rows (loc_set_daydelta s i v)) = map fixed_fields (rows s).
Proof.
  unfold loc_set_daydelta. cbn [rows].
  destruct (has_column s "daydelta"); rewrite ?map_map;
    apply map_ext; intros r; cbn;
    destruct (index r =? i)%nat; reflexivity.
Qed.

Lemma write_back_fixed (l : list Row) (s : DataFrame) :
  map fixed_fields (rows (write_back l s)) = map fixed_fields (rows s).
Proof.
  revert s. induction l as [|p l IH]; intros s; [reflexivity|].
  unfold write_back in *. cbn [fold_left].
  rewrite IH. apply loc_set_daydelta_fixed.
Qed.

Lemma loc_set_recurring_fixed (s : DataFrame) (labels : list nat) :
  map fixed_fields (rows (loc_set_recurring s labels)) =
  map fixed_fields (rows s).
Proof.
  unfold loc_set_recurring. cbn [rows].
  destruct (has_column s "recurring"); rewrite ?map_map;
    apply map_ext; intros r; cbn;
    destruct (existsb (Nat.eqb (index r)) labels); reflexivity.
Qed.

Section Kept.

Context {SV : SortValues}.

Lemma daydelta_body_written (s s1 : DataFrame) (a : str) :
  daydelta_body s a = Ok s1 ->
  exists g out,
    get_subdf s a = Ok g /\ daydelta_frame g = Ok out /\
    s1 = write_back (rows out) s.
Proof.
  unfold daydelta_body. intros H.
  apply bind_ok in H. destruct H as [g [Eg H]].
  apply bind_ok in H. destruct H as [out [Eo H]].
  injection H as H. exists g, out. now repeat split.
Qed.

Lemma calculate_daydelta_fixed (df df1 : DataFrame) :
  calculate_daydelta df = Ok df1 ->
  map fixed_fields (rows df1) = map fixed_fields (rows df).
Proof.
  unfold calculate_daydelta. intros H.
  apply bind_ok in H. destruct H as [keys [Ek H]].
  apply bind_ok in H. destruct H as [s [Es H]].
  apply bind_ok in H. destruct H as [? [_ H]].
  apply bind_ok in H. destruct H as [u [_ H]].
  injection H as H. subst df1. cbn [rows]. rewrite map_map.
  apply (for_each_kept
           (fun s => map fixed_fields (rows s) = map fixed_fields (rows df)))
    in Es.
  - rewrite <- Es. apply map_ext. reflexivity.
  - reflexivity.
  - intros s0 a s1 _ Hs0 Hb.
    apply daydelta_body_written in Hb. destruct Hb as [g [out [_ [_ E]]]].
    subst s1. now rewrite write_back_fixed.
Qed.

Lemma recurring_body_cases (s s1 : DataFrame) (a : str) :
  recurring_body s a = Ok s1 ->
  exists g b,
    get_subdf s a = Ok g /\ is_recurring g default_tolerance = Ok b /\
    s1 = if b then loc_set_recurring s (map index (rows g)) else s.
Proof.
  unfold recurring_body. intros H.
  apply bind_ok in H. destruct H as [g [Eg H]].
  apply bind_ok in H. destruct H as [b [Eb H]].
  exists g, b. split; [exact Eg|]. split; [exact Eb|].
  destruct b; now injection H.
Qed.

Lemma calculate_recurring_fixed (df df1 : DataFrame) :
  calculate_recurring df = Ok df1 ->
  map fixed_fields (rows df1) = map fixed_fields (rows df).
Proof.
  unfold calculate_recurring. intros H.
  apply bind_ok in H. destruct H as [keys [Ek H]].
  apply bind_ok in H. destruct H as [s [Es H]].
  apply bind_ok in H. destruct H as [? [_ H]].
  injection H as H. subst df1. cbn [rows]. rewrite map_map.
  apply (for_each_kept
           (fun s => map fixed_fields (rows s) = map fixed_fields (rows df)))
    in Es.
  - rewrite <- Es. apply map_ext. intros r.
    destruct (recurring r); reflexivity.
  - reflexivity.
  - intros s0 a s1 _ Hs0 Hb.
    apply recurring_body_cases in Hb. destruct Hb as [g [b [_ [_ E]]]].
    subst s1. destruct b; [now rewrite loc_set_recurring_fixed | exact Hs0].
Qed.

Lemma annotate_rows (df df4 : DataFrame) :
  well_formed_input df = true ->
  annotate df = Ok df4 ->
  map input_fields (rows df4) = map input_fields (rows df) /\
  Forall
    (fun r =>
       type_ r = direction_label (income r) /\
       clean_desc r = clean_text (original_description r) /\
       keyword r = make_keyword (clean_desc r) (type_ r))
    (rows df4).
Proof.
  intros Hwf H. unfold annotate, up_to_daydelta in H.
  apply bind_ok in H. destruct H as [df3 [H3 H4]].
  apply bind_ok in H3. destruct H3 as [df1 [H1 H3]].
  apply bind_ok in H3. destruct H3 as [df2 [H2 H3]].
  assert (E2 : (d <- clean_dataframe df ;; clean_description d) = Ok df2)
    by (rewrite H1; exact H2).
  apply calculate_daydelta_fixed in H3.
  apply calculate_recurring_fixed in H4.
  assert (Hfix : map fixed_fields (rows df4) = map fixed_fields (rows df2))
    by congruence.
  assert (Hin : forall a b : list Row,
             map fixed_fields a = map fixed_fields b ->
             map input_fields a = map input_fields b).
  { intros a b E.
    apply (f_equal (map (fun t : nat * Z * str * Z * bool * str * str * str =>
                           let '(i, d, o, c, n, _, _, _) := t in
                           (i, d, o, c, n)))) in E.
    rewrite !map_map in E. exact E. }
  split.
  - rewrite (Hin _ _ Hfix).
    rewrite (clean_dataframe_ok df Hwf) in E2. cbn [bind] in E2.
    unfold clean_description in E2.
    apply bind_ok in E2. destruct E2 as [? [_ E2]].
    apply bind_ok in E2. destruct E2 as [? [_ E2]].
    injection E2 as E2. subst df2. cbn [rows]. rewrite !map_map.
    apply map_ext. reflexivity.
  - apply Forall_forall. intros r Hr.
    apply (in_map fixed_fields) in Hr. rewrite Hfix in Hr.
    apply in_map_iff in Hr. destruct Hr as [r2 [E Hr2]].
    destruct (cleaned_rows df df2 Hwf E2 r2 Hr2) as [Ht [Hc Hk]].
    unfold fixed_fields in E. injection E as E1 E2' E3 E4 E5 E6 E7 E8.
    repeat split; congruence.
Qed.


(** X5.  The annotation steps neither drop, nor repeat, nor reorder, nor alter
    the transactions they are given; and in the annotated frame the columns
    ['type'], ['clean_desc'] and ['keyword'] hold, row by row, what the
    cleaning steps computed from the description and the direction. *)
Theorem annotate_keeps_transactions (df df4 : DataFrame) :
  well_formed_input df = true ->
  annotate df = Ok df4 ->
  map input_fields (rows df4) = map input_fields (rows df) /\
  Forall
    (fun r =>
       type_ r = direction_label (income r) /\
       clean_desc r = clean_text (original_description r) /\
       keyword r = make_keyword (clean_desc r) (type_ r))
    (rows df4).
Proof. apply annotate_rows. Qed.

End Kept.

Lemma annotate_keeps_transactions_witness :
  let df4 := frame_of (@annotate stable_sort mixed_payments) in
  map input_fields (rows df4) = map input_fields (rows mixed_payments) /\
  Forall
    (fun r =>
       type_ r = direction_label (income r) /\
       clean_desc r = clean_text (original_description r) /\
       keyword r = make_keyword (clean_desc r) (type_ r))
    (rows df4).
Proof.
  apply (@annotate_keeps_transactions stable_sort mixed_payments).
  - reflexivity.
  - vm_compute. reflexivity.
Defined.

(** ** No delta is negative *)

Lemma loc_set_daydelta_not_negative (s : DataFrame) (i : nat) (v : option Z) :
  (has_column s "daydelta" = true ->
   Forall (fun r => not_negative (daydelta r)) (rows s)) ->
  not_negative v ->
  Forall (fun r => not_negative (daydelta r)) (rows (loc_set_daydelta s i v)).
Proof.
  intros Hs Hv. unfold loc_set_daydelta. cbn [rows].
  apply Forall_forall. intros r Hr. apply in_map_iff in Hr.
  destruct Hr as [r0 [E Hr0]].
  assert (H0 : not_negative (daydelta r0)).
  { destruct (has_column s "daydelta").
    - specialize (Hs eq_refl). rewrite Forall_forall in Hs. now apply Hs.
    - apply in_map_iff in Hr0. destruct Hr0 as [r1 [E1 _]]. subst r0.
      intros d Hd. discriminate. }
  destruct (index r0 =? i)%nat; subst r; [exact Hv | exact H0].
Qed.

Lemma write_back_not_negative (l : list Row) (s : DataFrame) :
  Forall (fun r => not_negative (daydelta r)) l ->
  (has_column s "daydelta" = true ->
   Forall (fun r => not_negative (daydelta r)) (rows s)) ->
  has_column (write_back l s) "daydelta" = true ->
  Forall (fun r => not_negative (daydelta r)) (rows (write_back l s)).
Proof.
  intros Hl. revert s. induction Hl as [|p l Hp Hl IH]; intros s Hs Hc.
  - now apply Hs.
  - unfold write_back in *. cbn [fold_left] in *.
    apply IH; [|exact Hc].
    intros _. now apply loc_set_daydelta_not_negative.
Qed.

Section NotNegative.

Context {SV : SortValues}.

Lemma calculate_daydelta_not_negative (df df1 : DataFrame) :
  has_column df "daydelta" = false ->
  calculate_daydelta df = Ok df1 ->
  Forall (fun r => daydelta_int r = daydelta r /\ not_negative (daydelta_int r))
    (rows df1).
Proof.
  intros Hno H. unfold calculate_daydelta in H.
  apply bind_ok in H. destruct H as [keys [Ek H]].
  apply bind_ok in H. destruct H as [s [Es H]].
  apply bind_ok in H. destruct H as [? [Hc H]].
  apply column_ok_inv in Hc. destruct Hc as [Hc _].
  apply bind_ok in H. destruct H as [u [_ H]].
  injection H as H. subst df1. cbn [rows].
  assert (HP : has_column s "daydelta" = true ->
               Forall (fun r => not_negative (daydelta r)) (rows s)).
  { apply (for_each_kept
             (fun s => has_column s "daydelta" = true ->
                       Forall (fun r => not_negative (daydelta r)) (rows s))
             _ _ _ _ Es).
    - intros Hyes. congruence.
    - intros s0 a s1 _ Hs0 Hb Hc1.
      apply daydelta_body_written in Hb. destruct Hb as [g [out [_ [Eo E]]]].
      subst s1. apply write_back_not_negative; try assumption.
      destruct (daydelta_frame_facts g out Eo) as [_ [_ [_ [Hnn _]]]].
      rewrite Forall_map in Hnn. exact Hnn. }
  specialize (HP Hc). apply Forall_forall. intros r Hr.
  apply in_map_iff in Hr. destruct Hr as [r0 [E Hr0]]. subst r. cbn.
  split; [reflexivity|]. rewrite Forall_forall in HP. now apply HP.
Qed.

(** X6.  After [calculate_daydelta] no delta is negative, and ['daydelta_int']
    repeats ['daydelta'] row by row. *)
Theorem deltas_never_negative (df df1 : DataFrame) :
  well_formed_input df = true ->
  up_to_daydelta df = Ok df1 ->
  Forall (fun r => daydelta_int r = daydelta r /\ not_negative (daydelta_int r))
    (rows df1).
Proof.
  intros Hwf H.
  destruct (clean_steps_ok df Hwf) as [df2 [E2 [_ [_ [_ [Hd _]]]]]].
  unfold up_to_daydelta in H.
  destruct (clean_dataframe df) as [dfa|e]; cbn [bind] in *; [|discriminate].
  rewrite E2 in H. cbn [bind] in H.
  now apply (calculate_daydelta_not_negative df2).
Qed.

End NotNegative.

Lemma deltas_never_negative_witness :
  Forall (fun r => daydelta_int r = daydelta r /\ not_negative (daydelta_int r))
    (rows (frame_of (@up_to_daydelta stable_sort mixed_payments))).
Proof.
  apply (@deltas_never_negative stable_sort mixed_payments).
  - reflexivity.
  - vm_compute. reflexivity.
Defined.

(** ** One undefined delta for each keyword *)

Lemma loc_set_daydelta_from (s : DataFrame) (i : nat) (v : option Z) (r : Row) :
  In r (rows (loc_set_daydelta s i v)) ->
  exists r0, In r0 (rows s) /\ index r0 = index r /\ keyword r0 = keyword r /\
    (has_column s "daydelta" = true -> index r <> i -> r = r0) /\
    (index r = i -> daydelta r = v).
Proof.
  unfold loc_set_daydelta. cbn [rows]. intros H.
  apply in_map_iff in H. destruct H as [r1 [E H1]].
  destruct (has_column s "daydelta").
  - exists r1. split; [exact H1|].
    destruct (index r1 =? i)%nat eqn:Ei; subst r; cbn.
    + apply Nat.eqb_eq in Ei. repeat split; try reflexivity.
      intros _ Hne. contradiction.
    + apply Nat.eqb_neq in Ei. repeat split; try reflexivity.
      intros Hi. contradiction.
  - apply in_map_iff in H1. destruct H1 as [r0 [E0 H0]].
    exists r0. split; [exact H0|]. subst r1.
    cbn in E. destruct (index r0 =? i)%nat eqn:Ei; subst r; cbn.
    + apply Nat.eqb_eq in Ei. repeat split; try reflexivity.
      intros Hd. discriminate.
    + apply Nat.eqb_neq in Ei. repeat split; try reflexivity.
      * intros Hd. discriminate.
      * intros Hi. contradiction.
Qed.

Lemma loc_set_only_undefined (s : DataFrame) (i j : nat) (v : option Z) (k : str) :
  has_column s "daydelta" = true ->
  (forall r, In r (rows s) -> keyword r = k -> index r <> i) ->
  only_undefined_at s j k ->
  only_undefined_at (loc_set_daydelta s i v) j k.
Proof.
  intros Hc Hlab [Hu Hrest]. split.
  - apply loc_set_daydelta_other; [|exact Hu].
    destruct Hu as [r [Hr [Hj [Hk _]]]]. subst j. intros E.
    apply (Hlab r Hr Hk). now symmetry.
  - intros r Hr Hk Hj.
    destruct (loc_set_daydelta_from s i v r Hr) as [r0 [H0 [Ei [Ek [Hsame _]]]]].
    assert (Hne : index r <> i).
    { rewrite <- Ei. apply Hlab; [exact H0 | congruence]. }
    rewrite (Hsame Hc Hne). apply Hrest; congruence.
Qed.

Lemma write_back_has (l : list Row) (s : DataFrame) :
  has_column s "daydelta" = true ->
  has_column (write_back l s) "daydelta" = true.
Proof.
  intros H. unfold write_back. rewrite fold_loc_set_daydelta_has, H. reflexivity.
Qed.

Lemma write_back_only_undefined (l : list Row) (s : DataFrame) (j : nat) (k : str) :
  has_column s "daydelta" = true ->
  (forall r, In r (rows s) -> keyword r = k -> ~ In (index r) (map index l)) ->
  only_undefined_at s j k ->
  only_undefined_at (write_back l s) j k.
Proof.
  revert s. induction l as [|p l IH]; intros s Hc Hlab H; [exact H|].
  unfold write_back in *. cbn [fold_left].
  apply IH.
  - rewrite loc_set_daydelta_has, Hc. reflexivity.
  - intros r Hr Hk Hin.
    destruct (loc_set_daydelta_from s _ _ r Hr) as [r0 [H0 [Ei [Ek _]]]].
    apply (Hlab r0 H0); [congruence|]. rewrite Ei. now right.
  - apply loc_set_only_undefined; try assumption.
    intros r Hr Hk E. apply (Hlab r Hr Hk). now left.
Qed.

Lemma write_back_delta_kept (l : list Row) (s : DataFrame) (i : nat)
  (v : option Z) :
  has_column s "daydelta" = true ->
  ~ In i (map index l) ->
  delta_at i v s -> delta_at i v (write_back l s).
Proof.
  revert s. induction l as [|p l IH]; intros s Hc Hi H; [exact H|].
  unfold write_back in *. cbn [fold_left].
  apply IH.
  - rewrite loc_set_daydelta_has, Hc. reflexivity.
  - intros Hin. apply Hi. now right.
  - intros r Hr Er.
    destruct (loc_set_daydelta_from s _ _ r Hr) as [r0 [H0 [Ei [_ [Hsame _]]]]].
    assert (Hne : index r <> index p).
    { intros E. apply Hi. left. congruence. }
    rewrite (Hsame Hc Hne). apply H; congruence.
Qed.

Lemma write_back_delta (l : list Row) (s : DataFrame) (a : Row) :
  NoDup (map index l) -> In a l ->
  delta_at (index a) (daydelta a) (write_back l s).
Proof.
  revert s. induction l as [|p l IH]; intros s Hnd Ha; [contradiction|].
  cbn [map] in Hnd. apply NoDup_cons_iff in Hnd. destruct Hnd as [Hp Hl].
  unfold write_back in *. cbn [fold_left].
  destruct Ha as [Ha|Ha].
  - subst p. apply write_back_delta_kept.
    + rewrite loc_set_daydelta_has. apply orb_true_r.
    + exact Hp.
    + intros r Hr Er.
      destruct (loc_set_daydelta_from s _ _ r Hr) as [_ [_ [_ [_ [_ Hv]]]]].
      now apply Hv.
  - now apply IH.
Qed.

Lemma shift_diff_defined (dates : list Z) (p : Z) :
  Forall (fun x => x <> None) (shift_diff (Some p) dates).
Proof.
  revert p. induction dates as [|d dates IH]; intros p; cbn; constructor.
  - discriminate.
  - apply IH.
Qed.

Lemma fixed_fields_labels (a b : list Row) :
  map fixed_fields a = map fixed_fields b ->
  map index a = map index b /\ map keyword a = map keyword b.
Proof.
  intros E. split.
  - apply (f_equal (map (fun t : nat * Z * str * Z * bool * str * str * str =>
                           let '(i, _, _, _, _, _, _, _) := t in i))) in E.
    now rewrite !map_map in E.
  - apply (f_equal (map (fun t : nat * Z * str * Z * bool * str * str * str =>
                           let '(_, _, _, _, _, _, _, k) := t in k))) in E.
    now rewrite !map_map in E.
Qed.

Lemma fixed_fields_from (a b : list Row) (r : Row) :
  map fixed_fields a = map fixed_fields b -> In r a ->
  exists r0, In r0 b /\ index r0 = index r /\ keyword r0 = keyword r.
Proof.
  intros E Hr. apply (in_map fixed_fields) in Hr. rewrite E in Hr.
  apply in_map_iff in Hr. destruct Hr as [r0 [E0 H0]].
  exists r0. split; [exact H0|].
  unfold fixed_fields in E0. injection E0 as E1 _ _ _ _ _ _ E8. now split.
Qed.

Section OneUndefined.

Context {SV : SortValues}.

Lemma daydelta_body_one_undefined (rows0 : list Row) (done : list str)
  (s s1 : DataFrame) (k' : str) :
  NoDup (map index rows0) ->
  one_undefined_inv rows0 done s ->
  ~ In k' done ->
  daydelta_body s k' = Ok s1 ->
  one_undefined_inv rows0 (k' :: done) s1.
Proof.
  intros Hnd [Hfix Hdone] Hfresh Hb.
  apply daydelta_body_written in Hb. destruct Hb as [g [out [Eg [Eo E1]]]].
  apply get_subdf_rows in Eg. destruct Eg as [_ Eg].
  unfold daydelta_frame in Eo. apply bind_ok in Eo. destruct Eo as [? [_ Eo]].
  injection Eo as Eo. rewrite Eg in Eo.
  set (grp := filter (fun r => Text.eqb (keyword r) k') (rows s)) in *.
  set (process := sort_values (sort_values grp)) in *.
  assert (EA : rows out =
               map (fun p : Row * option Z => set_daydelta (snd p) (fst p))
                 (combine process (shift_diff None (map made_on process))))
    by (subst out; reflexivity).
  clear Eo.
  destruct (fixed_fields_labels _ _ Hfix) as [Hidx Hkw].
  assert (HndS : NoDup (map index (rows s))) by (rewrite Hidx; exact Hnd).
  assert (Hproc : NoDup (map index process)).
  { unfold process.
    eapply Permutation_NoDup; [apply Permutation_map, sort_values_perm|].
    eapply Permutation_NoDup; [apply Permutation_map, sort_values_perm|].
    now apply distinct_labels_filter. }
  assert (Hlab : map index (rows out) = map index process).
  { rewrite EA. now apply set_daydelta_combine. }
  assert (Hin : forall p, In p process <-> In p (rows s) /\ keyword p = k').
  { intros p. unfold process, grp.
    rewrite <- text_eqb_eq,
      <- (filter_In (fun r => Text.eqb (keyword r) k')).
    split; intros H.
    - apply (Permutation_in _ (Permutation_sym (sort_values_perm _))) in H.
      now apply (Permutation_in _ (Permutation_sym (sort_values_perm _))) in H.
    - apply (Permutation_in _ (sort_values_perm _)).
      now apply (Permutation_in _ (sort_values_perm _)). }
  subst s1. split; [now rewrite write_back_fixed|].
  intros k [Ek|Hk] Hkin.
  - subst k. rewrite <- Hkw in Hkin. apply in_map_iff in Hkin.
    destruct Hkin as [rk [Erk Hrk]].
    assert (Hrp : In rk process) by (apply Hin; now split).
    destruct process as [|p0 ps] eqn:Ep; [contradiction|].
    cbn [map combine shift_diff fst snd] in EA.
    set (A' := map (fun p : Row * option Z => set_daydelta (snd p) (fst p))
                 (combine ps (shift_diff (Some (made_on p0)) (map made_on ps))))
      in *.
    assert (HA' : map index A' = map index ps)
      by (now apply set_daydelta_combine).
    cbn [map] in Hproc. pose proof Hproc as Hproc'.
    apply NoDup_cons_iff in Hproc'. destruct Hproc' as [Hp0 Hps].
    assert (Hp0s : In p0 (rows s) /\ keyword p0 = k')
      by (apply Hin; now left).
    rewrite EA. unfold write_back. cbn [fold_left].
    change (index (set_daydelta None p0)) with (index p0).
    change (daydelta (set_daydelta None p0)) with (@None Z).
    fold (write_back A' (loc_set_daydelta s (index p0) None)).
    split.
    { apply write_back_has. rewrite loc_set_daydelta_has. apply orb_true_r. }
    exists (index p0). split.
    + apply write_back_other; [now rewrite HA'|].
      apply loc_set_daydelta_here. exists p0. now repeat split.
    + intros r Hr Hkr Hj.
      assert (Hfix1 : map fixed_fields
                        (rows (write_back A' (loc_set_daydelta s (index p0) None)))
                      = map fixed_fields (rows s))
        by (now rewrite write_back_fixed, loc_set_daydelta_fixed).
      destruct (fixed_fields_from _ _ r Hfix1 Hr) as [r0 [H0 [Ei Ekk]]].
      assert (Hr0p : In r0 (p0 :: ps)) by (apply Hin; split; congruence).
      assert (Hidx0 : In (index r) (map index A')).
      { rewrite HA'. destruct Hr0p as [E|Hr0p].
        - subst r0. congruence.
        - rewrite <- Ei. now apply in_map. }
      apply in_map_iff in Hidx0. destruct Hidx0 as [a [Ea Ha]].
      assert (Hda : daydelta a <> None).
      { pose proof (shift_diff_defined (map made_on ps) (made_on p0)) as Hd.
        rewrite <- (daydelta_combine ps) in Hd. fold A' in Hd.
        rewrite Forall_forall in Hd. apply Hd. now apply in_map. }
      assert (Hval : delta_at (index a) (daydelta a)
                       (write_back (set_daydelta None p0 :: A') s)).
      { apply write_back_delta; [|now right].
        cbn [map]. change (index (set_daydelta None p0)) with (index p0).
        rewrite HA'. exact Hproc. }
      unfold write_back in Hval. cbn [fold_left] in Hval.
      change (index (set_daydelta None p0)) with (index p0) in Hval.
      change (daydelta (set_daydelta None p0)) with (@None Z) in Hval.
      fold (write_back A' (loc_set_daydelta s (index p0) None)) in Hval.
      rewrite (Hval r Hr (eq_sym Ea)). exact Hda.
  - destruct (Hdone k Hk Hkin) as [Hc [j Hj]].
    split; [now apply write_back_has|].
    exists j. apply write_back_only_undefined; try assumption.
    rewrite Hlab. intros r Hr Hkr Hinl.
    apply in_map_iff in Hinl. destruct Hinl as [p [Ep Hp]].
    apply Hin in Hp. destruct Hp as [Hps Hpk].
    assert (p = r) by (now apply (same_label_same_row (rows s))).
    subst p. apply Hfresh. congruence.
Qed.

Lemma daydelta_loop_one_undefined (rows0 : list Row) (l done : list str)
  (s s' : DataFrame) :
  NoDup (map index rows0) ->
  NoDup l ->
  (forall k, In k l -> ~ In k done) ->
  one_undefined_inv rows0 done s ->
  for_each l s daydelta_body = Ok s' ->
  one_undefined_inv rows0 (l ++ done) s'.
Proof.
  intros Hnd. revert done s.
  induction l as [|a l IH]; intros done s Hl Hfresh Hinv E.
  - cbn in E. injection E as E. now subst s'.
  - cbn [for_each] in E. apply bind_ok in E. destruct E as [s1 [E1 E]].
    inversion Hl as [|? ? Ha Hl']; subst.
    assert (I1 : one_undefined_inv rows0 (a :: done) s1).
    { apply (daydelta_body_one_undefined rows0 done s s1 a); try assumption.
      apply Hfresh. now left. }
    specialize (IH (a :: done) s1 Hl').
    destruct IH as [H1 H2]; try assumption.
    + intros k Hk [Eq|Hd]; [subst; contradiction|].
      apply (Hfresh k); [now right | exact Hd].
    + split; [exact H1|]. intros k Hk. apply H2.
      apply in_app_iff. cbn in Hk. rewrite in_app_iff in Hk.
      destruct Hk as [Hk|[Hk|Hk]].
      * right. now left.
      * now left.
      * right. now right.
Qed.

(** X7.  After [calculate_daydelta], on a table with distinct index labels,
    each keyword has exactly one row whose delta is undefined (the notebook's
    "1 NaT value for each unique keyword"). *)
Theorem one_undefined_delta_per_keyword (df df1 : DataFrame) :
  well_formed_input df = true ->
  NoDup (map index (rows df)) ->
  up_to_daydelta df = Ok df1 ->
  forall r0, In r0 (rows df1) ->
    exists r,
      In r (rows df1) /\ keyword r = keyword r0 /\ daydelta_int r = None /\
      forall r', In r' (rows df1) -> keyword r' = keyword r0 ->
        daydelta_int r' = None -> r' = r.
Proof.
  intros Hwf Hnd H r0 Hr0.
  destruct (clean_steps_ok df Hwf) as [df2 [E2 _]].
  pose proof (clean_steps_index df df2 Hwf E2) as Hidx.
  unfold up_to_daydelta in H.
  destruct (clean_dataframe df) as [dfa|e]; cbn [bind] in *; [|discriminate].
  rewrite E2 in H. cbn [bind] in H. clear E2.
  unfold calculate_daydelta in H.
  apply bind_ok in H. destruct H as [keys [Ek H]].
  apply column_ok_inv in Ek. destruct Ek as [_ Ek]. subst keys.
  apply bind_ok in H. destruct H as [s [Es H]].
  apply bind_ok in H. destruct H as [? [_ H]].
  apply bind_ok in H. destruct H as [u [_ H]].
  injection H as H. subst df1. cbn [rows] in *.
  assert (Hnd2 : NoDup (map index (rows df2))) by (now rewrite Hidx).
  destruct (daydelta_loop_one_undefined (rows df2)
              (unique (map keyword (rows df2))) [] df2 s Hnd2)
    as [Hfix Hone]; try assumption.
  - apply unique_NoDup.
  - intros k _ [].
  - split; [reflexivity | intros k []].
  - destruct (fixed_fields_labels _ _ Hfix) as [HidxS HkwS].
    apply in_map_iff in Hr0. destruct Hr0 as [r1 [E1 Hr1]]. subst r0.
    cbn [keyword set_daydelta_int].
    destruct (Hone (keyword r1)) as [_ [j [[rj [Hrj [Ej [Ekj Edj]]]] Hrest]]].
    + rewrite app_nil_r. apply unique_In. rewrite <- HkwS. now apply in_map.
    + rewrite <- HkwS. now apply in_map.
    + exists (set_daydelta_int (daydelta rj) rj).
      split; [apply (in_map (fun x => set_daydelta_int (daydelta x) x)), Hrj|].
      split; [exact Ekj|]. split; [exact Edj|].
      intros r' Hr' Hk' Hd'.
      apply in_map_iff in Hr'. destruct Hr' as [r2 [E2 Hr2]]. subst r'.
      cbn in Hk', Hd'.
      assert (Hi : index r2 = j).
      { destruct (Nat.eq_dec (index r2) j) as [E|N]; [exact E|].
        exfalso. now apply (Hrest r2 Hr2 Hk' N). }
      assert (r2 = rj).
      { apply (same_label_same_row (rows s)); try assumption;
          [now rewrite HidxS | congruence]. }
      now subst r2.
Qed.

End OneUndefined.

Lemma one_undefined_delta_per_keyword_witness :
  let df1 := frame_of (@up_to_daydelta stable_sort mixed_payments) in
  well_formed_input mixed_payments = true /\
  forall r0, In r0 (rows df1) ->
    exists r,
      In r (rows df1) /\ keyword r = keyword r0 /\ daydelta_int r = None /\
      forall r', In r' (rows df1) ->
        keyword r' = keyword r0 -> daydelta_int r' = None -> r' = r.
Proof.
  intros df1. split; [reflexivity|].
  apply (@one_undefined_delta_per_keyword stable_sort mixed_payments).
  - reflexivity.
  - cbn. repeat (constructor; [cbn; intuition discriminate|]). constructor.
  - vm_compute. reflexivity.
Defined.

(** ** The markers *)

Lemma loc_set_recurring_has (s : DataFrame) (labels : list nat) (x : string) :
  has_column (loc_set_recurring s labels) x =
  has_column s x || String.eqb x "recurring".
Proof. unfold loc_set_recurring, has_column. cbn [columns]. apply has_with_column. Qed.

Section Markers.

Context {SV : SortValues}.

Lemma calculate_daydelta_no_marker (df df1 : DataFrame) :
  has_column df "recurring" = false ->
  calculate_daydelta df = Ok df1 ->
  has_column df1 "recurring" = false.
Proof.
  intros Hno H. unfold calculate_daydelta in H.
  apply bind_ok in H. destruct H as [keys [Ek H]].
  apply bind_ok in H. destruct H as [s [Es H]].
  apply bind_ok in H. destruct H as [? [_ H]].
  apply bind_ok in H. destruct H as [u [_ H]].
  injection H as H. subst df1.
  unfold has_column. cbn [columns]. rewrite has_with_column.
  fold (has_column s "recurring").
  replace (has_column s "recurring") with false; [reflexivity|].
  symmetry.
  apply (for_each_kept (fun s => has_column s "recurring" = false) _ _ _ _ Es).
  - exact Hno.
  - intros s0 a s1 _ Hs0 Hb.
    apply daydelta_body_written in Hb. destruct Hb as [g [out [_ [_ E]]]].
    subst s1. unfold write_back. rewrite fold_loc_set_daydelta_has, Hs0.
    destruct (rows out); reflexivity.
Qed.

Lemma up_to_daydelta_no_marker (df df1 : DataFrame) :
  well_formed_input df = true ->
  up_to_daydelta df = Ok df1 ->
  has_column df1 "recurring" = false.
Proof.
  intros Hwf H.
  destruct (clean_steps_ok df Hwf) as [df2 [E2 [_ [_ [_ [_ Hr]]]]]].
  unfold up_to_daydelta in H.
  destruct (clean_dataframe df) as [dfa|e]; cbn [bind] in *; [|discriminate].
  rewrite E2 in H. cbn [bind] in H.
  now apply (calculate_daydelta_no_marker df2).
Qed.

(** The labels of a group pick, among rows that carry the labels and
    keywords of the frame, those of the group's keyword. *)
Lemma label_test (rs : list Row) (kw : str) (o : Row) :
  NoDup (map index rs) ->
  (exists r, In r rs /\ index r = index o /\ keyword r = keyword o) ->
  existsb (Nat.eqb (index o))
    (map index (sort_values (filter (fun r => Text.eqb (keyword r) kw) rs))) =
  Text.eqb (keyword o) kw.
Proof.
  intros Hnd [r [Hr [Ei Ek]]].
  destruct (Text.eqb (keyword o) kw) eqn:E.
  - apply existsb_exists. exists (index o). split; [|apply Nat.eqb_refl].
    rewrite <- Ei. apply in_map.
    apply (Permutation_in _ (sort_values_perm _)).
    apply filter_In. split; [exact Hr | congruence].
  - apply not_true_is_false. intros H.
    apply existsb_exists in H. destruct H as [l [Hl El]].
    apply Nat.eqb_eq in El. subst l.
    apply in_map_iff in Hl. destruct Hl as [p [Ep Hp]].
    apply (Permutation_in _ (Permutation_sym (sort_values_perm _))) in Hp.
    apply filter_In in Hp. destruct Hp as [Hp Hpk].
    assert (p = r) by (apply (same_label_same_row rs); congruence).
    subst p. congruence.
Qed.

Lemma loc_set_recurring_from (s : DataFrame) (labels : list nat) (r : Row) :
  In r (rows (loc_set_recurring s labels)) ->
  exists o,
    index o = index r /\ keyword o = keyword r /\
    (exists r0, In r0 (rows s) /\ index r0 = index o /\ keyword r0 = keyword o /\
                (has_column s "recurring" = true -> o = r0) /\
                (has_column s "recurring" = false -> recurring o = None)) /\
    r = if existsb (Nat.eqb (index o)) labels
        then set_recurring (Some true) o else o.
Proof.
  unfold loc_set_recurring. cbn [rows]. intros H.
  apply in_map_iff in H. destruct H as [o [E Ho]].
  exists o. split; [|split; [|split]].
  - subst r. destruct (existsb _ _); reflexivity.
  - subst r. destruct (existsb _ _); reflexivity.
  - destruct (has_column s "recurring").
    + exists o. repeat split; try assumption; try reflexivity. discriminate.
    + apply in_map_iff in Ho. destruct Ho as [r0 [E0 H0]].
      exists r0. subst o. repeat split; try assumption; try reflexivity.
      discriminate.
  - now symmetry.
Qed.

Lemma recurring_body_some_true (rows0 : list Row) (s s1 : DataFrame) (a : str) :
  In a (map keyword rows0) ->
  map fixed_fields (rows s) = map fixed_fields rows0 ->
  (has_column s "recurring" = true ->
   exists r, In r (rows s) /\ recurring r = Some true) ->
  recurring_body s a = Ok s1 ->
  map fixed_fields (rows s1) = map fixed_fields rows0 /\
  (has_column s1 "recurring" = true ->
   exists r, In r (rows s1) /\ recurring r = Some true).
Proof.
  intros Ha Hfix Htrue Hb.
  apply recurring_body_cases in Hb. destruct Hb as [g [b [Eg [_ E]]]].
  destruct b; subst s1; [|now split].
  split; [now rewrite loc_set_recurring_fixed|]. intros _.
  apply get_subdf_rows in Eg. destruct Eg as [_ Eg].
  destruct (fixed_fields_labels _ _ Hfix) as [_ Hkw].
  rewrite <- Hkw in Ha. apply in_map_iff in Ha. destruct Ha as [rk [Ek Hrk]].
  assert (Hlab : In (index rk) (map index (rows g))).
  { apply in_map. rewrite Eg.
    apply (Permutation_in _ (sort_values_perm _)).
    apply filter_In. split; [exact Hrk | now apply text_eqb_eq]. }
  assert (Htest : existsb (Nat.eqb (index rk)) (map index (rows g)) = true).
  { apply existsb_exists. exists (index rk). split; [exact Hlab|].
    apply Nat.eqb_refl. }
  unfold loc_set_recurring. cbn [rows].
  destruct (has_column s "recurring").
  - exists (set_recurring (Some true) rk). split; [|reflexivity].
    apply in_map_iff. exists rk. split; [|exact Hrk]. now rewrite Htest.
  - exists (set_recurring (Some true) (set_recurring None rk)).
    split; [|reflexivity].
    apply in_map_iff. exists (set_recurring None rk). split.
    + cbn [index set_recurring]. now rewrite Htest.
    + now apply in_map.
Qed.

Lemma recurring_body_uniform (rows0 : list Row) (s s1 : DataFrame) (a : str) :
  NoDup (map index rows0) ->
  map fixed_fields (rows s) = map fixed_fields rows0 ->
  (has_column s "recurring" = true ->
   forall r1 r2, In r1 (rows s) -> In r2 (rows s) ->
     keyword r1 = keyword r2 -> recurring r1 = recurring r2) ->
  recurring_body s a = Ok s1 ->
  map fixed_fields (rows s1) = map fixed_fields rows0 /\
  (has_column s1 "recurring" = true ->
   forall r1 r2, In r1 (rows s1) -> In r2 (rows s1) ->
     keyword r1 = keyword r2 -> recurring r1 = recurring r2).
Proof.
  intros Hnd Hfix Hun Hb.
  apply recurring_body_cases in Hb. destruct Hb as [g [b [Eg [_ E]]]].
  destruct b; subst s1; [|now split].
  split; [now rewrite loc_set_recurring_fixed|]. intros _ r1 r2 H1 H2 Hk.
  apply get_subdf_rows in Eg. destruct Eg as [_ Eg].
  destruct (fixed_fields_labels _ _ Hfix) as [Hidx _].
  assert (HndS : NoDup (map index (rows s))) by (now rewrite Hidx).
  destruct (loc_set_recurring_from s _ r1 H1)
    as [o1 [Ei1 [Ek1 [[p1 [Hp1 [Epi1 [Epk1 [Hs1 Hn1]]]]] E1]]]].
  destruct (loc_set_recurring_from s _ r2 H2)
    as [o2 [Ei2 [Ek2 [[p2 [Hp2 [Epi2 [Epk2 [Hs2 Hn2]]]]] E2]]]].
  rewrite Eg in E1, E2.
  rewrite (label_test (rows s) a o1 HndS) in E1 by (now exists p1).
  rewrite (label_test (rows s) a o2 HndS) in E2 by (now exists p2).
  assert (Hko : keyword o1 = keyword o2) by congruence.
  rewrite Hko in E1.
  destruct (Text.eqb (keyword o2) a); subst r1 r2; [reflexivity|].
  destruct (has_column s "recurring") eqn:Hc.
  - rewrite (Hs1 eq_refl), (Hs2 eq_refl).
    apply (Hun eq_refl); try assumption. congruence.
  - now rewrite (Hn1 eq_refl), (Hn2 eq_refl).
Qed.

(** X8.  After [calculate_recurring] no marker is left undefined; at least one
    row is marked [True]; and, on a table with distinct index labels, the rows
    of one keyword carry the same marker. *)
Theorem markers_by_group (df df4 : DataFrame) :
  well_formed_input df = true ->
  annotate df = Ok df4 ->
  Forall (fun r => recurring r <> None) (rows df4) /\
  (exists r, In r (rows df4) /\ recurring r = Some true) /\
  (NoDup (map index (rows df)) ->
   forall r1 r2, In r1 (rows df4) -> In r2 (rows df4) ->
     keyword r1 = keyword r2 -> recurring r1 = recurring r2).
Proof.
  intros Hwf H. unfold annotate in H.
  apply bind_ok in H. destruct H as [df3 [H3 H]].
  pose proof (up_to_daydelta_no_marker df df3 Hwf H3) as Hno.
  assert (Hidx3 : map index (rows df3) = map index (rows df)).
  { unfold up_to_daydelta in H3.
    destruct (clean_steps_ok df Hwf) as [df2 [E2 _]].
    pose proof (clean_steps_index df df2 Hwf E2) as Hi2.
    destruct (clean_dataframe df) as [dfa|e]; cbn [bind] in *; [|discriminate].
    rewrite E2 in H3. cbn [bind] in H3.
    apply calculate_daydelta_fixed in H3.
    apply fixed_fields_labels in H3. destruct H3 as [H3 _]. congruence. }
  unfold calculate_recurring in H.
  apply bind_ok in H. destruct H as [keys [Ek H]].
  apply column_ok_inv in Ek. destruct Ek as [_ Ek]. subst keys.
  apply bind_ok in H. destruct H as [s [Es H]].
  apply bind_ok in H. destruct H as [? [Hc H]].
  apply column_ok_inv in Hc. destruct Hc as [Hc _].
  injection H as H. subst df4. cbn [rows].
  assert (Htrue : map fixed_fields (rows s) = map fixed_fields (rows df3) /\
                  (has_column s "recurring" = true ->
                   exists r, In r (rows s) /\ recurring r = Some true)).
  { apply (for_each_kept
             (fun s => map fixed_fields (rows s) = map fixed_fields (rows df3) /\
                       (has_column s "recurring" = true ->
                        exists r, In r (rows s) /\ recurring r = Some true))
             _ _ _ _ Es).
    - split; [reflexivity | congruence].
    - intros s0 a s1 Ha [Hf Ht] Hb.
      apply (recurring_body_some_true (rows df3) s0 s1 a); try assumption.
      now apply unique_In. }
  destruct Htrue as [Hfix Htrue].
  split; [|split].
  - apply Forall_forall. intros r Hr. apply in_map_iff in Hr.
    destruct Hr as [r0 [E _]]. subst r.
    destruct (recurring r0) eqn:E0; [rewrite E0|]; discriminate.
  - destruct (Htrue Hc) as [r [Hr Er]]. exists r. split; [|exact Er].
    apply in_map_iff. exists r. split; [|exact Hr]. now rewrite Er.
  - intros Hnd r1 r2 H1 H2 Hk.
    assert (Hun : has_column s "recurring" = true ->
                  forall r1 r2, In r1 (rows s) -> In r2 (rows s) ->
                    keyword r1 = keyword r2 -> recurring r1 = recurring r2).
    { apply (for_each_kept
               (fun s => map fixed_fields (rows s) = map fixed_fields (rows df3) /\
                         (has_column s "recurring" = true ->
                          forall r1 r2, In r1 (rows s) -> In r2 (rows s) ->
                            keyword r1 = keyword r2 -> recurring r1 = recurring r2))
               _ _ _ _ Es).
      - split; [reflexivity | congruence].
      - intros s0 a s1 _ [Hf Hu] Hb.
        apply (recurring_body_uniform (rows df3) s0 s1 a); try assumption.
        now rewrite Hidx3. }
    apply in_map_iff in H1. destruct H1 as [o1 [E1 Ho1]].
    apply in_map_iff in H2. destruct H2 as [o2 [E2 Ho2]].
    assert (Hko : keyword o1 = keyword o2).
    { subst r1 r2. destruct (recurring o1), (recurring o2); exact Hk. }
    pose proof (Hun Hc o1 o2 Ho1 Ho2 Hko) as Ho.
    subst r1 r2. rewrite Ho.
    destruct (recurring o2) eqn:E2; [congruence | reflexivity].
Qed.

End Markers.

Lemma markers_by_group_witness :
  let df4 := frame_of (@annotate stable_sort mixed_payments) in
  Forall (fun r => recurring r <> None) (rows df4) /\
  (exists r, In r (rows df4) /\ recurring r = Some true) /\
  (NoDup (map index (rows mixed_payments)) ->
   forall r1 r2, In r1 (rows df4) -> In r2 (rows df4) ->
     keyword r1 = keyword r2 -> recurring r1 = recurring r2).
Proof.
  apply (@markers_by_group stable_sort mixed_payments).
  - reflexivity.
  - vm_compute. reflexivity.
Defined.

(** ** The driver *)


Section DriverFacts.

Context {SV : SortValues}.



End DriverFacts.


(** ** Direction and keyword *)

Lemma first_field_no_space (s : str) :
  Forall (fun c => c <> " "%char) (Text.first_field s).
Proof.
  induction s as [|c s IH]; cbn; [constructor|].
  destruct (Ascii.eqb c " ") eqn:E; constructor; [|exact IH].
  intros Ec. subst c. discriminate.
Qed.

Lemma split_at_first_space (a b x y : str) :
  Forall (fun c => c <> " "%char) a ->
  Forall (fun c => c <> " "%char) b ->
  a ++ " "%char :: x = b ++ " "%char :: y -> a = b /\ x = y.
Proof.
  intros Ha. revert b. induction Ha as [|c a Hc Ha IH]; intros b Hb E.
  - destruct Hb as [|d b Hd Hb]; cbn in E.
    + injection E as E. now split.
    + injection E as E _. now contradiction Hd.
  - destruct Hb as [|d b Hd Hb]; cbn in E.
    + injection E as E _. now contradiction Hc.
    + injection E as E1 E2. destruct (IH b Hb E2) as [Eab Exy].
      split; congruence.
Qed.

Lemma direction_label_inj (x y : bool) :
  direction_label x = direction_label y -> x = y.
Proof. destruct x, y; cbn; intros H; try reflexivity; discriminate. Qed.

Section Directions.

Context {SV : SortValues}.

Lemma same_keyword_same_direction (df df4 : DataFrame) (r1 r2 : Row) :
  well_formed_input df = true ->
  annotate df = Ok df4 ->
  In r1 (rows df4) -> In r2 (rows df4) ->
  (keyword r1 = keyword r2 <->
   income r1 = income r2 /\
   Text.first_field (clean_desc r1) = Text.first_field (clean_desc r2)).
Proof.
  intros Hwf H H1 H2.
  destruct (annotate_rows df df4 Hwf H) as [_ Hall].
  rewrite Forall_forall in Hall.
  destruct (Hall r1 H1) as [Ht1 [_ Hk1]].
  destruct (Hall r2 H2) as [Ht2 [_ Hk2]].
  rewrite Hk1, Hk2, Ht1, Ht2. unfold make_keyword. cbn [lit list_ascii_of_string app].
  split.
  - intros E. apply split_at_first_space in E;
      try apply first_field_no_space.
    destruct E as [E1 E2]. split; [now apply direction_label_inj | exact E1].
  - intros [Ei Ef]. now rewrite Ei, Ef.
Qed.

(** X10.  Two transactions are in the same group exactly when they have the
    same direction and the same first word (the text before the first space of
    the cleaned description): a credit and a debit never share a group. *)
Theorem same_group_same_direction (df df4 : DataFrame) (r1 r2 : Row) :
  well_formed_input df = true ->
  annotate df = Ok df4 ->
  In r1 (rows df4) -> In r2 (rows df4) ->
  (keyword r1 = keyword r2 <->
   income r1 = income r2 /\
   Text.first_field (clean_desc r1) = Text.first_field (clean_desc r2)).
Proof. apply same_keyword_same_direction. Qed.

(** X11.  The ['income'] of a summary, read off the first row of the group, is
    the direction of every transaction of the group. *)
Theorem summary_income_of_group (df df4 : DataFrame) (kw : str) (s : Summary) :
  well_formed_input df = true ->
  annotate df = Ok df4 ->
  summarise df4 kw = Ok s ->
  forall r, In r (rows df4) -> keyword r = kw -> income r = income_ s.
Proof.
  intros Hwf H Hs r Hr Hk. unfold summarise in Hs.
  apply bind_ok in Hs. destruct Hs as [g [Eg Hs]].
  apply bind_ok in Hs. destruct Hs as [descs [_ Hs]].
  apply bind_ok in Hs. destruct Hs as [name [_ Hs]].
  apply bind_ok in Hs. destruct Hs as [incomes [Ei Hs]].
  apply column_ok_inv in Ei. destruct Ei as [_ Ei].
  apply bind_ok in Hs. destruct Hs as [inc [Einc Hs]].
  apply bind_ok in Hs. destruct Hs as [deltas [_ Hs]].
  apply bind_ok in Hs. destruct Hs as [period [_ Hs]].
  apply bind_ok in Hs. destruct Hs as [amounts [_ Hs]].
  apply bind_ok in Hs. destruct Hs as [typical [_ Hs]].
  injection Hs as Hs. subst s. cbn [income_].
  destruct incomes as [|b bs]; [discriminate|]. injection Einc as Einc.
  subst inc. destruct (rows g) as [|r0 rs] eqn:Erows; [discriminate|].
  cbn in Ei. injection Ei as Eb _. subst b.
  assert (H0 : In r0 (rows df4) /\ keyword r0 = kw).
  { apply (in_subdf df4 kw g r0 Eg). rewrite Erows. now left. }
  destruct H0 as [H0 Hk0].
  apply (same_keyword_same_direction df df4 r r0 Hwf H Hr H0). congruence.
Qed.

End Directions.

Lemma same_group_same_direction_witness :
  let df4 := frame_of (@annotate stable_sort mixed_payments) in
  well_formed_input mixed_payments = true /\
  forall r1 r2, In r1 (rows df4) -> In r2 (rows df4) ->
    (keyword r1 = keyword r2 <->
     income r1 = income r2 /\
     Text.first_field (clean_desc r1) = Text.first_field (clean_desc r2)).
Proof.
  intros df4. split; [reflexivity|]. intros r1 r2.
  apply (@same_group_same_direction stable_sort mixed_payments).
  - reflexivity.
  - vm_compute. reflexivity.
Defined.

Lemma summary_income_of_group_witness :
  let df4 := frame_of (@annotate stable_sort mixed_payments) in
  well_formed_input mixed_payments = true /\
  forall r, In r (rows df4) -> keyword r = lit "spotify debit" ->
    income r = false.
Proof.
  intros df4. split; [reflexivity|].
  apply (@summary_income_of_group stable_sort mixed_payments df4
           (lit "spotify debit")
           (mkSummary (lit "spotify") false (Fin 31) (Fin 1249))).
  - reflexivity.
  - vm_compute. reflexivity.
  - vm_compute. reflexivity.
Defined.

(** ** The figures of a summary *)

Lemma dropna_from (w : list (option Z)) (d : Z) :
  In d (dropna w) -> In (Some d) w.
Proof.
  unfold dropna. intros H. apply in_flat_map in H.
  destruct H as [x [Hx Hd]]. destruct x as [z|]; [|contradiction].
  destruct Hd as [Hd|[]]. now subst z.
Qed.

Lemma last_n_In {A : Type} (n : nat) (l : list A) (x : A) :
  In x (last_n n l) -> In x l.
Proof.
  unfold last_n. intros H.
  rewrite <- (firstn_skipn (List.length l - n) l). apply in_or_app. now right.
Qed.

Section Figures.

Context {SV : SortValues}.

(** X12.  In a summary of a keyword whose amounts are few and small enough
    for doubles to add them exactly ([small_amounts]) and whose deltas are
    whole days that a [Timedelta] can hold, [typical_amount_cents] is a
    whole number between the smallest and the largest amount of the
    transactions of the keyword, and [period_days] a whole number between
    the smallest and the largest of their deltas. *)
Theorem summary_within_range (df : DataFrame) (kw : str) (s : Summary) :
  summarise df kw = Ok s ->
  small_amounts df kw ->
  (forall r d, In r (rows df) -> keyword r = kw -> daydelta_int r = Some d ->
     timedelta_days d) ->
  (exists z,
     typical_amount_cents s = Fin (inject_Z z) /\
     forall lo hi,
       (forall r, In r (rows df) -> keyword r = kw ->
          (lo <= amount_cents r <= hi)%Z) ->
       (lo <= z <= hi)%Z) /\
  (exists p,
     period_days s = Fin (inject_Z p) /\
     forall lo hi,
       (forall r d, In r (rows df) -> keyword r = kw ->
          daydelta_int r = Some d -> (lo <= d <= hi)%Z) ->
       (lo <= p <= hi)%Z).
Proof.
  intros Hs Hsmall Hdays.
  destruct (summarise_fields df kw s Hs) as [Hne [Hp _]].
  set (f := filter (fun r => Text.eqb (keyword r) kw) (rows df)) in *.
  assert (Hf : forall r, In r f -> In r (rows df) /\ keyword r = kw).
  { intros r Hr. apply filter_In in Hr. destruct Hr as [Hr Hk].
    split; [exact Hr | now apply text_eqb_eq]. }
  assert (Hg : forall r, In r (sort_values f) -> In r (rows df) /\ keyword r = kw).
  { intros r Hr. apply Hf.
    apply (Permutation_in r (Permutation_sym (sort_values_perm f)) Hr). }
  split.
  - exists (rounded_mean_amount df kw).
    split; [now apply summarise_typical|].
    intros lo hi Hb. unfold rounded_mean_amount, mean_amount. fold f.
    apply round_average_bounds.
    + intros E. apply map_eq_nil in E. apply Hne.
      destruct (sort_values f) as [|r0 rs] eqn:Es; [reflexivity|].
      assert (H0 : In r0 f).
      { apply (Permutation_in r0 (Permutation_sym (sort_values_perm f))).
        rewrite Es. now left. }
      rewrite E in H0. contradiction.
    + intros x Hx. apply in_map_iff in Hx. destruct Hx as [r [Ex Hr]].
      subst x. destruct (Hf r Hr) as [Hr1 Hk]. now apply Hb.
  - set (cells := last_n 3 (map daydelta_int (sort_values f))) in *.
    assert (Hcells : forall d, In d (dropna cells) ->
              exists r, In r (rows df) /\ keyword r = kw /\
                        daydelta_int r = Some d).
    { intros d Hd. apply dropna_from, last_n_In, in_map_iff in Hd.
      destruct Hd as [r [Ed Hr]]. exists r.
      destruct (Hg r Hr) as [Hr1 Hk]. now repeat split. }
    assert (Hnn : dropna cells <> []).
    { intros E. unfold mean_round in Hp. rewrite E in Hp. discriminate. }
    assert (Hlen : (List.length (dropna cells) <= 3)%nat).
    { pose proof (dropna_length cells).
      pose proof (last_n_short 3 (map daydelta_int (sort_values f))) as Hl.
      fold cells in Hl. lia. }
    assert (Htd : Forall timedelta_days (dropna cells)).
    { apply Forall_forall. intros d Hd.
      destruct (Hcells d Hd) as [r [Hr [Hk Er]]]. now apply (Hdays r d). }
    pose proof (timedelta_days_sum _ Htd) as Hsum.
    rewrite mean_round_exact in Hp by (assumption || lia).
    injection Hp as Hp.
    exists (round_half_even (average (dropna cells))).
    split; [now symmetry|].
    intros lo hi Hb. apply round_average_bounds; [exact Hnn|].
    intros d Hd. destruct (Hcells d Hd) as [r [Hr [Hk Er]]].
    now apply (Hb r d).
Qed.

End Figures.

Lemma summary_within_range_witness :
  let df4 := frame_of (@annotate stable_sort mixed_payments) in
  let s := mkSummary (lit "spotify") false (Fin 31) (Fin 1249) in
  (exists z,
     typical_amount_cents s = Fin (inject_Z z) /\
     forall lo hi,
       (forall r, In r (rows df4) -> keyword r = lit "spotify debit" ->
          (lo <= amount_cents r <= hi)%Z) ->
       (lo <= z <= hi)%Z) /\
  (exists p,
     period_days s = Fin (inject_Z p) /\
     forall lo hi,
       (forall r d, In r (rows df4) -> keyword r = lit "spotify debit" ->
          daydelta_int r = Some d -> (lo <= d <= hi)%Z) ->
       (lo <= p <= hi)%Z).
Proof.
  apply (@summary_within_range stable_sort
           (frame_of (@annotate stable_sort mixed_payments))
           (lit "spotify debit")).
  - vm_compute. reflexivity.
  - vm_compute. discriminate.
  - match goal with
    | |- forall r d, In r ?l -> _ =>
        let v := eval vm_compute in l in
        replace l with v by (vm_compute; reflexivity)
    end.
    intros r d Hr _ Hd.
    repeat (destruct Hr as [Hr|Hr];
            [subst r; cbn [daydelta_int] in Hd;
             first [discriminate
                   | injection Hd as Hd; subst d; unfold timedelta_days; lia]|]).
    contradiction.
Defined.

(** ** Entity names in general *)

Lemma common_tokens_words (data : list str) :
  Forall (fun w => w <> [] /\ no_space w) (common_tokens data).
Proof.
  destruct data as [|first rest]; [constructor|].
  unfold common_tokens. apply Forall_forall. intros w Hw.
  apply filter_In in Hw. destruct Hw as [Hw _].
  pose proof (split_ws_from_words first [] (Forall_nil _)) as H.
  rewrite Forall_forall in H. now apply H.
Qed.

Lemma find_entity_name_joined (first : str) (rest : list str) :
  find_entity_name (first :: rest) =
  Ok (Text.join_space (common_tokens (first :: rest))).
Proof.
  unfold find_entity_name. f_equal.
  rewrite common_words_fold. cbn [app].
  apply strip_words. apply (common_tokens_words (first :: rest)).
Qed.

(** X13.  [find_entity_name] raises [IndexError] on no description at all;
    otherwise it returns, joined by single spaces and in their order, the
    tokens of the first description that occur (as substrings) in every
    description; with no such token the name is the empty text. *)
Theorem entity_name_common_tokens (data : list str) :
  (data = [] -> find_entity_name data = Raise IndexError) /\
  (data <> [] ->
   find_entity_name data = Ok (Text.join_space (common_tokens data)) /\
   (forall w desc, In w (common_tokens data) -> In desc data ->
      Text.contains w desc = true) /\
   (common_tokens data = [] -> find_entity_name data = Ok [])).
Proof.
  split; [intros E; now subst data|].
  intros Hne. destruct data as [|first rest]; [contradiction|].
  split; [apply find_entity_name_joined|]. split.
  - intros w desc Hw Hd. unfold common_tokens in Hw.
    apply filter_In in Hw. destruct Hw as [_ Hw].
    rewrite forallb_forall in Hw. now apply Hw.
  - intros E. rewrite find_entity_name_joined, E. reflexivity.
Qed.

Lemma entity_name_common_tokens_witness :
  find_entity_name [lit "tfl travel     "; lit "tfl travel  charge"] =
  Ok (lit "tfl travel").
Proof.
  apply (proj2 (entity_name_common_tokens
                  [lit "tfl travel     "; lit "tfl travel  charge"])).
  discriminate.
Defined.


Lemma split_ws_from_word (w cur s : str) :
  no_space w ->
  Text.split_ws_from cur (w ++ s) = Text.split_ws_from (cur ++ w) s.
Proof.
  intros Hw. revert cur. induction Hw as [|c w Hc Hw IH]; intros cur.
  - now rewrite app_nil_r.
  - cbn [app Text.split_ws_from]. rewrite Hc, IH, <- app_assoc. reflexivity.
Qed.

Lemma split_join_words (ws : list str) :
  Forall (fun w => w <> [] /\ no_space w) ws ->
  Text.split_ws (Text.join_space ws) = ws.
Proof.
  unfold Text.split_ws. intros H.
  induction H as [|w ws [Hne Hw] Hws IH]; [reflexivity|].
  destruct ws as [|w2 ws].
  - cbn [Text.join_space]. rewrite <- (app_nil_r w) at 1.
    rewrite split_ws_from_word by exact Hw. cbn.
    destruct w; [contradiction | reflexivity].
  - change (Text.join_space (w :: w2 :: ws))
      with (w ++ " "%char :: Text.join_space (w2 :: ws)).
    rewrite split_ws_from_word by exact Hw.
    cbn [app Text.split_ws_from].
    change (Text.is_space " ") with true. cbn iota.
    rewrite IH. destruct w; [contradiction | reflexivity].
Qed.

(** X14.  An entity name is a fixed point of the extraction: taken as the only
    description of a group, it comes back unchanged. *)
Theorem entity_name_idempotent (data : list str) (name : str) :
  find_entity_name data = Ok name ->
  find_entity_name [name] = Ok name.
Proof.
  intros H. destruct data as [|first rest]; [discriminate|].
  rewrite find_entity_name_joined in H.
  pose proof (common_tokens_words (first :: rest)) as Hw.
  remember (common_tokens (first :: rest)) as ws eqn:Ews. clear Ews.
  injection H as H. subst name.
  rewrite find_entity_name_joined. f_equal. unfold common_tokens.
  assert (Hall : forall w, In w (Text.split_ws (Text.join_space ws)) ->
            forallb (fun desc => Text.contains w desc)
              [Text.join_space ws] = true).
  { intros w Hin. cbn [forallb]. rewrite andb_true_r.
    now apply split_ws_contained. }
  rewrite (filter_all _ _ Hall). now rewrite (split_join_words _ Hw).
Qed.

Lemma entity_name_idempotent_witness :
  find_entity_name [lit "tfl travel"] = Ok (lit "tfl travel").
Proof.
  apply (entity_name_idempotent
           [lit "tfl travel     "; lit "tfl travel  charge"]).
  vm_compute. reflexivity.
Defined.

(** ** The alphabet of a cleaned description *)

Lemma lower_punct_alphabet (c : ascii) :
  let c' := Text.lower_char (Regex.punct_char c) in
  Text.is_upper c' = false /\
  c' <> "*"%char /\ c' <> "."%char /\ c' <> ","%char.
Proof.
  destruct c as [[] [] [] [] [] [] [] []];
    (split; [reflexivity | repeat split; discriminate]).
Qed.

Lemma sub_from_length (s : str) (prev : option ascii) (skip : nat) :
  (List.length (Regex.sub_from prev skip s) <= List.length s)%nat.
Proof.
  revert prev skip. induction s as [|c s IH]; intros prev skip; [cbn; lia|].
  cbn [Regex.sub_from]. destruct skip as [|k].
  - destruct (Regex.match_here prev (c :: s)).
    + specialize (IH (Some c) (n - 1)%nat). cbn [List.length]. lia.
    + specialize (IH (Some c) 0%nat). cbn [List.length]. lia.
  - specialize (IH (Some c) k). cbn [List.length]. lia.
Qed.

(** X15.  A cleaned description holds no upper-case letter and none of the
    characters [*], [.] and [,], and is never longer than the raw description. *)
Theorem clean_text_alphabet (raw : str) :
  Forall
    (fun c =>
       Text.is_upper c = false /\
       c <> "*"%char /\ c <> "."%char /\ c <> ","%char)
    (clean_text raw) /\
  (List.length (clean_text raw) <= List.length raw)%nat.
Proof.
  unfold clean_text, Text.lower, Regex.replace_punct. split.
  - rewrite map_map. apply Forall_forall. intros c Hc.
    apply in_map_iff in Hc. destruct Hc as [c0 [E _]]. subst c.
    apply lower_punct_alphabet.
  - rewrite !length_map. apply sub_from_length.
Qed.

(** ** The columns a run reads *)

Lemma has_new_column (cols : list string) (c x : string) :
  existsb (String.eqb x) (with_column cols c) = true ->
  existsb (String.eqb x) cols = true \/ x = c.
Proof.
  rewrite has_with_column. intros H. apply orb_true_iff in H.
  destruct H as [H|H]; [now left | right; now apply String.eqb_eq].
Qed.

Lemma clean_dataframe_columns (df df1 : DataFrame) :
  clean_dataframe df = Ok df1 ->
  has_column df "made_on" = true /\
  has_column (drop_first_two df) "income" = true /\
  forall x, has_column df1 x = true ->
    has_column (drop_first_two df) x = true \/ x = "type"%string.
Proof.
  unfold clean_dataframe. intros H.
  apply bind_ok in H. destruct H as [l1 [Hm H]].
  apply column_ok_inv in Hm. destruct Hm as [Hm _].
  apply bind_ok in H. destruct H as [l2 [Hi H]].
  apply column_ok_inv in Hi. destruct Hi as [Hi _].
  injection H as H. subst df1.
  split; [exact Hm|]. split; [exact Hi|].
  intros x Hx. unfold has_column in Hx. cbn [columns] in Hx.
  now apply has_new_column in Hx.
Qed.

Lemma clean_description_columns (df df1 : DataFrame) :
  clean_description df = Ok df1 ->
  has_column df "original_description" = true /\
  forall x, has_column df1 x = true ->
    has_column df x = true \/ x = "clean_desc"%string \/ x = "keyword"%string.
Proof.
  unfold clean_description. intros H.
  apply bind_ok in H. destruct H as [l1 [Ho H]].
  apply column_ok_inv in Ho. destruct Ho as [Ho _].
  apply bind_ok in H. destruct H as [l3 [_ H]].
  injection H as H. subst df1.
  split; [exact Ho|].
  intros x Hx. unfold has_column in Hx. cbn [columns] in Hx.
  apply has_new_column in Hx. destruct Hx as [Hx|Hx]; [|now right; right].
  apply has_new_column in Hx. destruct Hx as [Hx|Hx]; [now left | now right; left].
Qed.

Section Columns.

Context {SV : SortValues}.

Lemma calculate_daydelta_columns (df df1 : DataFrame) :
  calculate_daydelta df = Ok df1 ->
  forall x, has_column df1 x = true ->
    has_column df x = true \/ x = "daydelta"%string \/ x = "daydelta_int"%string.
Proof.
  unfold calculate_daydelta. intros H x Hx.
  apply bind_ok in H. destruct H as [keys [_ H]].
  apply bind_ok in H. destruct H as [s [Es H]].
  apply bind_ok in H. destruct H as [l3 [_ H]].
  apply bind_ok in H. destruct H as [u [_ H]].
  injection H as H. subst df1.
  unfold has_column in Hx. cbn [columns] in Hx.
  apply has_new_column in Hx. destruct Hx as [Hx|Hx]; [|now right; right].
  fold (has_column s x) in Hx.
  assert (HP : has_column s x = true ->
               has_column df x = true \/ x = "daydelta"%string).
  { apply (for_each_kept
             (fun s => has_column s x = true ->
                       has_column df x = true \/ x = "daydelta"%string)
             _ _ _ _ Es); [now left|].
    intros s0 a s1 _ IH E. unfold daydelta_body in E.
    apply bind_ok in E. destruct E as [g [_ E]].
    apply bind_ok in E. destruct E as [g' [_ E]].
    injection E as E. subst s1.
    rewrite fold_loc_set_daydelta_has. intros Hs.
    apply orb_true_iff in Hs. destruct Hs as [Hs|Hs]; [now apply IH|].
    apply andb_true_iff in Hs. destruct Hs as [_ Hs].
    right. now apply String.eqb_eq. }
  destruct (HP Hx) as [H1|H1]; [now left | now right; left].
Qed.

Lemma calculate_recurring_columns (df df1 : DataFrame) :
  calculate_recurring df = Ok df1 ->
  forall x, has_column df1 x = true ->
    has_column df x = true \/ x = "recurring"%string.
Proof.
  unfold calculate_recurring. intros H x Hx.
  apply bind_ok in H. destruct H as [keys [_ H]].
  apply bind_ok in H. destruct H as [s [Es H]].
  apply bind_ok in H. destruct H as [l3 [_ H]].
  injection H as H. subst df1.
  change (has_column s x = true) in Hx. revert Hx.
  apply (for_each_kept
           (fun s => has_column s x = true ->
                     has_column df x = true \/ x = "recurring"%string)
           _ _ _ _ Es); [now left|].
  intros s0 a s1 _ IH E.
  destruct (recurring_body_cases s0 s1 a E) as [g [b [_ [_ E1]]]].
  subst s1. destruct b; [|exact IH].
  rewrite loc_set_recurring_has. intros Hs.
  apply orb_true_iff in Hs. destruct Hs as [Hs|Hs]; [now apply IH|].
  right. now apply String.eqb_eq.
Qed.

Lemma generate_output_reads (df : DataFrame) (out : list Summary) :
  generate_output df = Ok out ->
  out <> [] ->
  has_column df "made_on" = true /\ has_column df "amount_cents" = true.
Proof.
  unfold generate_output. intros H Hout.
  apply bind_ok in H. destruct H as [kws [_ H]].
  destruct kws as [|kw kws]; [cbn in H; injection H as H; now subst out|].
  cbn [for_each] in H.
  apply bind_ok in H. destruct H as [acc [H _]].
  apply bind_ok in H. destruct H as [s [H _]].
  unfold summarise in H.
  apply bind_ok in H. destruct H as [g [Eg H]].
  destruct (get_subdf_rows df kw g Eg) as [Ec _].
  split.
  - unfold get_subdf in Eg.
    apply bind_ok in Eg. destruct Eg as [? [_ Eg]].
    apply bind_ok in Eg. destruct Eg as [? [Em _]].
    apply column_ok_inv in Em. now destruct Em as [Em _].
  - apply bind_ok in H. destruct H as [? [_ H]].
    apply bind_ok in H. destruct H as [? [_ H]].
    apply bind_ok in H. destruct H as [? [_ H]].
    apply bind_ok in H. destruct H as [? [_ H]].
    apply bind_ok in H. destruct H as [? [_ H]].
    apply bind_ok in H. destruct H as [? [_ H]].
    apply bind_ok in H. destruct H as [? [Ea _]].
    apply column_ok_inv in Ea. destruct Ea as [Ea _].
    unfold has_column in *. now rewrite <- Ec.
Qed.

(** X16.  A run of the driver that returns a summary has read, past the two
    leading columns it drops, the columns [made_on], [original_description],
    [amount_cents] and [income]: with one of them missing there, or placed
    among the first two columns, the driver does not return a summary. *)
Theorem driver_needs_columns (df : DataFrame) (out : list Summary) :
  get_recurring_transactions df = Ok out ->
  out <> [] ->
  has_column df "made_on" = true /\
  forall c, In c needed_columns -> has_column (drop_first_two df) c = true.
Proof.
  intros H Hout. unfold get_recurring_transactions in H.
  apply bind_ok in H. destruct H as [dfa [Ea H]].
  apply bind_ok in H. destruct H as [dfb [Eb H]].
  apply bind_ok in H. destruct H as [df3 [E3 H]].
  apply bind_ok in H. destruct H as [df4 [E4 H]].
  destruct (clean_dataframe_columns df dfa Ea) as [Hm [Hi Ha]].
  destruct (clean_description_columns dfa dfb Eb) as [Ho Hb].
  destruct (generate_output_reads df4 out H Hout) as [Hm4 Ha4].
  assert (Hback : forall x,
            has_column df4 x = true ->
            ~ In x ["recurring"; "daydelta"; "daydelta_int"; "keyword";
                    "clean_desc"; "type"]%string ->
            has_column (drop_first_two df) x = true).
  { intros x Hx Hn.
    destruct (calculate_recurring_columns df3 df4 E4 x Hx) as [H3|H3];
      [|exfalso; apply Hn; subst x; cbn; tauto].
    destruct (calculate_daydelta_columns dfb df3 E3 x H3) as [H2|[H2|H2]];
      [|exfalso; apply Hn; subst x; cbn; tauto
       |exfalso; apply Hn; subst x; cbn; tauto].
    destruct (Hb x H2) as [H1|[H1|H1]];
      [|exfalso; apply Hn; subst x; cbn; tauto
       |exfalso; apply Hn; subst x; cbn; tauto].
    destruct (Ha x H1) as [H0|H0]; [exact H0|].
    exfalso; apply Hn; subst x; cbn; tauto. }
  split; [exact Hm|].
  intros c Hc. cbn in Hc.
  destruct Hc as [Hc|[Hc|[Hc|[Hc|[]]]]]; subst c.
  - apply Hback; [exact Hm4|]. cbn. intros [E|[E|[E|[E|[E|[E|[]]]]]]]; discriminate.
  - destruct (Ha _ Ho) as [H0|H0]; [exact H0 | discriminate].
  - apply Hback; [exact Ha4|]. cbn. intros [E|[E|[E|[E|[E|[E|[]]]]]]]; discriminate.
  - exact Hi.
Qed.

End Columns.

Lemma driver_needs_columns_witness :
  has_column mixed_payments "made_on" = true /\
  forall c, In c needed_columns ->
    has_column (drop_first_two mixed_payments) c = true.
Proof.
  destruct (@get_recurring_transactions stable_sort mixed_payments)
    as [out|e] eqn:E; [|vm_compute in E; discriminate].
  apply (@driver_needs_columns stable_sort mixed_payments out E).
  intros Eo. subst out. vm_compute in E. discriminate.
Defined.
